(** * Voice task scheduler: a shallow embedding of [voice_temp.py]

    The program records speech, transcribes it, normalises a spoken due
    date, appends the task to a CSV log and registers a daily reminder
    with the [schedule] package.  Everything it does is an effect on the
    outside world, so the embedding is a state-and-exception monad over an
    explicit [World]: the file system, the wall clock, the job objects of
    the scheduler and the trace of calls made to the collaborators.

    The collaborators themselves (OpenAI speech and transcription, the
    sound device, Twilio, [dateparser], the operating system) are not part
    of the program.  Their answers are read from an [Env] of oracles,
    indexed by the position of the call in the trace, so that a theorem
    quantified over [Env] holds for every behaviour of the outside world. *)

From Stdlib Require Import ZArith Ascii.
From stdpp Require Import gmap strings list fin_maps pretty.

Local Open Scope Z_scope.

(** ** Python values *)

(** An exception object: its class and [str(e)].  The exceptions of the
    model are the instances of [Exception] and the keyboard interrupt, which
    is a [BaseException] only and the one class that the program names
    beside [Exception]. *)
Record Exn : Type := mkExn { exn_class : string; exn_msg : string }.

(** [isinstance(e, Exception)] *)
Definition is_Exception (e : Exn) : bool :=
  negb (String.eqb (exn_class e) "KeyboardInterrupt").

Definition KeyboardInterrupt : Exn := mkExn "KeyboardInterrupt" EmptyString.

Definition ValueError (msg : string) : Exn := mkExn "ValueError" msg.
Definition FileNotFoundError (path : string) : Exn :=
  mkExn "FileNotFoundError"
    ("[Errno 2] No such file or directory: '" +:+ path +:+ "'").
Definition ScheduleValueError (msg : string) : Exn :=
  mkExn "ScheduleValueError" msg.

Inductive Result (A : Type) : Type :=
| Ok (a : A)
| Raise (e : Exn).
Arguments Ok {A} a.
Arguments Raise {A} e.

(** [datetime.datetime], naive (no time zone), field by field. *)
Record datetime : Type := mkDatetime {
  year : Z; month : Z; day : Z;
  hour : Z; minute : Z; second : Z; microsecond : Z
}.

(** [dt.time() == dt.min.time()]: the time of day is 00:00:00.000000. *)
Definition time_is_min (dt : datetime) : bool :=
  bool_decide ((hour dt, minute dt, second dt, microsecond dt) = (0, 0, 0, 0)).

(** [dt.replace(hour=h, minute=m)] *)
Definition replace_hour_minute (h m : Z) (dt : datetime) : datetime :=
  mkDatetime (year dt) (month dt) (day dt) h m (second dt) (microsecond dt).

(** The ranges [datetime] enforces on construction (the day is not checked
    against the month here; no claim depends on it). *)
Definition valid_datetime (dt : datetime) : Prop :=
  1 ≤ year dt ≤ 9999 ∧ 1 ≤ month dt ≤ 12 ∧ 1 ≤ day dt ≤ 31 ∧
  0 ≤ hour dt < 24 ∧ 0 ≤ minute dt < 60 ∧ 0 ≤ second dt < 60 ∧
  0 ≤ microsecond dt < 1000000.

(** ** Strings *)

Definition dquote : ascii := "034"%char.
Definition CR : ascii := "013"%char.
Definition LF : ascii := "010"%char.

(** A Python [str] is modelled as a Rocq [string]; a character stands for
    the code point of the same number, so the model covers code points
    below 256.  [str.isspace] on that range. *)
Definition ord (c : ascii) : Z := Z.of_nat (nat_of_ascii c).
Definition chr (n : Z) : ascii := ascii_of_nat (Z.to_nat n).

Definition py_isspace (c : ascii) : bool :=
  let n := ord c in
  ((9 <=? n) && (n <=? 13)) || ((28 <=? n) && (n <=? 32))
  || (n =? 133) || (n =? 160).

Fixpoint lstrip (s : string) : string :=
  match s with
  | EmptyString => EmptyString
  | String c s' => if py_isspace c then lstrip s' else s
  end.

Fixpoint rstrip (s : string) : string :=
  match s with
  | EmptyString => EmptyString
  | String c s' =>
      match rstrip s' with
      | EmptyString => if py_isspace c then EmptyString else String c EmptyString
      | r => String c r
      end
  end.

(** [str.strip()] with no argument. *)
Definition strip (s : string) : string := rstrip (lstrip s).

Fixpoint all_space (s : string) : bool :=
  match s with
  | EmptyString => true
  | String c s' => py_isspace c && all_space s'
  end.

(** Truthiness of a [str]: non-empty. *)
Definition truthy (s : string) : bool :=
  match s with EmptyString => false | String _ _ => true end.

Fixpoint string_mem (c : ascii) (s : string) : bool :=
  match s with
  | EmptyString => false
  | String d s' => if decide (c = d) then true else string_mem c s'
  end.

(** [x in s] for strings, as a proposition. *)
Definition contains (s x : string) : Prop :=
  ∃ pre post, s = pre +:+ x +:+ post.

(** [str.lower] on code points below 256: the letters A to Z and the
    Latin-1 capitals (192 to 222, the multiplication sign 215 apart) move up
    by 32; every other character stays. *)
Definition py_lower (c : ascii) : ascii :=
  let n := ord c in
  if ((65 <=? n) && (n <=? 90))
     || ((192 <=? n) && (n <=? 222) && negb (n =? 215))
  then chr (n + 32) else c.

Fixpoint lower (s : string) : string :=
  match s with
  | EmptyString => EmptyString
  | String c s' => String (py_lower c) (lower s')
  end.

(** [s.startswith(x)] *)
Fixpoint starts_with (x s : string) : bool :=
  match x, s with
  | EmptyString, _ => true
  | String _ _, EmptyString => false
  | String a x', String b s' => bool_decide (a = b) && starts_with x' s'
  end.

(** [x in s] for strings, as the program evaluates it. *)
Fixpoint str_in (x s : string) : bool :=
  starts_with x s
  || match s with
     | EmptyString => false
     | String _ s' => str_in x s'
     end.

(** Decimal digits and zero-padded fields, as [strftime] prints them. *)
Definition digit_char (n : Z) : ascii := chr (48 + n mod 10).

Definition is_digit (c : ascii) : bool :=
  let n := ord c in (48 <=? n) && (n <=? 57).

Definition digit_val (c : ascii) : Z := ord c - 48.

Definition pad2 (n : Z) : string :=
  String (digit_char (n / 10)) (String (digit_char n) EmptyString).

Definition pad4 (n : Z) : string :=
  String (digit_char (n / 1000)) (String (digit_char (n / 100))
    (String (digit_char (n / 10)) (String (digit_char n) EmptyString))).

(** [%Y] as the C library of Linux prints it: the year in decimal, without
    padding, so a year below 1000 has fewer than four digits. *)
Definition strftime_Y (y : Z) : string :=
  if y <? 10 then String (digit_char y) EmptyString
  else if y <? 100 then pad2 y
  else if y <? 1000 then String (digit_char (y / 100)) (pad2 y)
  else pad4 y.

(** [dt.strftime("%Y-%m-%d")] and [dt.strftime("%H:%M")]. *)
Definition strftime_Ymd (dt : datetime) : string :=
  strftime_Y (year dt) +:+ "-" +:+ pad2 (month dt) +:+ "-" +:+ pad2 (day dt).

Definition strftime_HM (dt : datetime) : string :=
  pad2 (hour dt) +:+ ":" +:+ pad2 (minute dt).

(** The two output shapes, as executable checks. *)
Definition is_YYYY_MM_DD (s : string) : bool :=
  match s with
  | String y1 (String y2 (String y3 (String y4 (String d1 (String m1
      (String m2 (String d2 (String a1 (String a2 EmptyString))))))))) =>
      is_digit y1 && is_digit y2 && is_digit y3 && is_digit y4
      && bool_decide (d1 = "-"%char) && is_digit m1 && is_digit m2
      && bool_decide (d2 = "-"%char) && is_digit a1 && is_digit a2
  | _ => false
  end.

Definition is_HH_MM (s : string) : bool :=
  match s with
  | String h1 (String h2 (String c (String m1 (String m2 EmptyString)))) =>
      is_digit h1 && is_digit h2 && bool_decide (c = ":"%char)
      && is_digit m1 && is_digit m2
      && (digit_val h1 * 10 + digit_val h2 <? 24)
      && (digit_val m1 * 10 + digit_val m2 <? 60)
  | _ => false
  end.

(** [os.path.join] for two POSIX components, the second one relative. *)
Fixpoint ends_with_slash (s : string) : bool :=
  match s with
  | EmptyString => false
  | String c EmptyString => bool_decide (c = "/"%char)
  | String _ s' => ends_with_slash s'
  end.

Definition os_path_join (a b : string) : string :=
  if truthy a then (if ends_with_slash a then a +:+ b else a +:+ "/" +:+ b)
  else b.

(** ** The [csv] writer (default dialect: comma, minimal quoting, CRLF) *)

Definition csv_special (c : ascii) : bool :=
  bool_decide (c = ","%char) || bool_decide (c = dquote)
  || bool_decide (c = CR) || bool_decide (c = LF).

Fixpoint csv_needs_quote (s : string) : bool :=
  match s with
  | EmptyString => false
  | String c s' => csv_special c || csv_needs_quote s'
  end.

Fixpoint csv_escape (s : string) : string :=
  match s with
  | EmptyString => EmptyString
  | String c s' =>
      if bool_decide (c = dquote) then String dquote (String dquote (csv_escape s'))
      else String c (csv_escape s')
  end.

Definition csv_field (s : string) : string :=
  if csv_needs_quote s
  then String dquote (csv_escape s +:+ String dquote EmptyString)
  else s.

Fixpoint csv_join (fields : list string) : string :=
  match fields with
  | [] => EmptyString
  | [f] => csv_field f
  | f :: rest => csv_field f +:+ "," +:+ csv_join rest
  end.

Definition CRLF : string := String CR (String LF EmptyString).

(** [csv.writer(f).writerow(fields)]: the text written to [f].  A row made
    of one empty field would be an empty line; the writer puts a pair of
    quotes there. *)
Definition csv_writerow (fields : list string) : string :=
  match fields with
  | [EmptyString] => String dquote (String dquote CRLF)
  | _ => csv_join fields +:+ CRLF
  end.

(** The text of a log to which [rows] were written in order. *)
Definition csv_text (rows : list (list string)) : string :=
  foldr (λ row rest, csv_writerow row +:+ rest) EmptyString rows.

(** ** The [csv] reader (same dialect), for reading the log back *)

Inductive ReaderState : Type :=
| StartRecord | StartField | InField | InQuotedField | QuoteInQuotedField
| EatCRNL.

(** The reader's state, the field being read and the fields read so far of
    the current record. *)
Record Reader : Type := mkReader {
  state : ReaderState;
  field : string;
  fields : list string
}.

Definition parse_reset : Reader := mkReader StartRecord EmptyString [].

Definition set_state (s : ReaderState) (rd : Reader) : Reader :=
  mkReader s (field rd) (fields rd).

(** [csv.field_size_limit()] *)
Definition field_limit : Z := 131072.

(** [parse_add_char]; a field that is already at the limit cannot grow. *)
Definition parse_add_char (c : ascii) (rd : Reader) : option Reader :=
  if bool_decide (Z.of_nat (String.length (field rd)) < field_limit)
  then Some (mkReader (state rd) (field rd +:+ String c EmptyString) (fields rd))
  else None.

Definition parse_save_field (rd : Reader) : Reader :=
  mkReader (state rd) EmptyString (fields rd ++ [field rd]).

Definition is_newline (c : ascii) : bool :=
  bool_decide (c = CR) || bool_decide (c = LF).

(** A character read at the start of a field. *)
Definition start_field (c : ascii) (rd : Reader) : option Reader :=
  if is_newline c then Some (set_state EatCRNL (parse_save_field rd))
  else if bool_decide (c = dquote) then Some (set_state InQuotedField rd)
  else if bool_decide (c = ","%char)
       then Some (set_state StartField (parse_save_field rd))
  else set_state InField <$> parse_add_char c rd.

(** [parse_process_char]; [None] is the reader's error. *)
Definition parse_process_char (c : ascii) (rd : Reader) : option Reader :=
  match state rd with
  | StartRecord =>
      if is_newline c then Some (set_state EatCRNL rd) else start_field c rd
  | StartField => start_field c rd
  | InField =>
      if is_newline c then Some (set_state EatCRNL (parse_save_field rd))
      else if bool_decide (c = ","%char)
           then Some (set_state StartField (parse_save_field rd))
      else parse_add_char c rd
  | InQuotedField =>
      if bool_decide (c = dquote) then Some (set_state QuoteInQuotedField rd)
      else parse_add_char c rd
  | QuoteInQuotedField =>
      if bool_decide (c = dquote)
      then set_state InQuotedField <$> parse_add_char c rd
      else if bool_decide (c = ","%char)
           then Some (set_state StartField (parse_save_field rd))
      else if is_newline c then Some (set_state EatCRNL (parse_save_field rd))
      else set_state InField <$> parse_add_char c rd
  | EatCRNL => if is_newline c then Some rd else None
  end.

(** The end of a line. *)
Definition parse_process_eol (rd : Reader) : Reader :=
  match state rd with
  | StartRecord | InQuotedField => rd
  | StartField | InField | QuoteInQuotedField =>
      set_state StartRecord (parse_save_field rd)
  | EatCRNL => set_state StartRecord rd
  end.

(** Lines of a file opened with [newline=''] end after a line feed, or
    after a carriage return that no line feed follows. *)
Definition line_ends (c : ascii) (rest : string) : bool :=
  bool_decide (c = LF)
  || (bool_decide (c = CR)
      && negb match rest with
              | String c' _ => bool_decide (c' = LF)
              | EmptyString => false
              end).

(** Reading the text [s]; [in_line] tells whether the current line has
    characters already, [rows] are the records read so far. *)
Fixpoint csv_reader_go (s : string) (in_line : bool) (rd : Reader)
    (rows : list (list string)) : option (list (list string)) :=
  match s with
  | EmptyString =>
      let rd := if in_line then parse_process_eol rd else rd in
      match state rd with
      | StartRecord => Some (if in_line then rows ++ [fields rd] else rows)
      | _ => Some (rows ++ [fields (parse_save_field rd)])
      end
  | String c rest =>
      match parse_process_char c rd with
      | None => None
      | Some rd =>
          if line_ends c rest then
            let rd := parse_process_eol rd in
            match state rd with
            | StartRecord =>
                csv_reader_go rest false parse_reset (rows ++ [fields rd])
            | _ => csv_reader_go rest false rd rows
            end
          else csv_reader_go rest true rd rows
      end
  end.

(** [list(csv.reader(f))] for a file holding [s]. *)
Definition csv_reader (s : string) : option (list (list string)) :=
  csv_reader_go s false parse_reset [].

(** A field within the reader's limit. *)
Definition short (f : string) : Prop :=
  Z.of_nat (String.length f) ≤ field_limit.

(** ** Program data *)

Record TaskConfig : Type := mkTaskConfig {
  csv_file : string;
  sample_rate : Z;
  channels : Z;
  record_duration : Z;
  max_retries : nat;
  temp_dir : string
}.

(** [TaskConfig()] with the defaults of the dataclass; [home] is
    [os.path.expanduser('~')]. *)
Definition default_config (home : string) : TaskConfig :=
  {| csv_file := "tasks.csv"; sample_rate := 16000; channels := 1;
     record_duration := 3; max_retries := 3%nat;
     temp_dir := os_path_join home "voice_scheduler_temp" |}.

Record Task : Type := mkTask {
  name : string;
  due_date : string;
  deadline_time : string
}.

(** ** The [schedule] package: job objects *)

(** The only callable the program hands to [schedule] is the closure
    [send_reminder] of [schedule_reminder]; it captures [task]. *)
Inductive JobFunc : Type :=
| send_reminder (task : Task).

(** What a job function gives back to the scheduler. *)
Inductive JobRet : Type := RetNone | CancelJob.

(** A [schedule.Job] made by [every().day.at(...)]: interval 1, unit days.
    Times are seconds; [at_time] counts from midnight. *)
Record Job : Type := mkJob {
  at_time : Z;
  next_run : Z;
  last_run : option Z;
  cancel_after : option Z;
  job_func : JobFunc
}.

(** ** The world *)

Inductive Event : Type :=
| EvLog (level msg : string)
| EvSpeechCreate (text : string)
| EvDecode (path : string)
| EvPlay (text : string)
| EvRecord
| EvWrite (path : string)
| EvAppend (path : string)
| EvRemove (path : string)
| EvTranscribe (path : string)
| EvSend (body from_ to_ : string).

(** [clock] is the local wall clock in seconds.  Job objects live in
    [job_store] and are referred to by their index; [jobs] is the list
    [schedule.default_scheduler.jobs] of such references. *)
Record World : Type := mkWorld {
  clock : Z;
  fs : gmap string string;
  job_store : list Job;
  jobs : list nat;
  trace : list Event
}.

Definition set_clock (t : Z) (w : World) : World :=
  mkWorld t (fs w) (job_store w) (jobs w) (trace w).
Definition set_fs (m : gmap string string) (w : World) : World :=
  mkWorld (clock w) m (job_store w) (jobs w) (trace w).
Definition set_job_store (s : list Job) (w : World) : World :=
  mkWorld (clock w) (fs w) s (jobs w) (trace w).
Definition set_jobs (l : list nat) (w : World) : World :=
  mkWorld (clock w) (fs w) (job_store w) l (trace w).
Definition set_trace (t : list Event) (w : World) : World :=
  mkWorld (clock w) (fs w) (job_store w) (jobs w) t.

(** The answers of the outside world.  The [nat] argument is the position
    in the trace of the call being answered. *)
Record Env : Type := mkEnv {
  os_getpid : Z;
  twilio_whatsapp_number : string;
  user_whatsapp_number : string;
  io_fault : nat → string → option Exn;
  speech_create : nat → string → Result string;
  from_mp3 : nat → string → Result string;
  sd_play : nat → string → option Exn;
  sd_rec : nat → Result string;
  transcriptions_create : nat → string → Result string;
  messages_create : nat → string → option Exn;
  dateparser_parse : Z → string → option datetime
}.

(** What a stretch of the trace shows. *)
Definition ev_written (ev : Event) : option string :=
  match ev with EvWrite path => Some path | _ => None end.
Definition ev_speech (ev : Event) : option string :=
  match ev with EvSpeechCreate text => Some text | _ => None end.
Definition ev_sent (ev : Event) : option string :=
  match ev with EvSend body _ _ => Some body | _ => None end.
Definition ev_record (ev : Event) : option unit :=
  match ev with EvRecord => Some tt | _ => None end.
Definition ev_transcribe (ev : Event) : option string :=
  match ev with EvTranscribe path => Some path | _ => None end.

(** Paths of the files created, texts handed to the speech service,
    message bodies handed to Twilio, and the number of recordings and of
    transcription requests. *)
Definition written (evs : list Event) : list string := omap ev_written evs.
Definition speech_requests (evs : list Event) : list string := omap ev_speech evs.
Definition sent (evs : list Event) : list string := omap ev_sent evs.
Definition recordings (evs : list Event) : nat := length (omap ev_record evs).
Definition transcriptions (evs : list Event) : nat := length (omap ev_transcribe evs).

(** ** The monad: state and exceptions *)

Definition M (A : Type) : Type := World → Result A * World.

Definition ret {A} (a : A) : M A := λ w, (Ok a, w).

Definition raise {A} (e : Exn) : M A := λ w, (Raise e, w).

Definition bind {A B} (m : M A) (k : A → M B) : M B :=
  λ w, match m w with
       | (Ok a, w') => k a w'
       | (Raise e, w') => (Raise e, w')
       end.

Notation "'do' x <- m ; k" := (bind m (λ x, k))
  (at level 10, x name, m at level 100, k at level 200).
Notation "'do' ' pat <- m ; k" := (bind m (λ x, match x with pat => k end))
  (at level 10, pat pattern, m at level 100, k at level 200).
Notation "'run' m ; k" := (bind m (λ _, k))
  (at level 10, m at level 100, k at level 200).

(** [try: body  except Exception as e: handler e]; an exception that is
    not an instance of [Exception] passes through. *)
Definition try_except {A} (body : M A) (handler : Exn → M A) : M A :=
  λ w, match body w with
       | (Ok a, w') => (Ok a, w')
       | (Raise e, w') =>
           if is_Exception e then handler e w' else (Raise e, w')
       end.

(** [try: body  except KeyboardInterrupt: interrupted
    except Exception as e: handler e] *)
Definition try_except_interrupt {A} (body : M A) (interrupted : M A)
    (handler : Exn → M A) : M A :=
  λ w, match body w with
       | (Ok a, w') => (Ok a, w')
       | (Raise e, w') =>
           if is_Exception e then handler e w' else interrupted w'
       end.

(** [try: body  finally: fin]; an exception of [fin] replaces the outcome
    of [body]. *)
Definition try_finally {A} (body : M A) (fin : M unit) : M A :=
  λ w, match body w with
       | (r, w') =>
           match fin w' with
           | (Ok _, w'') => (r, w'')
           | (Raise e, w'') => (Raise e, w'')
           end
       end.

(** The outcome of a computation as a value. *)
Definition attempt {A} (m : M A) : M (Result A) :=
  λ w, match m w with (r, w') => (Ok r, w') end.

Definition from_result {A} (r : Result A) : M A := λ w, (r, w).

Definition check (o : option Exn) : M unit :=
  match o with None => ret tt | Some e => raise e end.

Definition emit (ev : Event) : M nat :=
  λ w, (Ok (length (trace w)), set_trace (trace w ++ [ev]) w).

Definition get_clock : M Z := λ w, (Ok (clock w), w).

Definition logger (level msg : string) : M unit :=
  do _ <- emit (EvLog level msg); ret tt.

(** ** The program *)

Section Program.

Variable env : Env.
Variable config : TaskConfig.

(** *** Files *)

Definition os_path_exists (path : string) : M bool :=
  λ w, (Ok (bool_decide (is_Some (fs w !! path))), w).

(** Open for writing (truncating) and write [data]. *)
Definition write_file (path data : string) : M unit :=
  do k <- emit (EvWrite path);
  run check (io_fault env k path);
  λ w, (Ok tt, set_fs (<[path := data]> (fs w)) w).

(** Open in mode ['a'] (creating the file when absent) and write [data]. *)
Definition append_file (path data : string) : M unit :=
  do k <- emit (EvAppend path);
  run check (io_fault env k path);
  λ w, (Ok tt,
        set_fs (<[path := default EmptyString (fs w !! path) +:+ data]> (fs w)) w).

Definition read_file (path : string) : M string :=
  λ w, match fs w !! path with
       | Some data => (Ok data, w)
       | None => (Raise (FileNotFoundError path), w)
       end.

Definition os_remove (path : string) : M unit :=
  do k <- emit (EvRemove path);
  run check (io_fault env k path);
  λ w, match fs w !! path with
       | Some _ => (Ok tt, set_fs (delete path (fs w)) w)
       | None => (Raise (FileNotFoundError path), w)
       end.

(** *** AudioManager *)

Definition _get_temp_path (suffix : string) : M string :=
  do now <- get_clock;
  ret (os_path_join (temp_dir config)
         ("temp_" +:+ pretty now +:+ "_" +:+ pretty (os_getpid env) +:+ suffix)).

(** The [finally] block of [text_to_speech]. *)
Fixpoint remove_temp_files (files : list string) : M unit :=
  match files with
  | [] => ret tt
  | temp_file :: rest =>
      run try_except
            (do ex <- os_path_exists temp_file;
             if ex then os_remove temp_file else ret tt)
            (λ e, logger "WARNING"
                    ("Failed to remove temporary file " +:+ temp_file +:+ ": "
                     +:+ exn_msg e));
      remove_temp_files rest
  end.

(** The [try ... except] part of [text_to_speech]. *)
Definition text_to_speech_try (text temp_mp3 temp_wav : string) : M unit :=
  try_except
    (do k <- emit (EvSpeechCreate text);
     do response <- from_result (speech_create env k text);
     run write_file temp_mp3 response;
     do k <- emit (EvDecode temp_mp3);
     do mp3 <- read_file temp_mp3;
     do audio <- from_result (from_mp3 env k mp3);
     run write_file temp_wav audio;
     do wav_data <- read_file temp_wav;
     do k <- emit (EvPlay text);
     check (sd_play env k wav_data))
    (λ e, run logger "ERROR" ("Error in text_to_speech: " +:+ exn_msg e);
          raise e).

Definition text_to_speech (text : string) : M unit :=
  do temp_mp3 <- _get_temp_path ".mp3";
  do temp_wav <- _get_temp_path ".wav";
  try_finally
    (text_to_speech_try text temp_mp3 temp_wav)
    (remove_temp_files [temp_mp3; temp_wav]).

Definition record_audio : M string :=
  try_except
    (run logger "INFO"
           ("Recording for " +:+ pretty (record_duration config) +:+ " seconds...");
     do k <- emit EvRecord;
     do audio <- from_result (sd_rec env k);
     run (λ w, (Ok tt, set_clock (clock w + record_duration config) w));
     ret audio)
    (λ e, run logger "ERROR" ("Error recording audio: " +:+ exn_msg e);
          raise e).

Definition save_audio (audio : string) : M string :=
  do temp_path <- _get_temp_path ".wav";
  try_except
    (run write_file temp_path audio; ret temp_path)
    (λ e, run logger "ERROR" ("Error saving audio: " +:+ exn_msg e);
          raise e).

(** *** TaskManager *)

Definition csv_header : list string := ["Task Name"; "Due Date"; "Deadline Time"].

Definition _initialize_csv : M unit :=
  do ex <- os_path_exists (csv_file config);
  if negb ex then write_file (csv_file config) (csv_writerow csv_header)
  else ret tt.

Definition speech_to_text (audio_path : string) : M string :=
  try_except
    (do audio_file <- read_file audio_path;
     do k <- emit (EvTranscribe audio_path);
     do transcript <- from_result (transcriptions_create env k audio_file);
     ret (strip transcript))
    (λ e, run logger "ERROR" ("Error in speech_to_text: " +:+ exn_msg e);
          raise e).

Definition apology : string := "Sorry, I didn't catch that. Please try again.".

(** The [finally] block of one iteration of [get_voice_input];
    [audio_path] is the local variable, [None] until [save_audio] returned. *)
Definition cleanup_audio (audio_path : option string) : M unit :=
  match audio_path with
  | None => ret tt
  | Some path =>
      if truthy path then
        do ex <- os_path_exists path;
        if ex then
          try_except (os_remove path)
            (λ e, logger "WARNING"
                    ("Failed to remove temporary file " +:+ path +:+ ": "
                     +:+ exn_msg e))
        else ret tt
      else ret tt
  end.

(** The [except] clause of the loop body; [n] is the loop variable
    [attempt]. *)
Definition voice_input_except (n : nat) (e : Exn) : M (option string) :=
  run logger "ERROR"
        ("Error in voice input attempt " +:+ pretty (n + 1)%nat +:+ ": "
         +:+ exn_msg e);
  ret None.

(** The [try ... except] of the loop body from the call of
    [speech_to_text] on, [audio_path] being set: [Some text] is
    [return text], [None] falls through to the next iteration. *)
Definition voice_input_try (n : nat) (audio_path : string) : M (option string) :=
  try_except
    (do text <- speech_to_text audio_path;
     if truthy text then ret (Some text)
     else run text_to_speech apology; ret None)
    (voice_input_except n).

(** One iteration of the [for] loop of [get_voice_input].  The local
    variable [audio_path] is [None] when [record_audio] or [save_audio]
    raised, and the saved path otherwise. *)
Definition voice_input_attempt (n : nat) : M (option string) :=
  do saved <- attempt (do audio <- record_audio; save_audio audio);
  match saved with
  | Raise e =>
      try_finally (try_except (raise e) (voice_input_except n))
        (cleanup_audio None)
  | Ok audio_path =>
      try_finally (voice_input_try n audio_path)
        (cleanup_audio (Some audio_path))
  end.

(** The [for attempt in range(max_retries)] loop, over the attempts left. *)
Fixpoint voice_input_loop (attempts : list nat) : M string :=
  match attempts with
  | [] => raise (ValueError "Maximum retries reached")
  | n :: rest =>
      do r <- voice_input_attempt n;
      match r with
      | Some text => ret text
      | None => voice_input_loop rest
      end
  end.

(** [if prompt: self.audio_manager.text_to_speech(prompt)] *)
Definition speak_prompt (prompt : option string) : M unit :=
  match prompt with
  | Some p => if truthy p then text_to_speech p else ret tt
  | None => ret tt
  end.

Definition get_voice_input (prompt : option string) : M string :=
  run speak_prompt prompt;
  voice_input_loop (seq 0 (max_retries config)).

Definition parse_datetime (text : string) : M (string * string) :=
  do now <- get_clock;
  match dateparser_parse env now text with
  | None => raise (ValueError "Could not parse datetime")
  | Some dt =>
      let dt := if time_is_min dt then replace_hour_minute 12 0 dt else dt in
      ret (strftime_Ymd dt, strftime_HM dt)
  end.

Definition name_prompt : string := "Please say the task name:".
Definition due_prompt : string :=
  "When is this due? For example, you can say 'tomorrow at 3pm'".

(** The [try] block of [create_task]. *)
Definition create_task_try : M (option Task) :=
  do task_name <- get_voice_input (Some name_prompt);
  do date_str <- get_voice_input (Some due_prompt);
  do ' (due_date, deadline_time) <- parse_datetime date_str;
  ret (Some (mkTask task_name due_date deadline_time)).

(** The [except Exception as e] clause of [create_task]. *)
Definition create_task_except (e : Exn) : M (option Task) :=
  run logger "ERROR" ("Error creating task: " +:+ exn_msg e);
  run text_to_speech ("Error creating task: " +:+ exn_msg e);
  ret None.

Definition create_task : M (option Task) :=
  try_except create_task_try create_task_except.

Definition save_task (task : Task) : M unit :=
  try_except
    (append_file (csv_file config)
       (csv_writerow [name task; due_date task; deadline_time task]))
    (λ e, run logger "ERROR" ("Error saving task: " +:+ exn_msg e);
          raise e).

Definition send_whatsapp_message (message : string) : M unit :=
  try_except
    (do k <- emit (EvSend message
                     ("whatsapp:" +:+ twilio_whatsapp_number env)
                     ("whatsapp:" +:+ user_whatsapp_number env));
     run check (messages_create env k message);
     logger "INFO" "WhatsApp message sent successfully")
    (λ e, run logger "ERROR" ("Error sending WhatsApp message: " +:+ exn_msg e);
          raise e).

Definition reminder_message (task : Task) : string :=
  "Reminder: Task '" +:+ name task +:+ "' is due on " +:+ due_date task
  +:+ " at " +:+ deadline_time task.

(** Calling a job function. *)
Definition call_job_func (f : JobFunc) : M JobRet :=
  match f with
  | send_reminder task =>
      run send_whatsapp_message (reminder_message task);
      ret RetNone
  end.

(** *** The [schedule] package, as far as the program uses it *)

Definition DAY : Z := 86400.

Definition two_digits (a b : ascii) : option Z :=
  if is_digit a && is_digit b then Some (digit_val a * 10 + digit_val b)
  else None.

(** The end of a string as [$] matches it: the end itself, or a line feed
    that ends the string. *)
Definition at_end (s : string) : bool :=
  match s with
  | EmptyString => true
  | String c EmptyString => bool_decide (c = LF)
  | _ => false
  end.

(** The hour, minute and second of a string that matches the pattern of
    [Job.at] for a daily job, [^[0-2]\d:[0-5]\d(:[0-5]\d)?$], as
    [split(":")] and [int] read them. *)
Definition at_time_fields (time_str : string) : option (Z * Z * Z) :=
  match time_str with
  | String h1 (String h2 (String c1 (String m1 (String m2 rest)))) =>
      if bool_decide (c1 = ":"%char) then
        h ← two_digits h1 h2;
        m ← two_digits m1 m2;
        sec ← (if at_end rest then Some 0
               else match rest with
                    | String c2 (String s1 (String s2 rest')) =>
                        if bool_decide (c2 = ":"%char) && at_end rest'
                        then two_digits s1 s2 else None
                    | _ => None
                    end);
        if (h <=? 29) && (m <=? 59) && (sec <=? 59)
        then Some (h, m, sec) else None
      else None
  | _ => None
  end.

(** [Job.at(time_str)] of a daily job accepts [HH:MM] and [HH:MM:SS] with
    an hour up to 23; the result is the time of day in seconds. *)
Definition parse_at_time (time_str : string) : option Z :=
  '(h, m, sec) ← at_time_fields time_str;
  if h <=? 23 then Some (h * 3600 + m * 60 + sec) else None.

(** The message of the [ScheduleValueError] for a string that [Job.at]
    refuses: the pattern first, the range of the hour second. *)
Definition at_time_error (time_str : string) : string :=
  match at_time_fields time_str with
  | None => "Invalid time format for a daily job (valid format is HH:MM(:SS)?)"
  | Some _ => "Invalid number of hours ({} is not between 0 and 23)"
  end.

Definition time_of_day (t : Z) : Z := t mod DAY.

(** [t.replace(hour=, minute=, second=, microsecond=0)]: same date. *)
Definition replace_time (t tm : Z) : Z := t - t mod DAY + tm.

Definition set_next_run (t : Z) (job : Job) : Job :=
  mkJob (at_time job) t (last_run job) (cancel_after job) (job_func job).
Definition set_last_run (t : Z) (job : Job) : Job :=
  mkJob (at_time job) (next_run job) (Some t) (cancel_after job) (job_func job).

(** [Job._schedule_next_run] for interval 1, unit days, with [at_time]. *)
Definition _schedule_next_run (now : Z) (job : Job) : Job :=
  let period := DAY in
  let next := replace_time (now + period) (at_time job) in
  let first_or_late :=
    match last_run job with
    | None => true
    | Some l => bool_decide (period < next - l)
    end in
  if first_or_late && bool_decide (time_of_day now < at_time job)
  then set_next_run (next - DAY) job
  else set_next_run next job.

Definition _is_overdue (job : Job) (when : Z) : bool :=
  match cancel_after job with
  | Some deadline => bool_decide (deadline < when)
  | None => false
  end.

Definition should_run (now : Z) (job : Job) : bool :=
  bool_decide (next_run job ≤ now).

Definition ref_should_run (store : list Job) (now : Z) (ref : nat) : bool :=
  from_option (should_run now) false (store !! ref).

Definition ref_next_run (store : list Job) (ref : nat) : Z :=
  from_option next_run 0 (store !! ref).

(** [sorted(...)] on jobs compares [next_run] and is stable. *)
Fixpoint insert_job (store : list Job) (ref : nat) (l : list nat) : list nat :=
  match l with
  | [] => [ref]
  | r :: l' =>
      if bool_decide (ref_next_run store r < ref_next_run store ref)
      then r :: insert_job store ref l'
      else ref :: r :: l'
  end.

Definition sorted_jobs (store : list Job) (refs : list nat) : list nat :=
  foldr (insert_job store) [] refs.

Fixpoint remove_first (ref : nat) (l : list nat) : list nat :=
  match l with
  | [] => []
  | r :: l' => if bool_decide (r = ref) then l' else r :: remove_first ref l'
  end.

(** [Scheduler.cancel_job]: [self.jobs.remove(job)], ignoring an absent job. *)
Definition cancel_job (ref : nat) : M unit :=
  λ w, (Ok tt, set_jobs (remove_first ref (jobs w)) w).

Definition get_job (ref : nat) : M Job :=
  λ w, match job_store w !! ref with
       | Some job => (Ok job, w)
       | None => (Raise (mkExn "ReferenceError" "no such job object"), w)
       end.

Definition put_job (ref : nat) (job : Job) : M unit :=
  λ w, (Ok tt, set_job_store (<[ref := job]> (job_store w)) w).

(** [Job.run] *)
Definition job_run (ref : nat) : M JobRet :=
  do job <- get_job ref;
  do now <- get_clock;
  if _is_overdue job now then ret CancelJob
  else
    do r <- call_job_func (job_func job);
    do job <- get_job ref;
    do now <- get_clock;
    let job := _schedule_next_run now (set_last_run now job) in
    run put_job ref job;
    if _is_overdue job (next_run job) then ret CancelJob else ret r.

(** [Scheduler._run_job] *)
Definition _run_job (ref : nat) : M unit :=
  do r <- job_run ref;
  match r with
  | CancelJob => cancel_job ref
  | RetNone => ret tt
  end.

Fixpoint run_jobs (refs : list nat) : M unit :=
  match refs with
  | [] => ret tt
  | ref :: rest => run _run_job ref; run_jobs rest
  end.

Definition runnable_jobs (w : World) : list nat :=
  sorted_jobs (job_store w)
    (filter (λ ref, Is_true (ref_should_run (job_store w) (clock w) ref)) (jobs w)).

(** [schedule.run_pending()] *)
Definition run_pending : M unit :=
  λ w, run_jobs (runnable_jobs w) w.

(** [schedule.every().day.at(time_str).do(job_func)] *)
Definition every_day_at_do (time_str : string) (f : JobFunc) : M unit :=
  match parse_at_time time_str with
  | None => raise (ScheduleValueError (at_time_error time_str))
  | Some tm =>
      do now <- get_clock;
      let job := _schedule_next_run now (mkJob tm 0 None None f) in
      λ w, (Ok tt,
            set_jobs (jobs w ++ [length (job_store w)])
              (set_job_store (job_store w ++ [job]) w))
  end.

(** *** TaskManager, continued *)

Definition schedule_reminder (task : Task) : M unit :=
  run every_day_at_do (deadline_time task) (send_reminder task);
  logger "INFO"
    ("Reminder scheduled for task '" +:+ name task +:+ "' at "
     +:+ deadline_time task).

Definition send_confirmation (task : Task) : M unit :=
  send_whatsapp_message
    ("Task Created: '" +:+ name task +:+ "' has been scheduled. It is due on "
     +:+ due_date task +:+ " at " +:+ deadline_time task).

(** *** The polling loop of [main] *)

Definition time_sleep (elapsed : Z) : M unit :=
  λ w, (Ok tt, set_clock (clock w + elapsed) w).

(** [while True: schedule.run_pending(); time.sleep(1)], for as many
    iterations as [sleeps] has entries; each entry is the time the
    iteration took on the wall clock. *)
Fixpoint poll_loop (sleeps : list Z) : M unit :=
  match sleeps with
  | [] => ret tt
  | elapsed :: rest =>
      run run_pending; run time_sleep elapsed; poll_loop rest
  end.

(** *** The command loop of [main] *)

Definition welcome : string :=
  "Welcome to your voice-activated task scheduler. Say 'schedule a task' to begin, or 'exit' to quit.".

Definition command_prompt : string := "What would you like to do?".

(** The [if ... elif ... else] on the command heard; [true] is [break]. *)
Definition handle_command (command : string) : M bool :=
  if str_in "schedule" (lower command) || str_in "task" (lower command) then
    do task <- create_task;
    match task with
    | Some task =>
        run save_task task;
        run schedule_reminder task;
        run send_confirmation task;
        run text_to_speech ("Task '" +:+ name task +:+ "' scheduled successfully!");
        ret false
    | None => ret false
    end
  else if str_in "exit" (lower command) then
    run text_to_speech "Exiting the task scheduler. Goodbye!";
    ret true
  else
    run text_to_speech "I didn't understand that command. Please try again.";
    ret false.

(** The clause [except KeyboardInterrupt] of the loop body. *)
Definition main_interrupted : M bool :=
  run text_to_speech "Interrupted by user. Exiting the task scheduler.";
  ret true.

(** The clause [except Exception as e] of the loop body. *)
Definition main_except (e : Exn) : M bool :=
  run logger "ERROR" ("Error in main loop: " +:+ exn_msg e);
  run text_to_speech ("An error occurred: " +:+ exn_msg e +:+ ". Please try again.");
  ret false.

(** The [try] block of the loop body. *)
Definition main_try : M bool :=
  do command <- get_voice_input (Some command_prompt);
  handle_command command.

(** One iteration of the first [while True] of [main]. *)
Definition main_iteration : M bool :=
  try_except_interrupt main_try main_interrupted main_except.

(** The first [while True] of [main], for at most [fuel] iterations: [true]
    when the loop was left by [break], [false] when the iterations ran
    out. *)
Fixpoint command_loop (fuel : nat) : M bool :=
  match fuel with
  | O => ret false
  | S fuel' =>
      do stop <- main_iteration;
      if stop then ret true else command_loop fuel'
  end.

End Program.

(** ** Conditions on the outside world *)

(** No file operation fails. *)
Definition no_io_fault (env : Env) : Prop := ∀ k path, io_fault env k path = None.

(** No collaborator raises the keyboard interrupt: what they raise are
    instances of [Exception]. *)
Definition no_interrupt (env : Env) : Prop :=
  (∀ k path e, io_fault env k path = Some e → is_Exception e = true) ∧
  (∀ k text e, speech_create env k text = Raise e → is_Exception e = true) ∧
  (∀ k data e, from_mp3 env k data = Raise e → is_Exception e = true) ∧
  (∀ k data e, sd_play env k data = Some e → is_Exception e = true) ∧
  (∀ k e, sd_rec env k = Raise e → is_Exception e = true) ∧
  (∀ k audio e, transcriptions_create env k audio = Raise e → is_Exception e = true) ∧
  (∀ k body e, messages_create env k body = Some e → is_Exception e = true).

(** Transcription raises on every call. *)
Definition transcription_always_raises (env : Env) : Prop :=
  ∀ k audio, ∃ e, transcriptions_create env k audio = Raise e.

(** Every transcript is made of white space only. *)
Definition transcripts_all_space (env : Env) : Prop :=
  ∀ k audio, ∃ raw,
    transcriptions_create env k audio = Ok raw ∧ all_space raw = true.

(** The microphone and the sound file library work. *)
Definition recording_works (env : Env) : Prop :=
  ∀ k, ∃ audio, sd_rec env k = Ok audio.

(** Every datetime that the resolver returns is a [datetime] object. *)
Definition resolver_valid (env : Env) : Prop :=
  ∀ now text dt, dateparser_parse env now text = Some dt → valid_datetime dt.

(** The prompt, when there is one, gets spoken. *)
Definition prompt_spoken (env : Env) (config : TaskConfig)
    (prompt : option string) (w : World) : Prop :=
  ∃ w0, speak_prompt env config prompt w = (Ok tt, w0).

(** The outcome [r] of the part of an iteration that follows [save_audio]
    and the speech requests among its events [evs], read off the answer of
    the transcription service. *)
Definition try_outcome (answer : Result string) (r : option string)
    (evs : list Event) : Prop :=
  match answer with
  | Raise _ => r = None ∧ speech_requests evs = []
  | Ok raw =>
      if truthy (strip raw) then r = Some (strip raw) ∧ speech_requests evs = []
      else r = None ∧ speech_requests evs = [apology]
  end.

(** The outcome of one iteration started when the trace has [k] entries,
    read off the answers of the microphone and of the transcription
    service. *)
Definition attempt_outcome (env : Env) (k : nat) (r : option string)
    (evs : list Event) : Prop :=
  match sd_rec env (S k) with
  | Raise _ => r = None ∧ speech_requests evs = [] ∧ transcriptions evs = 0%nat
  | Ok audio =>
      transcriptions evs = 1%nat ∧
      try_outcome (transcriptions_create env (k + 3) audio) r evs
  end.

(** [raise ValueError("Maximum retries reached")] *)
Definition exhausted : Result string :=
  Raise (ValueError "Maximum retries reached").

(** The first time strictly after [now] whose time of day is [tm]. *)
Definition next_occurrence (tm now : Z) : Z :=
  if bool_decide (time_of_day now < tm) then now - time_of_day now + tm
  else now - time_of_day now + DAY + tm.

(** The job object [ref] occurs exactly once in the list. *)
Definition once (ref : nat) (l : list nat) : Prop :=
  ∃ l1 l2, l = l1 ++ (ref :: l2) ∧ (ref ∉ l1) ∧ (ref ∉ l2).

(** [job] is the daily job that [schedule_reminder task] makes. *)
Definition reminder_job (tm : Z) (task : Task) (job : Job) : Prop :=
  at_time job = tm ∧ job_func job = send_reminder task ∧ cancel_after job = None.

(** Every reference held by the scheduler points to a job object. *)
Definition wf_jobs (w : World) : Prop :=
  ∀ ref : nat, ref ∈ jobs w → (ref < length (job_store w))%nat.

(** The reminder job [ref] of [task] is in the scheduler's list, once. *)
Definition registered (ref : nat) (tm : Z) (task : Task) (v : World) : Prop :=
  once ref (jobs v) ∧
  ∃ job, job_store v !! ref = Some job ∧ reminder_job tm task job.

(** Its next run is the first occurrence of [tm] after some time that is
    not in the future. *)
Definition scheduled (ref : nat) (tm : Z) (v : World) : Prop :=
  ∃ job b, job_store v !! ref = Some job ∧
           next_run job = next_occurrence tm b ∧ b ≤ clock v.

(** The clock readings at which the passes of [poll_loop sleeps] run, the
    first one at [start]. *)
Fixpoint poll_times (start : Z) (sleeps : list Z) : list Z :=
  match sleeps with
  | [] => []
  | elapsed :: rest => start :: poll_times (start + elapsed) rest
  end.

(** A world whose scheduler holds the reminder job [ref], due at [nr], and
    nothing else. *)
Definition only_job (ref : nat) (tm : Z) (task : Task) (nr : Z) (v : World) : Prop :=
  jobs v = [ref] ∧
  ∃ job, job_store v !! ref = Some job ∧ reminder_job tm task job ∧ next_run job = nr.

(** [evs] happened between [w] and [w']; no file was added or changed, and
    every file written in between is gone again. *)
Definition tidy (w w' : World) (evs : list Event) : Prop :=
  trace w' = trace w ++ evs ∧ fs w' ⊆ fs w ∧
  ∀ path, path ∈ written evs → fs w' !! path = None.

(** The path that [_get_temp_path suffix] returns when the clock reads
    [now]. *)
Definition temp_path (env : Env) (config : TaskConfig) (now : Z)
    (suffix : string) : string :=
  os_path_join (temp_dir config)
    ("temp_" +:+ pretty now +:+ "_" +:+ pretty (os_getpid env) +:+ suffix).

Definition is_temp_path (env : Env) (config : TaskConfig) (p : string) : Prop :=
  ∃ now suffix, p = temp_path env config now suffix.

(** The body of the message of [send_confirmation]. *)
Definition confirmation_message (task : Task) : string :=
  "Task Created: '" +:+ name task +:+ "' has been scheduled. It is due on "
  +:+ due_date task +:+ " at " +:+ deadline_time task.

(** Every exception that [m] raises satisfies [P]. *)
Definition raises (P : Exn → Prop) {A} (m : M A) : Prop :=
  ∀ w e w', m w = (Raise e, w') → P e.

(** An exception that is the keyboard interrupt. *)
Definition interrupt (e : Exn) : Prop := is_Exception e = false.

(** [w'] comes from [w] by events that satisfy [P] and by changes to files
    that satisfy [T]; the scheduler is as it was. *)
Definition footprint (P : Event → Prop) (T : string → Prop) (w w' : World) : Prop :=
  jobs w' = jobs w ∧ job_store w' = job_store w ∧
  (∀ p, ¬ T p → fs w' !! p = fs w !! p) ∧
  ∃ evs, trace w' = trace w ++ evs ∧ Forall P evs.

(** Every run of [m] relates the worlds before and after by [R], and a
    value it returns satisfies [Q]. *)
Definition within (R : relation World) {A} (Q : A → Prop) (m : M A) : Prop :=
  ∀ w r w', m w = (r, w') → R w w' ∧ ∀ a, r = Ok a → Q a.

Definition anything {A} : A → Prop := λ _, True.

(** What the voice front end does: it talks to the speech service and the
    sound device, writes and removes temporary files, and logs. *)
Definition voice_event (env : Env) (config : TaskConfig) (ev : Event) : Prop :=
  match ev with
  | EvSend _ _ _ | EvAppend _ => False
  | EvWrite p | EvRemove p => is_temp_path env config p
  | _ => True
  end.

(** [m] stays within what the voice front end does. *)
Definition confined (env : Env) (config : TaskConfig) {A} (Q : A → Prop)
    (m : M A) : Prop :=
  within (footprint (voice_event env config) (is_temp_path env config)) Q m.

(** What the command loop does on top of that: it appends to the log and
    sends confirmations. *)
Definition session_event (env : Env) (config : TaskConfig) (ev : Event) : Prop :=
  match ev with
  | EvSend body _ _ => ∃ task, body = confirmation_message task
  | EvAppend p => p = csv_file config
  | EvWrite p | EvRemove p => is_temp_path env config p
  | _ => True
  end.

(** The worlds before and after a stretch of the command loop: jobs that
    never ran are registered after the existing ones, which stay as they
    are; the log, when it is not a temporary file, only grows; no other
    file than the log and the temporary ones changes. *)
Definition session (env : Env) (config : TaskConfig) (w w' : World) : Prop :=
  (∃ new, job_store w' = job_store w ++ new ∧
          jobs w' = jobs w ++ seq (length (job_store w)) (length new) ∧
          Forall (λ job, last_run job = None) new) ∧
  (∀ p, ¬ is_temp_path env config p → p ≠ csv_file config →
        fs w' !! p = fs w !! p) ∧
  (¬ is_temp_path env config (csv_file config) →
   ∃ added, default EmptyString (fs w' !! csv_file config)
            = default EmptyString (fs w !! csv_file config) +:+ added) ∧
  ∃ evs, trace w' = trace w ++ evs ∧ Forall (session_event env config) evs.

(** ** Sample worlds and environments *)

Definition sample_error (what : string) : Exn := mkExn "RuntimeError" what.

(** A resolver that knows a few phrases; [now] is ignored. *)
Definition sample_resolver (now : Z) (text : string) : option datetime :=
  if bool_decide (text = "March 5 2025") then Some (mkDatetime 2025 3 5 0 0 0 0)
  else if bool_decide (text = "tomorrow at 3pm") then Some (mkDatetime 2025 3 5 15 0 0 0)
  else if bool_decide (text = "tomorrow at midnight") then Some (mkDatetime 2025 3 5 0 0 0 0)
  else if bool_decide (text = "half a minute past midnight") then Some (mkDatetime 2025 3 5 0 0 30 0)
  else None.

(** Every collaborator answers; the microphone hears [heard]. *)
Definition env_nominal (heard : string) : Env :=
  {| os_getpid := 4242;
     twilio_whatsapp_number := "+14155238886";
     user_whatsapp_number := "+15550100";
     io_fault := λ _ _, None;
     speech_create := λ _ text, Ok ("mp3:" +:+ text);
     from_mp3 := λ _ data, Ok ("wav:" +:+ data);
     sd_play := λ _ _, None;
     sd_rec := λ _, Ok "pcm";
     transcriptions_create := λ _ _, Ok heard;
     messages_create := λ _ _, None;
     dateparser_parse := sample_resolver |}.

(** Transcription is down, everything else works. *)
Definition env_stt_down : Env :=
  {| os_getpid := 4242;
     twilio_whatsapp_number := "+14155238886";
     user_whatsapp_number := "+15550100";
     io_fault := λ _ _, None;
     speech_create := λ _ text, Ok ("mp3:" +:+ text);
     from_mp3 := λ _ data, Ok ("wav:" +:+ data);
     sd_play := λ _ _, None;
     sd_rec := λ _, Ok "pcm";
     transcriptions_create := λ _ _, Raise (sample_error "transcription failed");
     messages_create := λ _ _, None;
     dateparser_parse := sample_resolver |}.

(** The speech service is down altogether: neither synthesis nor
    transcription answers. *)
Definition env_speech_down : Env :=
  {| os_getpid := 4242;
     twilio_whatsapp_number := "+14155238886";
     user_whatsapp_number := "+15550100";
     io_fault := λ _ _, None;
     speech_create := λ _ _, Raise (sample_error "speech service unavailable");
     from_mp3 := λ _ data, Ok ("wav:" +:+ data);
     sd_play := λ _ _, None;
     sd_rec := λ _, Ok "pcm";
     transcriptions_create := λ _ _, Raise (sample_error "speech service unavailable");
     messages_create := λ _ _, None;
     dateparser_parse := sample_resolver |}.

(** The user says the task name, then the due date: the transcription
    requested before position 15 of the trace is the first answer, a later
    one the second. *)
Definition env_dialogue (first second : string) : Env :=
  {| os_getpid := 4242;
     twilio_whatsapp_number := "+14155238886";
     user_whatsapp_number := "+15550100";
     io_fault := λ _ _, None;
     speech_create := λ _ text, Ok ("mp3:" +:+ text);
     from_mp3 := λ _ data, Ok ("wav:" +:+ data);
     sd_play := λ _ _, None;
     sd_rec := λ _, Ok "pcm";
     transcriptions_create := λ k _, Ok (if (k <? 15)%nat then first else second);
     messages_create := λ _ _, None;
     dateparser_parse := sample_resolver |}.

(** The dialogue goes well, but Twilio refuses every message. *)
Definition env_twilio_down (first second : string) : Env :=
  {| os_getpid := 4242;
     twilio_whatsapp_number := "+14155238886";
     user_whatsapp_number := "+15550100";
     io_fault := λ _ _, None;
     speech_create := λ _ text, Ok ("mp3:" +:+ text);
     from_mp3 := λ _ data, Ok ("wav:" +:+ data);
     sd_play := λ _ _, None;
     sd_rec := λ _, Ok "pcm";
     transcriptions_create := λ k _, Ok (if (k <? 15)%nat then first else second);
     messages_create := λ _ _, Some (sample_error "twilio unavailable");
     dateparser_parse := sample_resolver |}.


(** Everything works except the synthesis of the goodbye message. *)
Definition env_goodbye_fails (heard : string) : Env :=
  {| os_getpid := 4242;
     twilio_whatsapp_number := "+14155238886";
     user_whatsapp_number := "+15550100";
     io_fault := λ _ _, None;
     speech_create := λ _ text,
       if bool_decide (text = "Exiting the task scheduler. Goodbye!")
       then Raise (sample_error "speech service unavailable")
       else Ok ("mp3:" +:+ text);
     from_mp3 := λ _ data, Ok ("wav:" +:+ data);
     sd_play := λ _ _, None;
     sd_rec := λ _, Ok "pcm";
     transcriptions_create := λ _ _, Ok heard;
     messages_create := λ _ _, None;
     dateparser_parse := sample_resolver |}.

(** What the user says, by the position of the transcription request in
    the trace: the text of the first entry whose bound lies beyond the
    position, [last] after all of them. *)
Fixpoint script (answers : list (nat * string)) (last : string) (k : nat) : string :=
  match answers with
  | [] => last
  | (bound, text) :: rest => if (k <? bound)%nat then text else script rest last k
  end.

Definition env_script (answers : list (nat * string)) (last : string) : Env :=
  {| os_getpid := 4242;
     twilio_whatsapp_number := "+14155238886";
     user_whatsapp_number := "+15550100";
     io_fault := λ _ _, None;
     speech_create := λ _ text, Ok ("mp3:" +:+ text);
     from_mp3 := λ _ data, Ok ("wav:" +:+ data);
     sd_play := λ _ _, None;
     sd_rec := λ _, Ok "pcm";
     transcriptions_create := λ k _, Ok (script answers last k);
     messages_create := λ _ _, None;
     dateparser_parse := sample_resolver |}.

(** A whole session: a command, a task name, a due date, and then "exit". *)
Definition env_session : Env :=
  env_script [(15, "Schedule a task"); (27, "pay rent"); (39, "tomorrow at 3pm")]%nat
    "exit".


(** The user presses Ctrl+C while the microphone records. *)
Definition env_interrupted : Env :=
  {| os_getpid := 4242;
     twilio_whatsapp_number := "+14155238886";
     user_whatsapp_number := "+15550100";
     io_fault := λ _ _, None;
     speech_create := λ _ text, Ok ("mp3:" +:+ text);
     from_mp3 := λ _ data, Ok ("wav:" +:+ data);
     sd_play := λ _ _, None;
     sd_rec := λ _, Raise KeyboardInterrupt;
     transcriptions_create := λ _ _, Ok "pay rent";
     messages_create := λ _ _, None;
     dateparser_parse := sample_resolver |}.

Definition sample_config : TaskConfig := default_config "/home/user".

(** A fresh process: no files, no jobs, nothing done yet. *)
Definition fresh_world (now : Z) : World := mkWorld now ∅ [] [] [].

Definition sample_task : Task := mkTask "pay rent" "2025-03-05" "09:00".

(** ** Facts about strings and formatted fields *)

Lemma digit_char_cases (n : Z) :
  ∃ d, 0 ≤ d < 10 ∧ n mod 10 = d ∧ digit_char n = chr (48 + d).
Proof.
  exists (n mod 10). split; [apply Z.mod_pos_bound; lia | done].
Qed.

Lemma chr_digit_facts (d : Z) :
  0 ≤ d < 10 → is_digit (chr (48 + d)) = true ∧ digit_val (chr (48 + d)) = d.
Proof.
  intros Hd.
  assert (d = 0 ∨ d = 1 ∨ d = 2 ∨ d = 3 ∨ d = 4 ∨ d = 5 ∨ d = 6 ∨ d = 7
          ∨ d = 8 ∨ d = 9) as Hc by lia.
  repeat destruct Hc as [-> | Hc]; try subst d; by vm_compute.
Qed.

Lemma is_digit_digit_char (n : Z) : is_digit (digit_char n) = true.
Proof.
  destruct (digit_char_cases n) as (d & Hd & _ & ->).
  by apply chr_digit_facts.
Qed.

Lemma digit_val_digit_char (n : Z) : digit_val (digit_char n) = n mod 10.
Proof.
  destruct (digit_char_cases n) as (d & Hd & -> & ->).
  by apply chr_digit_facts.
Qed.

Lemma two_digits_pad2 (n : Z) :
  0 ≤ n < 100 → two_digits (digit_char (n / 10)) (digit_char n) = Some n.
Proof.
  intros Hn. unfold two_digits.
  rewrite !is_digit_digit_char, !digit_val_digit_char. simpl. f_equal.
  rewrite (Z.mod_small (n / 10)) by (split; [apply Z.div_pos | apply Z.div_lt_upper_bound]; lia).
  pose proof (Z.div_mod n 10). lia.
Qed.

(** A year of four digits gives a date of the shape YYYY-MM-DD; a year
    below 1000 is printed with fewer digits, and the date is shorter. *)
Lemma strftime_Ymd_shape (dt : datetime) :
  1000 ≤ year dt → is_YYYY_MM_DD (strftime_Ymd dt) = true.
Proof.
  intros Hy. unfold strftime_Ymd, strftime_Y.
  rewrite !(proj2 (Z.ltb_ge _ _)) by lia.
  cbv [pad4 pad2 String.append is_YYYY_MM_DD].
  rewrite !is_digit_digit_char. by rewrite !bool_decide_eq_true_2.
Qed.


Lemma strftime_HM_shape (dt : datetime) :
  0 ≤ hour dt < 24 → 0 ≤ minute dt < 60 → is_HH_MM (strftime_HM dt) = true.
Proof.
  intros Hh Hm.
  pose proof (two_digits_pad2 (hour dt)) as H1.
  pose proof (two_digits_pad2 (minute dt)) as H2.
  unfold two_digits in H1, H2. rewrite !is_digit_digit_char in H1, H2.
  simpl in H1, H2.
  specialize (H1 ltac:(lia)). specialize (H2 ltac:(lia)).
  injection H1 as H1. injection H2 as H2.
  cbv [strftime_HM pad2 String.append is_HH_MM].
  rewrite !is_digit_digit_char, H1, H2, bool_decide_eq_true_2 by done.
  simpl. rewrite !andb_true_iff, !Z.ltb_lt. lia.
Qed.

(** What [strftime] prints for the time is accepted by [Job.at]. *)
Lemma parse_at_time_strftime_HM (dt : datetime) :
  0 ≤ hour dt < 24 → 0 ≤ minute dt < 60 →
  parse_at_time (strftime_HM dt) = Some (hour dt * 3600 + minute dt * 60).
Proof.
  intros Hh Hm.
  cbv [strftime_HM pad2 String.append parse_at_time at_time_fields at_end].
  rewrite bool_decide_eq_true_2 by done.
  rewrite !two_digits_pad2 by lia. simpl.
  replace (hour dt <=? 29) with true by (symmetry; apply Z.leb_le; lia).
  replace (minute dt <=? 59) with true by (symmetry; apply Z.leb_le; lia).
  simpl.
  replace (hour dt <=? 23) with true by (symmetry; apply Z.leb_le; lia).
  f_equal. lia.
Qed.

Lemma lstrip_all_space (s : string) : all_space s = true → lstrip s = EmptyString.
Proof.
  induction s as [| c s IH]; simpl; [done |].
  intros [Hc Hs]%andb_true_iff. rewrite Hc. auto.
Qed.

(** Stripping a text made of white space only leaves the empty text. *)
Lemma strip_all_space (s : string) : all_space s = true → strip s = EmptyString.
Proof. intros H. unfold strip. by rewrite lstrip_all_space. Qed.

Lemma lstrip_head (s : string) :
  lstrip s = EmptyString ∨ ∃ c r, lstrip s = String c r ∧ py_isspace c = false.
Proof.
  induction s as [| c s IH]; simpl; [by left |].
  destruct (py_isspace c) eqn:Hc; [done |]. right. eauto.
Qed.

Lemma rstrip_head (c : ascii) (r : string) :
  py_isspace c = false → ∃ r', rstrip (String c r) = String c r'.
Proof.
  intros Hc. simpl. destruct (rstrip r); [rewrite Hc |]; eauto.
Qed.


Lemma truthy_false (s : string) : truthy s = false → s = EmptyString.
Proof. by destruct s. Qed.

Lemma string_app_cons (x : ascii) (a b : string) :
  String x a +:+ b = String x (a +:+ b).
Proof. reflexivity. Qed.

Lemma string_app_nil_r (a : string) : a +:+ EmptyString = a.
Proof. induction a as [| x a IH]; [done |]. by rewrite string_app_cons, IH. Qed.

Lemma string_app_assoc (a b c : string) : (a +:+ b) +:+ c = a +:+ b +:+ c.
Proof.
  induction a as [| x a IH]; [done |]. by rewrite !string_app_cons, IH.
Qed.

Lemma contains_here (pre x post : string) : contains (pre +:+ x +:+ post) x.
Proof. by exists pre, post. Qed.

Lemma contains_end (pre x : string) : contains (pre +:+ x) x.
Proof. exists pre, EmptyString. by rewrite string_app_nil_r. Qed.

(** ** Date and time normalisation: [parse_datetime] *)

Lemma parse_datetime_resolved env w text dt :
  dateparser_parse env (clock w) text = Some dt →
  parse_datetime env text w =
    (Ok (strftime_Ymd dt,
         if time_is_min dt then "12:00" else strftime_HM dt), w).
Proof.
  intros Hp. unfold parse_datetime, bind, get_clock, ret. rewrite Hp.
  by destruct (time_is_min dt).
Qed.

Lemma parse_datetime_unresolved env w text :
  dateparser_parse env (clock w) text = None →
  parse_datetime env text w = (Raise (ValueError "Could not parse datetime"), w).
Proof.
  intros Hp. unfold parse_datetime, bind, get_clock, raise. by rewrite Hp.
Qed.




(** C5: when the resolver returns no value for the text, [parse_datetime]
    raises [ValueError("Could not parse datetime")] and returns no pair. *)
Theorem parse_datetime_unparseable env w text :
  dateparser_parse env (clock w) text = None →
  parse_datetime env text w = (Raise (ValueError "Could not parse datetime"), w)
  ∧ ∀ pair w', parse_datetime env text w ≠ (Ok pair, w').
Proof.
  intros Hp. unfold parse_datetime, bind, get_clock, ret, raise. rewrite Hp.
  split; [done |]. intros pair w' H. discriminate H.
Qed.

Lemma parse_datetime_unparseable_witness :
  parse_datetime (env_nominal "pay rent") "not a date" (fresh_world 1741100000)
  = (Raise (ValueError "Could not parse datetime"), fresh_world 1741100000)
  ∧ ∀ pair w',
      parse_datetime (env_nominal "pay rent") "not a date"
        (fresh_world 1741100000) ≠ (Ok pair, w').
Proof.
  apply (parse_datetime_unparseable (env_nominal "pay rent")
           (fresh_world 1741100000) "not a date").
  reflexivity.
Defined.

(** C10: whenever the resolved datetime is exactly midnight, whatever the
    text said (also a text asking for midnight, such as "tomorrow at
    midnight"), [parse_datetime] returns the time "12:00"; two texts
    resolved to the same datetime get the same answer, so a requested
    midnight cannot be told from the resolver's default. *)
Theorem parse_datetime_midnight_becomes_noon env w text dt :
  dateparser_parse env (clock w) text = Some dt →
  time_is_min dt = true →
  parse_datetime env text w = (Ok (strftime_Ymd dt, "12:00"), w)
  ∧ (∀ text',
       dateparser_parse env (clock w) text' = dateparser_parse env (clock w) text →
       parse_datetime env text' w = parse_datetime env text w).
Proof.
  intros Hp Hmin. split.
  - rewrite (parse_datetime_resolved _ _ _ _ Hp). by rewrite Hmin.
  - intros text' Heq. rewrite Hp in Heq.
    by rewrite (parse_datetime_resolved _ _ _ _ Hp),
               (parse_datetime_resolved _ _ _ _ Heq).
Qed.

Lemma parse_datetime_midnight_becomes_noon_witness :
  parse_datetime (env_nominal "pay rent") "tomorrow at midnight"
    (fresh_world 1741100000)
  = (Ok ("2025-03-05", "12:00"), fresh_world 1741100000)
  ∧ (∀ text',
       sample_resolver 1741100000 text'
       = sample_resolver 1741100000 "tomorrow at midnight" →
       parse_datetime (env_nominal "pay rent") text' (fresh_world 1741100000)
       = parse_datetime (env_nominal "pay rent") "tomorrow at midnight"
           (fresh_world 1741100000)).
Proof.
  apply (parse_datetime_midnight_becomes_noon (env_nominal "pay rent")
           (fresh_world 1741100000) "tomorrow at midnight"
           (mkDatetime 2025 3 5 0 0 0 0)); reflexivity.
Defined.

(** The override looks at seconds and microseconds too: half a minute
    past midnight is kept, and printed as "00:00". *)
Lemma parse_datetime_seconds_past_midnight :
  parse_datetime (env_nominal "pay rent") "half a minute past midnight"
    (fresh_world 1741100000)
  = (Ok ("2025-03-05", "00:00"), fresh_world 1741100000).
Proof. reflexivity. Qed.

(** ** Running the monad *)

Ltac mrun :=
  cbv [bind ret raise try_except try_finally attempt from_result check emit
       get_clock logger].

Lemma bind_ok {A B} (m : M A) (k : A → M B) w a w' :
  m w = (Ok a, w') → bind m k w = k a w'.
Proof. intros H. unfold bind. by rewrite H. Qed.

Lemma bind_raise {A B} (m : M A) (k : A → M B) w e w' :
  m w = (Raise e, w') → bind m k w = (Raise e, w').
Proof. intros H. unfold bind. by rewrite H. Qed.

Lemma try_except_ok {A} (m : M A) (h : Exn → M A) w a w' :
  m w = (Ok a, w') → try_except m h w = (Ok a, w').
Proof. intros H. unfold try_except. by rewrite H. Qed.

Lemma try_except_raise {A} (m : M A) (h : Exn → M A) w e w' :
  m w = (Raise e, w') → is_Exception e = true → try_except m h w = h e w'.
Proof. intros H He. unfold try_except. by rewrite H, He. Qed.

Lemma try_except_pass {A} (m : M A) (h : Exn → M A) w e w' :
  m w = (Raise e, w') → is_Exception e = false →
  try_except m h w = (Raise e, w').
Proof. intros H He. unfold try_except. by rewrite H, He. Qed.

Lemma is_Exception_class e :
  is_Exception e = true ↔ exn_class e ≠ "KeyboardInterrupt".
Proof.
  unfold is_Exception. rewrite negb_true_iff. apply String.eqb_neq.
Qed.

(** *** What a computation can raise *)

Section Raises.
Variable P : Exn → Prop.

Lemma raises_ret {A} (a : A) : raises P (ret a).
Proof. intros w e w' H. discriminate H. Qed.

Lemma raises_raise {A} e : P e → raises P (raise (A := A) e).
Proof. by intros He w e' w' [= <- _]. Qed.

Lemma raises_from_result {A} (r : Result A) :
  (∀ e, r = Raise e → P e) → raises P (from_result r).
Proof. intros Hr w e w' [= -> _]. by apply Hr. Qed.

Lemma raises_check o : (∀ e, o = Some e → P e) → raises P (check o).
Proof.
  intros Ho. destruct o as [e |]; [apply raises_raise; by apply Ho | apply raises_ret].
Qed.

Lemma raises_bind {A B} (m : M A) (k : A → M B) :
  raises P m → (∀ a, raises P (k a)) → raises P (bind m k).
Proof.
  intros Hm Hk w e w' H. unfold bind in H.
  destruct (m w) as [[a | e1] w1] eqn:E.
  - by eapply Hk.
  - injection H as <- _. by eapply Hm.
Qed.

(** The body may raise anything that is caught. *)
Lemma raises_try_except {A} (m : M A) h :
  (∀ w e w', m w = (Raise e, w') → is_Exception e = false → P e) →
  (∀ e, is_Exception e = true → raises P (h e)) →
  raises P (try_except m h).
Proof.
  intros Hm Hh w e w' H. unfold try_except in H.
  destruct (m w) as [[a | e1] w1] eqn:E; [discriminate H |].
  destruct (is_Exception e1) eqn:E1.
  - by eapply Hh.
  - injection H as <- _. by eapply Hm.
Qed.

Lemma raises_try_finally {A} (m : M A) f :
  raises P m → raises P f → raises P (try_finally m f).
Proof.
  intros Hm Hf w e w' H. unfold try_finally in H.
  destruct (m w) as [r w1] eqn:E. destruct (f w1) as [[[] | e2] w2] eqn:E2.
  - injection H as -> _. by eapply Hm.
  - injection H as <- _. by eapply Hf.
Qed.

Lemma raises_attempt {A} (m : M A) : raises P (attempt m).
Proof. intros w e w' H. unfold attempt in H. by destruct (m w). Qed.

Lemma raises_emit ev : raises P (emit ev).
Proof. intros w e w' H. discriminate H. Qed.

Lemma raises_logger level msg : raises P (logger level msg).
Proof. intros w e w' H. discriminate H. Qed.

Lemma raises_get_clock : raises P get_clock.
Proof. intros w e w' H. discriminate H. Qed.

Lemma raises_os_path_exists path : raises P (os_path_exists path).
Proof. intros w e w' H. discriminate H. Qed.

Lemma raises_read_file path : P (FileNotFoundError path) → raises P (read_file path).
Proof.
  intros Hp w e w' H. unfold read_file in H.
  destruct (fs w !! path); [discriminate H | by injection H as <- _].
Qed.

Lemma raises_write_file env path data :
  (∀ k e, io_fault env k path = Some e → P e) →
  raises P (write_file env path data).
Proof.
  intros Hio. unfold write_file.
  apply raises_bind; [apply raises_emit |]. intros k.
  apply raises_bind; [apply raises_check, Hio |]. intros _ w e w' H. discriminate H.
Qed.

Lemma raises_os_remove env path :
  (∀ k e, io_fault env k path = Some e → P e) → P (FileNotFoundError path) →
  raises P (os_remove env path).
Proof.
  intros Hio Hp. unfold os_remove.
  apply raises_bind; [apply raises_emit |]. intros k.
  apply raises_bind; [apply raises_check, Hio |]. intros _ w e w' H.
  destruct (fs w !! path); [discriminate H | by injection H as <- _].
Qed.

End Raises.

(** A handler that catches whatever is an [Exception] leaves the keyboard
    interrupt as the one thing its [try] can raise. *)
Lemma raises_interrupt_try_except {A} (m : M A) h :
  (∀ e, raises interrupt (h e)) → raises interrupt (try_except m h).
Proof.
  intros Hh. apply raises_try_except; [by intros w e w' _ He | intros e _; apply Hh].
Qed.

Lemma raises_try_except_body {A} P (m : M A) h :
  raises P m → (∀ e, is_Exception e = true → raises P (h e)) →
  raises P (try_except m h).
Proof.
  intros Hm Hh. apply raises_try_except; [| done].
  intros w e w' H _. by eapply Hm.
Qed.

Lemma try_finally_run {A} (m : M A) (f : M unit) w r w1 w2 :
  m w = (r, w1) → f w1 = (Ok tt, w2) → try_finally m f w = (r, w2).
Proof. intros H1 H2. unfold try_finally. by rewrite H1, H2. Qed.

Lemma attempt_run {A} (m : M A) w r w' :
  m w = (r, w') → attempt m w = (Ok r, w').
Proof. intros H. unfold attempt. by rewrite H. Qed.

Lemma logger_run level msg w :
  logger level msg w = (Ok tt, set_trace (trace w ++ [EvLog level msg]) w).
Proof. reflexivity. Qed.

(** ** The task log: [_initialize_csv] and [save_task] *)

Lemma csv_text_snoc (rows : list (list string)) (row : list string) :
  csv_text (rows ++ [row]) = csv_text rows +:+ csv_writerow row.
Proof.
  induction rows as [| r rows IH]; simpl.
  - by rewrite string_app_nil_r.
  - by rewrite IH, string_app_assoc.
Qed.

(** *** Reading back what the writer wrote *)

Lemma string_length_app (a b : string) :
  String.length (a +:+ b) = (String.length a + String.length b)%nat.
Proof.
  induction a as [| c a IH]; [done |]. rewrite string_app_cons. simpl. by rewrite IH.
Qed.

Lemma parse_add_char_short c st fld fs f :
  short (fld +:+ String c f) →
  parse_add_char c (mkReader st fld fs)
  = Some (mkReader st (fld +:+ String c EmptyString) fs).
Proof.
  unfold short, parse_add_char. rewrite string_length_app. simpl. intros H.
  by rewrite bool_decide_eq_true_2 by lia.
Qed.

Lemma csv_special_false c :
  csv_special c = false →
  is_newline c = false ∧ bool_decide (c = dquote) = false
  ∧ bool_decide (c = ","%char) = false.
Proof.
  unfold csv_special, is_newline.
  destruct (bool_decide (c = ","%char)), (bool_decide (c = dquote)),
    (bool_decide (c = CR)), (bool_decide (c = LF)); simpl; try done.
Qed.

Lemma line_ends_plain c rest : is_newline c = false → line_ends c rest = false.
Proof.
  unfold is_newline, line_ends.
  by destruct (bool_decide (c = CR)), (bool_decide (c = LF)).
Qed.

Lemma go_unquoted f rest fld fs rows :
  csv_needs_quote f = false → short (fld +:+ f) →
  csv_reader_go (f +:+ rest) true (mkReader InField fld fs) rows
  = csv_reader_go rest true (mkReader InField (fld +:+ f) fs) rows.
Proof.
  revert fld. induction f as [| c f IH]; intros fld Hq Hs.
  - by rewrite string_app_nil_r.
  - simpl in Hq. apply orb_false_iff in Hq as [Hc Hq].
    destruct (csv_special_false c Hc) as (Hnl & Hdq & Hcomma).
    rewrite string_app_cons. cbn [csv_reader_go parse_process_char state].
    rewrite Hnl, Hcomma, (parse_add_char_short _ _ _ _ _ Hs).
    rewrite (line_ends_plain _ _ Hnl).
    rewrite IH by (done || by rewrite string_app_assoc).
    by rewrite string_app_assoc.
Qed.

Lemma go_start_unquoted c f rest st fs il rows :
  st = StartRecord ∨ st = StartField →
  csv_needs_quote (String c f) = false → short (String c f) →
  csv_reader_go (String c f +:+ rest) il (mkReader st EmptyString fs) rows
  = csv_reader_go rest true (mkReader InField (String c f) fs) rows.
Proof.
  intros Hst Hq Hs. pose proof Hq as Hq'.
  simpl in Hq. apply orb_false_iff in Hq as [Hc Hq].
  destruct (csv_special_false c Hc) as (Hnl & Hdq & Hcomma).
  rewrite string_app_cons. cbn [csv_reader_go].
  assert (parse_process_char c (mkReader st EmptyString fs)
          = Some (mkReader InField (String c EmptyString) fs)) as ->.
  { destruct Hst as [-> | ->]; cbn [parse_process_char state]; unfold start_field;
      rewrite ?Hnl, Hdq, Hcomma;
      by rewrite (parse_add_char_short c _ EmptyString fs f Hs). }
  rewrite (line_ends_plain _ _ Hnl). by rewrite go_unquoted.
Qed.

Lemma go_quoted_body f rest fld fs il rows :
  short (fld +:+ f) →
  csv_reader_go (csv_escape f +:+ String dquote rest) il
    (mkReader InQuotedField fld fs) rows
  = csv_reader_go rest true (mkReader QuoteInQuotedField (fld +:+ f) fs) rows.
Proof.
  revert fld il. induction f as [| c f IH]; intros fld il Hs.
  - rewrite string_app_nil_r. cbn [csv_escape].
    change (EmptyString +:+ String dquote rest) with (String dquote rest).
    cbn [csv_reader_go parse_process_char state].
    rewrite bool_decide_eq_true_2 by done. by rewrite line_ends_plain.
  - assert (short ((fld +:+ String c EmptyString) +:+ f)) as Hs'
      by (by rewrite string_app_assoc).
    cbn [csv_escape]. case_bool_decide as Hc.
    + subst c. rewrite !string_app_cons.
      cbn [csv_reader_go parse_process_char state].
      rewrite bool_decide_eq_true_2 by done. rewrite line_ends_plain by done.
      unfold set_state at 1. cbn [csv_reader_go parse_process_char state field fields].
      rewrite bool_decide_eq_true_2 by done.
      rewrite (parse_add_char_short _ _ _ _ _ Hs). cbn [fmap option_fmap option_map].
      rewrite line_ends_plain by done.
      unfold set_state. cbn [state field fields].
      rewrite IH by done. by rewrite string_app_assoc.
    + rewrite string_app_cons. cbn [csv_reader_go parse_process_char state].
      rewrite bool_decide_eq_false_2 by done.
      rewrite (parse_add_char_short _ _ _ _ _ Hs).
      destruct (line_ends c _); cbn [parse_process_eol state];
        rewrite IH by done; by rewrite string_app_assoc.
Qed.

Lemma go_crlf st fld fs rest il rows :
  st = StartField ∨ st = InField ∨ st = QuoteInQuotedField →
  csv_reader_go (CRLF +:+ rest) il (mkReader st fld fs) rows
  = csv_reader_go rest false parse_reset (rows ++ [fs ++ [fld]]).
Proof.
  intros Hst. unfold CRLF. rewrite !string_app_cons.
  change (EmptyString +:+ rest) with rest. cbn [csv_reader_go].
  assert (parse_process_char CR (mkReader st fld fs)
          = Some (mkReader EatCRNL EmptyString (fs ++ [fld]))) as ->.
  { by destruct Hst as [-> | [-> | ->]]. }
  by vm_compute line_ends.
Qed.

Lemma go_empty_line rest il rows :
  csv_reader_go (CRLF +:+ rest) il parse_reset rows
  = csv_reader_go rest false parse_reset (rows ++ [[]]).
Proof. reflexivity. Qed.

Lemma csv_field_quoted f :
  csv_needs_quote f = true →
  csv_field f = String dquote (csv_escape f +:+ String dquote EmptyString).
Proof. intros H. unfold csv_field. by rewrite H. Qed.

Lemma go_open_quote f rest st fs il rows :
  st = StartRecord ∨ st = StartField →
  csv_needs_quote f = true → short f →
  csv_reader_go (csv_field f +:+ rest) il (mkReader st EmptyString fs) rows
  = csv_reader_go rest true (mkReader QuoteInQuotedField f fs) rows.
Proof.
  intros Hst Hq Hs. rewrite (csv_field_quoted _ Hq), string_app_cons.
  cbn [csv_reader_go].
  assert (parse_process_char dquote (mkReader st EmptyString fs)
          = Some (mkReader InQuotedField EmptyString fs)) as ->.
  { by destruct Hst as [-> | ->]. }
  rewrite line_ends_plain by done.
  rewrite string_app_assoc, string_app_cons.
  change (EmptyString +:+ rest) with rest.
  by rewrite go_quoted_body.
Qed.

Lemma go_field_comma f rest st fs il rows :
  st = StartRecord ∨ st = StartField → short f →
  csv_reader_go (csv_field f +:+ String ","%char rest) il
    (mkReader st EmptyString fs) rows
  = csv_reader_go rest true (mkReader StartField EmptyString (fs ++ [f])) rows.
Proof.
  intros Hst Hs. destruct (csv_needs_quote f) eqn:Hq.
  - by rewrite go_open_quote.
  - unfold csv_field. rewrite Hq. destruct f as [| c f].
    + change (EmptyString +:+ String ","%char rest) with (String ","%char rest).
      cbn [csv_reader_go].
      by destruct Hst as [-> | ->].
    + by rewrite go_start_unquoted.
Qed.

Lemma go_field_crlf f rest st fs il rows :
  st = StartField ∨ (st = StartRecord ∧ f ≠ EmptyString) → short f →
  csv_reader_go (csv_field f +:+ CRLF +:+ rest) il
    (mkReader st EmptyString fs) rows
  = csv_reader_go rest false parse_reset (rows ++ [fs ++ [f]]).
Proof.
  intros Hst Hs.
  assert (st = StartRecord ∨ st = StartField) as Hst' by (destruct Hst as [| []]; auto).
  destruct (csv_needs_quote f) eqn:Hq.
  - rewrite go_open_quote by done. apply go_crlf. auto.
  - unfold csv_field. rewrite Hq. destruct f as [| c f].
    + destruct Hst as [-> | [_ ?]]; [| done].
      change (EmptyString +:+ CRLF +:+ rest) with (CRLF +:+ rest).
      apply go_crlf. auto.
    + rewrite go_start_unquoted by done. apply go_crlf. auto.
Qed.

Lemma go_join row rest st fs il rows :
  row ≠ [] → Forall short row →
  st = StartField ∨ (st = StartRecord ∧ row ≠ [EmptyString]) →
  csv_reader_go (csv_join row +:+ CRLF +:+ rest) il
    (mkReader st EmptyString fs) rows
  = csv_reader_go rest false parse_reset (rows ++ [fs ++ row]).
Proof.
  revert st fs il. induction row as [| f row IH]; intros st fs il Hne Hs Hst;
    [done |].
  apply Forall_cons in Hs as [Hf Hs]. destruct row as [| f2 row].
  - cbn [csv_join]. apply go_field_crlf; [| done].
    destruct Hst as [-> | [-> Hrow]]; [by left | right]. split; [done |].
    by intros ->.
  - change (csv_join (f :: f2 :: row))
      with (csv_field f +:+ "," +:+ csv_join (f2 :: row)).
    rewrite !string_app_assoc.
    change ("," +:+ csv_join (f2 :: row) +:+ CRLF +:+ rest)
      with (String ","%char (csv_join (f2 :: row) +:+ CRLF +:+ rest)).
    rewrite go_field_comma by (done || destruct Hst as [| []]; auto).
    rewrite IH by (done || by left). by rewrite <- app_assoc.
Qed.

Lemma go_row row rest rows :
  Forall short row →
  csv_reader_go (csv_writerow row +:+ rest) false parse_reset rows
  = csv_reader_go rest false parse_reset (rows ++ [row]).
Proof.
  intros Hs. destruct row as [| f row].
  - apply go_empty_line.
  - destruct (decide (f :: row = [EmptyString])) as [-> | Hne].
    + reflexivity.
    + assert (csv_writerow (f :: row) = csv_join (f :: row) +:+ CRLF) as ->.
      { unfold csv_writerow. by destruct f, row. }
      rewrite string_app_assoc. unfold parse_reset.
      by rewrite go_join by (done || by right).
Qed.

Lemma csv_reader_go_csv_text rows acc :
  Forall (Forall short) rows →
  csv_reader_go (csv_text rows) false parse_reset acc = Some (acc ++ rows).
Proof.
  revert acc. induction rows as [| row rows IH]; intros acc Hs; simpl.
  - by rewrite app_nil_r.
  - apply Forall_cons in Hs as [Hrow Hs].
    by rewrite go_row, IH, <- app_assoc.
Qed.

(** Reading a log gives back the rows that were written to it, field for
    field, whatever characters the fields hold, as long as no field is
    longer than the reader's limit. *)
Theorem csv_reader_csv_text rows :
  Forall (Forall short) rows → csv_reader (csv_text rows) = Some rows.
Proof. apply csv_reader_go_csv_text. Qed.

Lemma csv_reader_append rows row :
  Forall (Forall short) rows → Forall short row →
  csv_reader (csv_text rows +:+ csv_writerow row) = Some (rows ++ [row]).
Proof.
  intros Hrows Hrow. rewrite <- csv_text_snoc. apply csv_reader_csv_text.
  apply Forall_app. split; [done |]. by apply Forall_singleton.
Qed.

(** *** The claims about the log *)

Lemma initialize_csv_existing env config w :
  is_Some (fs w !! csv_file config) → _initialize_csv env config w = (Ok tt, w).
Proof.
  intros H. unfold _initialize_csv, os_path_exists. mrun.
  by rewrite bool_decide_eq_true_2.
Qed.

Lemma initialize_csv_absent env config w :
  fs w !! csv_file config = None →
  io_fault env (length (trace w)) (csv_file config) = None →
  _initialize_csv env config w =
    (Ok tt,
     set_fs (<[csv_file config := csv_text [csv_header]]> (fs w))
       (set_trace (trace w ++ [EvWrite (csv_file config)]) w)).
Proof.
  intros Habs Hio.
  unfold _initialize_csv, os_path_exists, write_file. mrun.
  rewrite bool_decide_eq_false_2 by (rewrite Habs; by intros [? ?]).
  simpl. rewrite Hio. simpl. by rewrite string_app_nil_r.
Qed.

(** When the file is absent and cannot be created, the error of [open]
    leaves [_initialize_csv] and no file is made. *)
Lemma initialize_csv_io_error env config w e :
  fs w !! csv_file config = None →
  io_fault env (length (trace w)) (csv_file config) = Some e →
  ∃ w', _initialize_csv env config w = (Raise e, w') ∧ fs w' = fs w.
Proof.
  intros Habs Hio.
  unfold _initialize_csv, os_path_exists, write_file. mrun.
  rewrite bool_decide_eq_false_2 by (rewrite Habs; by intros [? ?]).
  simpl. rewrite Hio. simpl. eauto.
Qed.

(** C6: starting without a log file, the first [_initialize_csv] writes the
    header row and the second one changes nothing, so the log holds one
    header row and not two (reading it gives one record); on a world where
    the log exists the call writes nothing at all. *)
Theorem initialize_csv_idempotent env config w :
  fs w !! csv_file config = None →
  io_fault env (length (trace w)) (csv_file config) = None →
  ∃ w1,
    _initialize_csv env config w = (Ok tt, w1) ∧
    _initialize_csv env config w1 = (Ok tt, w1) ∧
    fs w1 !! csv_file config = Some (csv_text [csv_header]) ∧
    csv_text [csv_header] = "Task Name,Due Date,Deadline Time" +:+ CRLF ∧
    csv_text [csv_header] ≠ csv_text [csv_header; csv_header] ∧
    csv_reader (csv_text [csv_header]) = Some [csv_header] ∧
    (∀ v, is_Some (fs v !! csv_file config) →
          _initialize_csv env config v = (Ok tt, v)).
Proof.
  intros Habs Hio. eexists. split; [by apply initialize_csv_absent |].
  assert (∀ m : gmap string string,
            <[csv_file config := csv_text [csv_header]]> m !! csv_file config
            = Some (csv_text [csv_header])) as Hl
    by (intros m; apply lookup_insert_eq).
  split; [apply initialize_csv_existing; simpl; by rewrite Hl |].
  split; [simpl; by rewrite Hl |].
  split; [done |]. split; [by vm_compute |]. split; [reflexivity |].
  intros v Hv. by apply initialize_csv_existing.
Qed.

Lemma initialize_csv_idempotent_witness :
  ∃ w1,
    _initialize_csv (env_nominal "pay rent") sample_config (fresh_world 0)
    = (Ok tt, w1) ∧
    _initialize_csv (env_nominal "pay rent") sample_config w1 = (Ok tt, w1) ∧
    fs w1 !! "tasks.csv" = Some (csv_text [csv_header]) ∧
    csv_text [csv_header] = "Task Name,Due Date,Deadline Time" +:+ CRLF ∧
    csv_text [csv_header] ≠ csv_text [csv_header; csv_header] ∧
    csv_reader (csv_text [csv_header]) = Some [csv_header] ∧
    (∀ v, is_Some (fs v !! "tasks.csv") →
          _initialize_csv (env_nominal "pay rent") sample_config v = (Ok tt, v)).
Proof.
  apply (initialize_csv_idempotent (env_nominal "pay rent") sample_config
           (fresh_world 0)); reflexivity.
Defined.

Lemma append_file_run env path data w :
  append_file env path data w
  = match io_fault env (length (trace w)) path with
    | None =>
        (Ok tt,
         set_fs (<[path := default EmptyString (fs w !! path) +:+ data]> (fs w))
           (set_trace (trace w ++ [EvAppend path]) w))
    | Some e => (Raise e, set_trace (trace w ++ [EvAppend path]) w)
    end.
Proof.
  unfold append_file. mrun. simpl. by destruct (io_fault env _ _).
Qed.

Lemma save_task_ok_inv env config task w w' :
  save_task env config task w = (Ok tt, w') →
  io_fault env (length (trace w)) (csv_file config) = None.
Proof.
  unfold save_task, try_except. rewrite append_file_run.
  destruct (io_fault env _ _) as [e |]; [| done].
  by destruct (is_Exception e).
Qed.

(** C7, as amended: a successful [save_task] leaves the contents of the
    log equal to what it held before followed by the line that the writer
    makes of the task's name, due date and deadline time; no character
    that was there is moved, rewritten or dropped, and no other file
    changes.  When the log held rows written by the writer, each line
    terminated, reading the new log gives those rows followed by the row
    of the three fields.  The call succeeds whenever [open] does. *)
Theorem save_task_appends env config task w :
  let old := default EmptyString (fs w !! csv_file config) in
  let row := [name task; due_date task; deadline_time task] in
  (io_fault env (length (trace w)) (csv_file config) = None →
   ∃ w', save_task env config task w = (Ok tt, w')) ∧
  (∀ w', save_task env config task w = (Ok tt, w') →
     fs w' = <[csv_file config := old +:+ csv_writerow row]> (fs w) ∧
     fs w' !! csv_file config = Some (old +:+ csv_writerow row) ∧
     (∀ path, path ≠ csv_file config → fs w' !! path = fs w !! path) ∧
     (∀ rows, old = csv_text rows →
        fs w' !! csv_file config = Some (csv_text (rows ++ [row])) ∧
        (Forall (Forall short) rows → Forall short row →
         csv_reader (old +:+ csv_writerow row) = Some (rows ++ [row])))).
Proof.
  intros old row. split.
  - intros Hio. unfold save_task, try_except. rewrite append_file_run, Hio. eauto.
  - intros w' Hs. pose proof (save_task_ok_inv _ _ _ _ _ Hs) as Hio.
    revert Hs. unfold save_task, try_except. rewrite append_file_run, Hio.
    intros [= <-]. cbn [fs set_fs set_trace]. fold row old.
    split; [done |]. split; [by rewrite lookup_insert_eq |].
    split; [intros path Hne; by rewrite lookup_insert_ne |].
    intros rows Hrows. split.
    + rewrite lookup_insert_eq, csv_text_snoc. by rewrite Hrows.
    + intros Hs Hr. rewrite Hrows. by apply csv_reader_append.
Qed.

Lemma save_task_appends_witness :
  let header := ["Task Name"; "Due Date"; "Deadline Time"] in
  let row := ["pay rent"; "2025-03-05"; "09:00"] in
  let w := set_fs {[ "tasks.csv" := csv_text [header] ]} (fresh_world 1741100000) in
  let w' := snd (save_task (env_nominal "pay rent") sample_config sample_task w) in
  fs w' !! "tasks.csv" = Some (csv_text ([header] ++ [row])) ∧
  (Forall (Forall short) [header] → Forall short row →
   csv_reader (csv_text [header] +:+ csv_writerow row) = Some ([header] ++ [row])).
Proof.
  intros header row w w'.
  refine (proj2 (proj2 (proj2 (proj2
            (save_task_appends (env_nominal "pay rent") sample_config sample_task w)
            w' _))) [header] _).
  - vm_compute. reflexivity.
  - vm_compute. reflexivity.
Defined.

(** C7, as stated, fails for a log whose last line is not terminated: the
    file holds one row, the header, and after a successful [save_task]
    it still holds one row, which is neither the row of the task nor the
    header: the name of the task has been glued to the last field of the
    header. *)
Lemma save_task_rewrites_unterminated_row :
  let header := ["Task Name"; "Due Date"; "Deadline Time"] in
  let row := [name sample_task; due_date sample_task; deadline_time sample_task] in
  let old := "Task Name,Due Date,Deadline Time" in
  let w := set_fs {[ "tasks.csv" := old ]} (fresh_world 1741100000) in
  csv_reader old = Some [header] ∧
  ∃ w' new rows,
    save_task (env_nominal "pay rent") sample_config sample_task w = (Ok tt, w') ∧
    fs w' !! "tasks.csv" = Some new ∧
    csv_reader new = Some rows ∧
    length rows = 1%nat ∧ (row ∉ rows) ∧ (header ∉ rows) ∧
    rows = [["Task Name"; "Due Date"; "Deadline Timepay rent"; "2025-03-05"; "09:00"]].
Proof.
  intros header row old w. split; [vm_compute; reflexivity |].
  eexists _, _, _. split; [vm_compute; reflexivity |].
  split; [vm_compute; reflexivity |].
  split; [vm_compute; reflexivity |].
  split; [reflexivity |].
  split; [| split; [| reflexivity]].
  - intros H. apply list_elem_of_singleton in H. discriminate H.
  - intros H. apply list_elem_of_singleton in H. discriminate H.
Qed.

(** ** Voice capture: [get_voice_input] *)

Lemma bind_ok_inv {A B} (m : M A) (k : A → M B) w b w' :
  bind m k w = (Ok b, w') → ∃ a w1, m w = (Ok a, w1) ∧ k a w1 = (Ok b, w').
Proof.
  unfold bind. destruct (m w) as [[a | e] w1]; [eauto | discriminate].
Qed.

Lemma try_except_ok_inv {A} (m : M A) (h : Exn → M A) w a w' :
  try_except m h w = (Ok a, w') →
  m w = (Ok a, w') ∨ ∃ e w1, m w = (Raise e, w1) ∧ h e w1 = (Ok a, w').
Proof.
  unfold try_except. destruct (m w) as [[a1 | e] w1]; [by left |].
  destruct (is_Exception e); [right; eauto | discriminate].
Qed.

Lemma try_finally_ok_inv {A} (m : M A) (f : M unit) w a w' :
  try_finally m f w = (Ok a, w') → ∃ w1, m w = (Ok a, w1).
Proof.
  unfold try_finally. destruct (m w) as [r w1].
  destruct (f w1) as [[[] | e] w2]; [| discriminate]. intros [= -> _]. eauto.
Qed.

(** *** What a successful capture returns *)

Lemma speech_to_text_ok_inv env path w text w' :
  speech_to_text env path w = (Ok text, w') → ∃ raw, text = strip raw.
Proof.
  unfold speech_to_text. intros H.
  apply try_except_ok_inv in H as [H | (e & w1 & _ & H)].
  - apply bind_ok_inv in H as (audio & w1 & _ & H).
    apply bind_ok_inv in H as (k & w2 & _ & H).
    apply bind_ok_inv in H as (raw & w3 & _ & H).
    injection H as <- _. eauto.
  - apply bind_ok_inv in H as (? & ? & _ & H). discriminate H.
Qed.

Lemma voice_input_attempt_some_inv env config n w text w' :
  voice_input_attempt env config n w = (Ok (Some text), w') →
  truthy text = true ∧ ∃ raw, text = strip raw.
Proof.
  unfold voice_input_attempt. intros H.
  apply bind_ok_inv in H as (saved & w1 & _ & H).
  destruct saved as [path | e].
  - apply try_finally_ok_inv in H as [w2 H]. unfold voice_input_try in H.
    apply try_except_ok_inv in H as [H | (e & w3 & _ & H)].
    + apply bind_ok_inv in H as (t & w3 & Hs & H).
      destruct (truthy t) eqn:Ht.
      * injection H as <- _. split; [done |]. by eapply speech_to_text_ok_inv.
      * apply bind_ok_inv in H as (? & ? & _ & H). discriminate H.
    + apply bind_ok_inv in H as (? & ? & _ & H). discriminate H.
  - apply try_finally_ok_inv in H as [w2 H].
    apply try_except_ok_inv in H as [H | (e' & w3 & _ & H)]; [discriminate H |].
    apply bind_ok_inv in H as (? & ? & _ & H). discriminate H.
Qed.

Lemma voice_input_loop_ok_inv env config attempts w text w' :
  voice_input_loop env config attempts w = (Ok text, w') →
  truthy text = true ∧ ∃ raw, text = strip raw.
Proof.
  revert w. induction attempts as [| n rest IH]; intros w H; simpl in H.
  - discriminate H.
  - apply bind_ok_inv in H as ([t |] & w1 & Ha & H).
    + injection H as <- _. by eapply voice_input_attempt_some_inv.
    + by eapply IH.
Qed.

(** Whatever the outside world does, a text returned by [get_voice_input]
    is a stripped transcript and is not empty. *)
Lemma get_voice_input_ok_inv env config prompt w text w' :
  get_voice_input env config prompt w = (Ok text, w') →
  truthy text = true ∧ ∃ raw, text = strip raw.
Proof.
  unfold get_voice_input. intros H.
  apply bind_ok_inv in H as (? & w1 & _ & H). by eapply voice_input_loop_ok_inv.
Qed.

(** *** Tidy stretches of execution *)

Ltac obs :=
  unfold written, speech_requests, sent, recordings, transcriptions;
  rewrite ?omap_app, ?length_app; simpl.

Lemma tidy_refl w : tidy w w [].
Proof. split; [by rewrite app_nil_r |]. split; [done |]. intros p Hp. inversion Hp. Qed.

Lemma tidy_trans w1 w2 w3 evs1 evs2 :
  tidy w1 w2 evs1 → tidy w2 w3 evs2 → tidy w1 w3 (evs1 ++ evs2).
Proof.
  intros (Ht1 & Hs1 & Hw1) (Ht2 & Hs2 & Hw2).
  split; [by rewrite Ht2, Ht1, app_assoc |].
  split; [by etrans |].
  intros p. unfold written. rewrite omap_app, elem_of_app. intros [Hp | Hp].
  - specialize (Hw1 p Hp). eapply lookup_weaken_None; eauto.
  - by apply Hw2.
Qed.

Lemma truthy_temp_path a b : truthy (os_path_join a ("temp_" +:+ b)) = true.
Proof.
  unfold os_path_join. destruct a as [| c a]; [reflexivity |].
  cbn [truthy]. by destruct (ends_with_slash _).
Qed.

(** *** Running the capture when no file operation fails *)

Section VoiceCapture.

Context (env : Env) (config : TaskConfig).
Hypothesis Hio : no_io_fault env.

Lemma remove_temp_files_run files w :
  ∃ w' evs,
    remove_temp_files env files w = (Ok tt, w') ∧
    trace w' = trace w ++ evs ∧
    fs w' = foldl (λ m p, delete p m) (fs w) files ∧
    written evs = [] ∧ speech_requests evs = [] ∧
    recordings evs = 0%nat ∧ transcriptions evs = 0%nat.
Proof.
  revert w. induction files as [| p files IH]; intros w; simpl.
  - exists w, []. by rewrite app_nil_r.
  - unfold os_path_exists, os_remove at 1. mrun.
    destruct (fs w !! p) as [d |] eqn:Hp.
    + rewrite bool_decide_eq_true_2 by eauto. simpl. rewrite Hio. simpl.
      rewrite Hp.
      edestruct IH as (w' & evs & -> & Ht & Hf & Ho).
      eexists _, ([EvRemove p] ++ evs). split; [done |].
      rewrite Ht, Hf. simpl. rewrite <- app_assoc. split; [done |].
      split; [done |]. revert Ho. by obs.
    + rewrite bool_decide_eq_false_2 by (by intros [? ?]).
      edestruct IH as (w' & evs & -> & Ht & Hf & Ho).
      eexists _, evs. split; [done |]. split; [done |].
      split; [| done]. by rewrite Hf, (delete_id _ _ Hp).
Qed.

Lemma text_to_speech_try_run text mp3 wav w :
  ∃ r w1 evs,
    text_to_speech_try env text mp3 wav w = (r, w1) ∧
    trace w1 = trace w ++ evs ∧
    (∀ k, k ≠ mp3 → k ≠ wav → fs w1 !! k = fs w !! k) ∧
    (∀ p, p ∈ written evs → p = mp3 ∨ p = wav) ∧
    speech_requests evs = [text] ∧
    recordings evs = 0%nat ∧ transcriptions evs = 0%nat.
Proof.
  unfold text_to_speech_try, write_file, read_file. mrun. simpl.
  destruct (speech_create env _ _) as [resp | e]; simpl.
  2:{ destruct (is_Exception e); simpl.
      all: eexists _, _, _; (split; [done |]); simpl; rewrite <- ?app_assoc; simpl.
      all: split; [done |]; split; [done |]; split; [| done].
      all: intros p; simpl; rewrite ?elem_of_cons, elem_of_nil; tauto. }
  rewrite Hio. simpl. rewrite lookup_insert_eq.
  destruct (from_mp3 env _ _) as [audio | e]; simpl.
  2:{ destruct (is_Exception e); simpl.
      all: eexists _, _, _; (split; [done |]); simpl; rewrite <- ?app_assoc; simpl.
      all: split; [done |]; split; [intros; by rewrite lookup_insert_ne |].
      all: split; [| done].
      all: intros p; simpl; rewrite ?elem_of_cons, elem_of_nil; tauto. }
  rewrite Hio. simpl. rewrite lookup_insert_eq.
  destruct (sd_play env _ _) as [e |]; simpl; [destruct (is_Exception e); simpl |].
  all: eexists _, _, _; (split; [done |]); simpl; rewrite <- ?app_assoc; simpl.
  all: split; [done |]; split; [intros; by rewrite !lookup_insert_ne |].
  all: split; [| done]; intros p; simpl; rewrite ?elem_of_cons, elem_of_nil; tauto.
Qed.

Lemma text_to_speech_run text w :
  ∃ r w' evs,
    text_to_speech env config text w = (r, w') ∧ tidy w w' evs ∧
    speech_requests evs = [text] ∧
    recordings evs = 0%nat ∧ transcriptions evs = 0%nat.
Proof.
  unfold text_to_speech, _get_temp_path. mrun.
  set (mp3 := os_path_join _ _). set (wav := os_path_join _ _).
  destruct (text_to_speech_try_run text mp3 wav w)
    as (r & w1 & evs1 & -> & Ht1 & Hf1 & Hw1 & Hs1 & Hr1 & Hx1).
  destruct (remove_temp_files_run [mp3; wav] w1)
    as (w2 & evs2 & -> & Ht2 & Hf2 & Hw2 & Hs2 & Hr2 & Hx2).
  simpl in Hf2.
  exists r, w2, (evs1 ++ evs2). split; [done |]. split; [split; [| split] |].
  - by rewrite Ht2, Ht1, app_assoc.
  - rewrite Hf2. apply map_subseteq_spec. intros k x.
    rewrite !lookup_delete_Some. intros (? & ? & Hk). by rewrite <- Hf1.
  - intros p. unfold written. rewrite omap_app, elem_of_app.
    fold (written evs1). fold (written evs2). rewrite Hw2, Hf2.
    intros [Hp | Hp]; [| inversion Hp].
    destruct (Hw1 p Hp) as [-> | ->].
    + destruct (decide (mp3 = wav)) as [<- | Hne];
        [apply lookup_delete_eq | rewrite lookup_delete_ne by done; apply lookup_delete_eq].
    + apply lookup_delete_eq.
  - revert Hs1 Hr1 Hx1 Hs2 Hr2 Hx2. obs. intros -> -> -> -> -> ->. done.
Qed.


Lemma record_audio_run w :
  ∃ r w' evs,
    record_audio env config w = (r, w') ∧
    trace w' = trace w ++ evs ∧ fs w' = fs w ∧
    written evs = [] ∧ speech_requests evs = [] ∧
    recordings evs = 1%nat ∧ transcriptions evs = 0%nat ∧
    r = sd_rec env (S (length (trace w))) ∧
    (∀ audio, r = Ok audio → length evs = 2%nat).
Proof.
  unfold record_audio. mrun. simpl.
  replace (length (trace w ++ [EvLog "INFO"
             ("Recording for " +:+ pretty (record_duration config) +:+ " seconds...")]))
    with (S (length (trace w))) by (rewrite length_app; simpl; lia).
  destruct (sd_rec env _) as [audio | e] eqn:Hrec; simpl;
    [| destruct (is_Exception e); simpl].
  all: eexists _, _, _; (split; [done |]); simpl; rewrite <- ?app_assoc; simpl.
  all: by repeat (split; [done |]).
Qed.

Lemma save_audio_run audio w :
  ∃ path,
    save_audio env config audio w
    = (Ok path, set_fs (<[path := audio]> (fs w))
                  (set_trace (trace w ++ [EvWrite path]) w)) ∧
    truthy path = true.
Proof.
  unfold save_audio, _get_temp_path, write_file. mrun. simpl.
  rewrite Hio. simpl. eexists. split; [done |]. apply truthy_temp_path.
Qed.

Lemma speech_to_text_run path audio w :
  fs w !! path = Some audio →
  ∃ r w' evs,
    speech_to_text env path w = (r, w') ∧
    trace w' = trace w ++ evs ∧ fs w' = fs w ∧
    written evs = [] ∧ speech_requests evs = [] ∧
    recordings evs = 0%nat ∧ transcriptions evs = 1%nat ∧
    match transcriptions_create env (length (trace w)) audio with
    | Ok raw => r = Ok (strip raw)
    | Raise e => r = Raise e
    end.
Proof.
  intros Hp. unfold speech_to_text, read_file. mrun. rewrite Hp. simpl.
  destruct (transcriptions_create env _ _) as [raw | e] eqn:Htr; simpl;
    [| destruct (is_Exception e); simpl].
  all: eexists _, _, _; (split; [done |]); simpl; rewrite <- ?app_assoc; simpl.
  all: by repeat (split; [done |]).
Qed.

Lemma cleanup_audio_run path w :
  truthy path = true →
  ∃ w' evs,
    cleanup_audio env (Some path) w = (Ok tt, w') ∧
    trace w' = trace w ++ evs ∧ fs w' = delete path (fs w) ∧
    written evs = [] ∧ speech_requests evs = [] ∧
    recordings evs = 0%nat ∧ transcriptions evs = 0%nat.
Proof.
  intros Hpath. unfold cleanup_audio, os_path_exists, os_remove. rewrite Hpath.
  mrun. destruct (fs w !! path) as [d |] eqn:Hp.
  - rewrite bool_decide_eq_true_2 by eauto. simpl. rewrite Hio. simpl.
    rewrite Hp. by eexists _, [EvRemove path].
  - rewrite bool_decide_eq_false_2 by (by intros [? ?]).
    exists w, []. by rewrite app_nil_r, delete_id.
Qed.


Hypothesis Hni : no_interrupt env.

(** With no interrupt from the collaborators, [text_to_speech] raises
    instances of [Exception] only. *)
Lemma text_to_speech_raises_exception text :
  raises (λ e, is_Exception e = true) (text_to_speech env config text).
Proof.
  destruct Hni as (Hf & Hs & Hm & Hp & _).
  unfold text_to_speech, _get_temp_path.
  apply raises_bind;
    [apply raises_bind; [apply raises_get_clock | intros; apply raises_ret] |].
  intros mp3.
  apply raises_bind;
    [apply raises_bind; [apply raises_get_clock | intros; apply raises_ret] |].
  intros wav. apply raises_try_finally.
  - unfold text_to_speech_try. apply raises_try_except_body.
    + apply raises_bind; [apply raises_emit |]. intros k.
      apply raises_bind; [apply raises_from_result, Hs |]. intros response.
      apply raises_bind; [apply raises_write_file; intros ??; apply Hf |].
      intros _.
      apply raises_bind; [apply raises_emit |]. intros k'.
      apply raises_bind; [by apply raises_read_file |]. intros data.
      apply raises_bind; [apply raises_from_result, Hm |]. intros audio.
      apply raises_bind; [apply raises_write_file; intros ??; apply Hf |].
      intros _.
      apply raises_bind; [by apply raises_read_file |]. intros wav_data.
      apply raises_bind; [apply raises_emit |]. intros k''.
      apply raises_check, Hp.
    + intros e He. apply raises_bind; [apply raises_logger |].
      intros _. by apply raises_raise.
  - intros w e w' H.
    destruct (remove_temp_files_run [mp3; wav] w) as (w2 & evs & E & _).
    congruence.
Qed.

Lemma voice_input_try_run n path audio w :
  fs w !! path = Some audio →
  ∃ r w' evs,
    voice_input_try env config n path w = (Ok r, w') ∧ tidy w w' evs ∧
    recordings evs = 0%nat ∧ transcriptions evs = 1%nat ∧
    try_outcome (transcriptions_create env (length (trace w)) audio) r evs.
Proof.
  intros Hp. unfold voice_input_try, try_outcome.
  destruct (speech_to_text_run path audio w Hp)
    as (r3 & w3 & evs3 & Heq3 & Ht3 & Hf3 & Hw3 & Hs3 & Hr3 & Hx3 & Hk).
  assert (tidy w w3 evs3) as Htidy3.
  { split; [done |]. split; [by rewrite Hf3 |]. intros p. rewrite Hw3. inversion 1. }
  destruct (transcriptions_create env _ _) as [raw | e] eqn:Htr; subst r3.
  - destruct (truthy (strip raw)) eqn:Htext.
    + exists (Some (strip raw)), w3, evs3. split; [| done].
      apply try_except_ok. erewrite bind_ok by exact Heq3. by rewrite Htext.
    + destruct (text_to_speech_run apology w3)
        as (r4 & w4 & evs4 & Heq4 & Htidy4 & Hs4 & Hr4 & Hx4).
      pose proof (tidy_trans _ _ _ _ _ Htidy3 Htidy4) as Htidy.
      assert (speech_requests (evs3 ++ evs4) = [apology]
              ∧ recordings (evs3 ++ evs4) = 0%nat
              ∧ transcriptions (evs3 ++ evs4) = 1%nat) as (Hs & Hr & Hx).
      { revert Hs3 Hr3 Hx3 Hs4 Hr4 Hx4. obs. by intros -> -> -> -> -> ->. }
      destruct r4 as [[] | e].
      * exists None, w4, (evs3 ++ evs4). split; [| done].
        apply try_except_ok. erewrite bind_ok by exact Heq3. rewrite Htext.
        by erewrite bind_ok by exact Heq4.
      * eexists None, _, ((evs3 ++ evs4) ++ [_]). split.
        { rewrite (try_except_raise _ _ _ e w4); [reflexivity | |].
          - erewrite bind_ok by exact Heq3. rewrite Htext.
            by erewrite bind_raise by exact Heq4.
          - by eapply text_to_speech_raises_exception. }
        split; [apply (tidy_trans _ _ _ _ _ Htidy); split; [done |];
                split; [done |]; intros p; inversion 1 |].
        revert Hs Hr Hx. obs. by intros -> -> ->.
  - eexists None, _, (evs3 ++ [_]). split.
    { rewrite (try_except_raise _ _ _ e w3); [reflexivity | |].
      - by erewrite bind_raise by exact Heq3.
      - destruct Hni as (_ & _ & _ & _ & _ & Ht & _). by eapply Ht. }
    split; [apply (tidy_trans _ _ _ _ _ Htidy3); split; [done |];
            split; [done |]; intros p; inversion 1 |].
    revert Hs3 Hr3 Hx3. obs. by intros -> -> ->.
Qed.

Lemma voice_input_attempt_run n w :
  ∃ r w' evs,
    voice_input_attempt env config n w = (Ok r, w') ∧ tidy w w' evs ∧
    recordings evs = 1%nat ∧ attempt_outcome env (length (trace w)) r evs.
Proof.
  unfold voice_input_attempt, attempt_outcome.
  destruct (record_audio_run w)
    as (r1 & w1 & evs1 & Heq1 & Ht1 & Hf1 & Hw1 & Hs1 & Hr1 & Hx1 & Hsd & Hlen).
  assert (tidy w w1 evs1) as Htidy1.
  { split; [done |]. split; [by rewrite Hf1 |]. intros p. rewrite Hw1. inversion 1. }
  rewrite <- Hsd. destruct r1 as [audio | e].
  - destruct (save_audio_run audio w1) as (path & Heq2 & Hpath).
    set (w2 := set_fs _ _) in Heq2.
    assert (fs w2 !! path = Some audio) as Hp2
      by (subst w2; simpl; by rewrite lookup_insert_eq).
    assert (length (trace w2) = (length (trace w) + 3)%nat) as Hlen2.
    { subst w2. simpl. rewrite Ht1, !length_app, (Hlen _ eq_refl). simpl. lia. }
    destruct (voice_input_try_run n path audio w2 Hp2)
      as (r & w3 & evs3 & Heq3 & (Ht3 & Hf3 & Hw3) & Hr3 & Hx3 & Hout).
    rewrite Hlen2 in Hout.
    destruct (cleanup_audio_run path w3 Hpath)
      as (w4 & evs4 & Heq4 & Ht4 & Hf4 & Hw4 & Hs4 & Hr4 & Hx4).
    exists r, w4, (evs1 ++ [EvWrite path] ++ evs3 ++ evs4). split.
    { erewrite bind_ok;
        [| apply attempt_run; erewrite bind_ok by exact Heq1; exact Heq2].
      by eapply try_finally_run. }
    split; [split; [| split] |].
    + rewrite Ht4, Ht3. subst w2. simpl. rewrite Ht1. by rewrite <- !app_assoc.
    + rewrite Hf4. trans (delete path (fs w2)); [by apply delete_mono |].
      subst w2. simpl. rewrite delete_insert_eq, Hf1. apply delete_subseteq.
    + intros p. unfold written. rewrite !omap_app, !elem_of_app.
      fold (written evs1) (written evs3) (written evs4). rewrite Hw1, Hw4, Hf4.
      simpl. intros [Hp | [Hp | [Hp | Hp]]]; try by inversion Hp.
      * apply list_elem_of_singleton in Hp as ->. apply lookup_delete_eq.
      * apply lookup_delete_None. right. by apply Hw3.
    + assert (recordings (evs1 ++ [EvWrite path] ++ evs3 ++ evs4) = 1%nat
              ∧ transcriptions (evs1 ++ [EvWrite path] ++ evs3 ++ evs4) = 1%nat)
        as [Hr Hx].
      { revert Hr1 Hx1 Hr3 Hx3 Hr4 Hx4. obs. by intros -> -> -> -> -> ->. }
      assert (speech_requests (evs1 ++ [EvWrite path] ++ evs3 ++ evs4)
              = speech_requests evs3) as Hspeech.
      { revert Hs1 Hs4. obs. intros -> ->. by rewrite app_nil_r. }
      split; [done |]. split; [done |]. revert Hout. unfold try_outcome.
      destruct (transcriptions_create env _ _); [destruct (truthy _) |];
        by rewrite Hspeech.
  - exists None. eexists _, (evs1 ++ [_]). split.
    { erewrite bind_ok;
        [| apply attempt_run; by erewrite bind_raise by exact Heq1].
      assert (try_except (raise e) (voice_input_except n) w1
              = voice_input_except n e w1) as Hex.
      { apply try_except_raise; [reflexivity |].
        destruct Hni as (_ & _ & _ & _ & Hr & _). by eapply Hr. }
      eapply try_finally_run; [rewrite Hex; reflexivity | reflexivity]. }
    split; [apply (tidy_trans _ _ _ _ _ Htidy1); split; [done |];
            split; [done |]; intros p; inversion 1 |].
    revert Hs1 Hr1 Hx1. obs. by intros -> -> ->.
Qed.


Lemma attempt_outcome_facts k r evs :
  attempt_outcome env k r evs →
  (transcriptions evs ≤ 1)%nat ∧
  (recording_works env → transcriptions evs = 1%nat) ∧
  (transcription_always_raises env → r = None ∧ speech_requests evs = []) ∧
  (recording_works env → transcripts_all_space env →
   r = None ∧ speech_requests evs = [apology]).
Proof.
  unfold attempt_outcome, try_outcome.
  destruct (sd_rec env (S k)) as [audio | e] eqn:Hrec.
  - intros [Hx Hout]. split; [lia |]. split; [done |]. split.
    + intros Hraise. destruct (Hraise (k + 3)%nat audio) as [e He].
      by rewrite He in Hout.
    + intros _ Hspace. destruct (Hspace (k + 3)%nat audio) as (raw & Hraw & Hall).
      rewrite Hraw, (strip_all_space _ Hall) in Hout. done.
  - intros (-> & Hs & Hx). split; [lia |].
    split; [intros Hw; destruct (Hw (S k)); congruence |].
    split; [done |]. intros Hw; destruct (Hw (S k)); congruence.
Qed.


Lemma voice_input_loop_run attempts w :
  ∃ r w' evs,
    voice_input_loop env config attempts w = (r, w') ∧ tidy w w' evs ∧
    (recordings evs ≤ length attempts)%nat ∧
    (transcriptions evs ≤ recordings evs)%nat ∧
    (∀ e, r = Raise e → r = exhausted ∧ recordings evs = length attempts) ∧
    (recording_works env → transcriptions evs = recordings evs) ∧
    (transcription_always_raises env → r = exhausted ∧ speech_requests evs = []) ∧
    (recording_works env → transcripts_all_space env →
     r = exhausted ∧ speech_requests evs = replicate (length attempts) apology).
Proof.
  revert w. induction attempts as [| n rest IH]; intros w.
  - exists exhausted, w, []. split; [done |]. split; [apply tidy_refl |].
    simpl. repeat split; try done; lia.
  - destruct (voice_input_attempt_run n w)
      as (r1 & w1 & evs1 & Heq1 & Htidy1 & Hr1 & Hout).
    apply attempt_outcome_facts in Hout as (Hx1 & Hxw1 & Hraise1 & Hspace1).
    simpl. erewrite bind_ok by exact Heq1.
    destruct r1 as [text |].
    + exists (Ok text), w1, evs1. split; [done |]. split; [done |].
      rewrite Hr1. split; [lia |]. split; [lia |]. split; [done |].
      split; [intros Hw; by rewrite (Hxw1 Hw) |].
      split; [intros Hraise; by destruct (Hraise1 Hraise) |].
      intros Hw Hspace. by destruct (Hspace1 Hw Hspace).
    + destruct (IH w1)
        as (r & w' & evs & -> & Htidy & Hr & Hx & Hexh & Hxw & Hraise & Hspace).
      exists r, w', (evs1 ++ evs). split; [done |].
      split; [by eapply tidy_trans |].
      assert (recordings (evs1 ++ evs) = S (recordings evs)
              ∧ transcriptions (evs1 ++ evs)
                = (transcriptions evs1 + transcriptions evs)%nat
              ∧ speech_requests (evs1 ++ evs)
                = speech_requests evs1 ++ speech_requests evs) as (-> & -> & ->).
      { revert Hr1. obs. by intros ->. }
      split; [lia |]. split; [lia |].
      split; [intros e He; destruct (Hexh e He) as [-> ->]; done |].
      split; [intros Hw; rewrite (Hxw1 Hw), (Hxw Hw); lia |].
      split.
      * intros H. destruct (Hraise1 H) as [_ ->]. by destruct (Hraise H) as [-> ->].
      * intros Hw H. destruct (Hspace1 Hw H) as [_ ->].
        by destruct (Hspace Hw H) as [-> ->].
Qed.

Lemma speak_prompt_run (prompt : option string) w :
  ∃ r w' evs,
    speak_prompt env config prompt w = (r, w') ∧ tidy w w' evs ∧
    recordings evs = 0%nat ∧ transcriptions evs = 0%nat ∧
    speech_requests evs
    = match prompt with
      | Some p => if truthy p then [p] else []
      | None => []
      end.
Proof.
  unfold speak_prompt. destruct prompt as [p |]; [destruct (truthy p) |].
  - destruct (text_to_speech_run p w) as (r & w' & evs & ? & ? & ? & ? & ?).
    by exists r, w', evs.
  - exists (Ok tt), w, []. split; [done |]. split; [apply tidy_refl | done].
  - exists (Ok tt), w, []. split; [done |]. split; [apply tidy_refl | done].
Qed.

Lemma get_voice_input_run prompt w :
  prompt_spoken env config prompt w →
  ∃ r w' evs,
    get_voice_input env config prompt w = (r, w') ∧ tidy w w' evs ∧
    (recordings evs ≤ max_retries config)%nat ∧
    (transcriptions evs ≤ recordings evs)%nat ∧
    (∀ e, r = Raise e → r = exhausted ∧ recordings evs = max_retries config) ∧
    (recording_works env → transcriptions evs = recordings evs) ∧
    (transcription_always_raises env → r = exhausted) ∧
    (recording_works env → transcripts_all_space env → r = exhausted).
Proof.
  intros [w1 Hprompt]. unfold get_voice_input.
  destruct (speak_prompt_run prompt w)
    as (r0 & w0 & evs0 & Heq0 & Htidy0 & Hr0 & Hx0 & _).
  assert (r0 = Ok tt) as -> by congruence.
  destruct (voice_input_loop_run (seq 0 (max_retries config)) w0)
    as (r & w' & evs & Heq & Htidy & Hr & Hx & Hexh & Hxw & Hraise & Hspace).
  rewrite length_seq in *.
  exists r, w', (evs0 ++ evs). split.
  { by erewrite bind_ok by exact Heq0. }
  split; [by eapply tidy_trans |].
  assert (recordings (evs0 ++ evs) = recordings evs
          ∧ transcriptions (evs0 ++ evs) = transcriptions evs) as [-> ->].
  { revert Hr0 Hx0. obs. by intros -> ->. }
  repeat (split; [done |]).
  split; [intros H; by destruct (Hraise H) |].
  intros Hw H; by destruct (Hspace Hw H).
Qed.

End VoiceCapture.

(** *** The claims about [get_voice_input] *)

Ltac no_interrupt_by_cases :=
  unfold no_interrupt; repeat split; cbn; intros;
  repeat case_bool_decide; simplify_eq; reflexivity.

(** With the speech service down altogether, transcription raises on every
    call, but the prompt cannot be spoken: [get_voice_input] raises the
    exception of [text_to_speech] and makes no attempt at all. *)
Lemma get_voice_input_prompt_fails :
  transcription_always_raises env_speech_down ∧
  no_io_fault env_speech_down ∧
  ∃ w',
    get_voice_input env_speech_down sample_config (Some command_prompt)
      (fresh_world 1741100000)
    = (Raise (sample_error "speech service unavailable"), w') ∧
    recordings (trace w') = 0%nat ∧ transcriptions (trace w') = 0%nat ∧
    Raise (sample_error "speech service unavailable") ≠ exhausted.
Proof.
  split; [intros k audio; by eexists |]. split; [by intros k path |].
  eexists. split; [vm_compute; reflexivity |]. by repeat split.
Qed.

(** C3: when transcription raises on every call, no file operation fails
    and no collaborator raises the keyboard interrupt, what
    [get_voice_input] does depends on the prompt.  When the prompt, if
    any, is spoken without error, the loop body runs [max_retries] times
    (3 with the default configuration), recording once each time and
    asking for at most one transcription each time (exactly one when
    recording works), then [ValueError("Maximum retries reached")] is
    raised; every file written on the way is gone at the end and no other
    file has changed.  When the prompt cannot be spoken, the exception of
    [text_to_speech] is raised at once, before any attempt. *)
Theorem get_voice_input_retries_exhausted env config prompt w :
  transcription_always_raises env →
  no_io_fault env →
  no_interrupt env →
  (prompt_spoken env config prompt w →
   ∃ w' evs,
     get_voice_input env config prompt w = (exhausted, w') ∧
     recordings evs = max_retries config ∧
     (transcriptions evs ≤ max_retries config)%nat ∧
     (recording_works env → transcriptions evs = max_retries config) ∧
     tidy w w' evs) ∧
  (∀ e w0,
     speak_prompt env config prompt w = (Raise e, w0) →
     get_voice_input env config prompt w = (Raise e, w0) ∧
     ∃ evs, trace w0 = trace w ++ evs ∧ recordings evs = 0%nat) ∧
  (∀ home, max_retries (default_config home) = 3%nat).
Proof.
  intros Hraise Hio Hni. split; [| split; [| done]].
  - intros Hprompt.
    destruct (get_voice_input_run env config Hio Hni prompt w Hprompt)
      as (r & w' & evs & Heq & Htidy & Hr & Hx & Hexh & Hxw & Hr' & _).
    specialize (Hr' Hraise). subst r.
    destruct (Hexh _ eq_refl) as [_ Hn].
    exists w', evs. split; [done |]. split; [done |].
    split; [lia |]. split; [intros Hw; rewrite (Hxw Hw); lia |]. done.
  - intros e w0 Hp. split.
    + unfold get_voice_input. by rewrite (bind_raise _ _ _ _ _ Hp).
    + destruct (speak_prompt_run env config Hio prompt w)
        as (r & w1 & evs & Heq & (Ht & _) & Hr & _).
      rewrite Hp in Heq. injection Heq as <- <-. by exists evs.
Qed.

Lemma get_voice_input_retries_exhausted_witness :
  ∃ w' evs,
    get_voice_input env_stt_down sample_config
      (Some "What would you like to do?") (fresh_world 1741100000)
    = (exhausted, w') ∧
    recordings evs = 3%nat ∧
    (transcriptions evs ≤ 3)%nat ∧
    (recording_works env_stt_down → transcriptions evs = 3%nat) ∧
    tidy (fresh_world 1741100000) w' evs.
Proof.
  apply (get_voice_input_retries_exhausted env_stt_down sample_config
           (Some "What would you like to do?") (fresh_world 1741100000)).
  - intros k audio. eexists. reflexivity.
  - intros k path. reflexivity.
  - no_interrupt_by_cases.
  - exists (snd (speak_prompt env_stt_down sample_config
                   (Some "What would you like to do?") (fresh_world 1741100000))).
    vm_compute. reflexivity.
Defined.



(** ** Task creation: [create_task] *)

Lemma bind_raise_inv {A B} (m : M A) (k : A → M B) w e w' :
  bind m k w = (Raise e, w') →
  m w = (Raise e, w') ∨ ∃ a w1, m w = (Ok a, w1) ∧ k a w1 = (Raise e, w').
Proof.
  unfold bind. destruct (m w) as [[a | e1] w1].
  - intros H. right. eauto.
  - intros [= -> ->]. by left.
Qed.

(** The [try] block fails exactly when one of its three steps does, with
    the exception of that step. *)
Lemma create_task_try_raise_inv env config w e w' :
  create_task_try env config w = (Raise e, w') →
  get_voice_input env config (Some name_prompt) w = (Raise e, w')
  ∨ (∃ task_name w1,
       get_voice_input env config (Some name_prompt) w = (Ok task_name, w1) ∧
       get_voice_input env config (Some due_prompt) w1 = (Raise e, w'))
  ∨ (∃ task_name w1 date_str w2,
       get_voice_input env config (Some name_prompt) w = (Ok task_name, w1) ∧
       get_voice_input env config (Some due_prompt) w1 = (Ok date_str, w2) ∧
       parse_datetime env date_str w2 = (Raise e, w')).
Proof.
  unfold create_task_try. intros H.
  apply bind_raise_inv in H as [H | (task_name & w1 & H1 & H)]; [by left |].
  apply bind_raise_inv in H as [H | (date_str & w2 & H2 & H)];
    [right; left; eauto |].
  apply bind_raise_inv in H as [H | ([d t] & w3 & H3 & H)];
    [right; right; eauto 10 | discriminate H].
Qed.

(** A task is only built from two captured texts and the pair that
    [parse_datetime] made from a resolved datetime. *)
Lemma create_task_some_inv env config w task w' :
  create_task env config w = (Ok (Some task), w') →
  ∃ w1 date_str w2 dt,
    get_voice_input env config (Some name_prompt) w = (Ok (name task), w1) ∧
    get_voice_input env config (Some due_prompt) w1 = (Ok date_str, w2) ∧
    dateparser_parse env (clock w2) date_str = Some dt ∧
    parse_datetime env date_str w2 = (Ok (due_date task, deadline_time task), w').
Proof.
  unfold create_task. intros H.
  apply try_except_ok_inv in H as [H | (e & w1 & _ & H)].
  - unfold create_task_try in H.
    apply bind_ok_inv in H as (task_name & w1 & H1 & H).
    apply bind_ok_inv in H as (date_str & w2 & H2 & H).
    apply bind_ok_inv in H as ([d t] & w3 & H3 & H).
    injection H as <- <-. simpl. exists w1, date_str, w2.
    destruct (dateparser_parse env (clock w2) date_str) as [dt |] eqn:Hdt.
    + by exists dt.
    + apply parse_datetime_unresolved in Hdt. congruence.
  - unfold create_task_except in H.
    apply bind_ok_inv in H as (? & ? & _ & H).
    apply bind_ok_inv in H as (? & ? & _ & H). discriminate H.
Qed.

(** A task that [create_task] returns has a name that is not empty, the
    due date that [strftime] printed for the resolved datetime and a
    deadline time of the form HH:MM that [schedule_reminder] accepts. *)
Lemma create_task_well_formed env config w task w' :
  resolver_valid env →
  create_task env config w = (Ok (Some task), w') →
  truthy (name task) = true ∧
  (∃ dt, valid_datetime dt ∧ due_date task = strftime_Ymd dt) ∧
  is_HH_MM (deadline_time task) = true ∧
  ∃ tm, parse_at_time (deadline_time task) = Some tm.
Proof.
  intros Hvalid Hct.
  destruct (create_task_some_inv _ _ _ _ _ Hct)
    as (w1 & date_str & w2 & dt & Hname & _ & Hdt & Hparse).
  destruct (get_voice_input_ok_inv _ _ _ _ _ _ Hname) as [Htruthy _].
  rewrite (parse_datetime_resolved _ _ _ _ Hdt) in Hparse.
  injection Hparse as Hd Ht _. rewrite <- Hd, <- Ht.
  pose proof (Hvalid _ _ _ Hdt) as Hv.
  destruct Hv as (_ & _ & _ & Hh & Hm & _).
  split; [done |]. split; [exists dt; split; [by eapply Hvalid | done] |].
  destruct (time_is_min dt).
  - split; [done | by eexists].
  - split; [by apply strftime_HM_shape |].
    eexists. by apply parse_at_time_strftime_HM.
Qed.

(** With the speech service down the first step of the capture fails, and
    so does the attempt to speak the error: [create_task] raises. *)
Lemma create_task_raises_when_speech_is_down :
  (∃ e w1,
     create_task_try env_speech_down sample_config (fresh_world 1741100000)
     = (Raise e, w1)) ∧
  fst (create_task env_speech_down sample_config (fresh_world 1741100000))
  = Raise (sample_error "speech service unavailable") ∧
  ¬ ∃ w', create_task env_speech_down sample_config (fresh_world 1741100000)
          = (Ok None, w').
Proof.
  split; [| split].
  - eexists (sample_error "speech service unavailable"),
      (snd (create_task_try env_speech_down sample_config (fresh_world 1741100000))).
    vm_compute. reflexivity.
  - vm_compute. reflexivity.
  - intros [w' H]. apply (f_equal fst) in H. vm_compute in H. discriminate H.
Qed.

(** C8, amended: when one of the three capture steps fails with an
    [Exception] [e], no task is built; [create_task] logs the error and
    asks the speech service to say "Error creating task: " followed by
    [str(e)]; it returns [None] when that call returns, and raises the
    exception of that call when it raises.  The keyboard interrupt is not
    an [Exception]: it is neither logged nor spoken, and leaves
    [create_task] as it came.  A task is only ever built from a date text
    that the resolver resolved. *)
Theorem create_task_failure_reported env config w e w1 :
  create_task_try env config w = (Raise e, w1) →
  let msg := "Error creating task: " +:+ exn_msg e in
  let w2 := set_trace (trace w1 ++ [EvLog "ERROR" msg]) w1 in
  (get_voice_input env config (Some name_prompt) w = (Raise e, w1)
   ∨ (∃ task_name wa,
        get_voice_input env config (Some name_prompt) w = (Ok task_name, wa) ∧
        get_voice_input env config (Some due_prompt) wa = (Raise e, w1))
   ∨ (∃ task_name wa date_str wb,
        get_voice_input env config (Some name_prompt) w = (Ok task_name, wa) ∧
        get_voice_input env config (Some due_prompt) wa = (Ok date_str, wb) ∧
        parse_datetime env date_str wb = (Raise e, w1))) ∧
  (exn_class e ≠ "KeyboardInterrupt" →
   (∀ w3, text_to_speech env config msg w2 = (Ok tt, w3) →
          create_task env config w = (Ok None, w3)) ∧
   (∀ e' w3, text_to_speech env config msg w2 = (Raise e', w3) →
             create_task env config w = (Raise e', w3))) ∧
  (exn_class e = "KeyboardInterrupt" →
   create_task env config w = (Raise e, w1)) ∧
  (∀ task w', create_task env config w ≠ (Ok (Some task), w')) ∧
  (∀ v task v',
     create_task env config v = (Ok (Some task), v') →
     ∃ va date_str vb dt,
       get_voice_input env config (Some name_prompt) v = (Ok (name task), va) ∧
       get_voice_input env config (Some due_prompt) va = (Ok date_str, vb) ∧
       dateparser_parse env (clock vb) date_str = Some dt ∧
       parse_datetime env date_str vb
       = (Ok (due_date task, deadline_time task), v')).
Proof.
  intros Htry msg w2.
  assert (is_Exception e = true →
          create_task env config w
          = (do _ <- text_to_speech env config msg; ret None) w2) as Hct.
  { intros He. unfold create_task. rewrite (try_except_raise _ _ _ _ _ Htry He).
    unfold create_task_except. by erewrite bind_ok by apply logger_run. }
  assert (is_Exception e = false → create_task env config w = (Raise e, w1))
    as Hpass.
  { intros He. unfold create_task. by apply try_except_pass. }
  split; [by apply create_task_try_raise_inv |].
  split.
  { intros He%is_Exception_class. rewrite (Hct He). split.
    - intros w3 H. by erewrite bind_ok by exact H.
    - intros e' w3 H. by erewrite bind_raise by exact H. }
  split.
  { intros He. apply Hpass. destruct (is_Exception e) eqn:E; [| done].
    by apply is_Exception_class in E. }
  split; [| intros v task v'; apply create_task_some_inv].
  intros task w' H. destruct (is_Exception e) eqn:E.
  - rewrite (Hct eq_refl) in H.
    apply bind_ok_inv in H as (? & ? & _ & H). discriminate H.
  - rewrite (Hpass eq_refl) in H. discriminate H.
Qed.

Lemma create_task_failure_reported_witness :
  ∃ w3,
    text_to_speech env_stt_down sample_config
      ("Error creating task: " +:+ "Maximum retries reached")
      (set_trace
         (trace (snd (create_task_try env_stt_down sample_config
                        (fresh_world 1741100000)))
          ++ [EvLog "ERROR" ("Error creating task: " +:+ "Maximum retries reached")])
         (snd (create_task_try env_stt_down sample_config (fresh_world 1741100000))))
    = (Ok tt, w3) ∧
    create_task env_stt_down sample_config (fresh_world 1741100000) = (Ok None, w3).
Proof.
  eexists. split; [vm_compute; reflexivity |].
  refine (proj1 (proj1 (proj2 (create_task_failure_reported env_stt_down sample_config
           (fresh_world 1741100000) (ValueError "Maximum retries reached")
           (snd (create_task_try env_stt_down sample_config (fresh_world 1741100000)))
           _)) _) _ _).
  - vm_compute. reflexivity.
  - vm_compute. discriminate.
  - vm_compute. reflexivity.
Defined.

(** ** The scheduler: [schedule_reminder] and [run_pending] *)

(** *** Times of day *)

Lemma time_of_day_range t : 0 ≤ time_of_day t < DAY.
Proof. apply Z.mod_pos_bound. unfold DAY. lia. Qed.

Lemma time_of_day_shift t tm :
  0 ≤ tm < DAY → time_of_day (t - time_of_day t + tm) = tm.
Proof.
  intros Htm. unfold time_of_day.
  pose proof (Z.div_mod t DAY ltac:(unfold DAY; lia)) as Hdm.
  replace (t - t mod DAY + tm) with (tm + (t / DAY) * DAY) by lia.
  rewrite Z.mod_add by (unfold DAY; lia). by apply Z.mod_small.
Qed.

Lemma replace_time_next_day now tm :
  replace_time (now + DAY) tm = now - time_of_day now + DAY + tm.
Proof.
  unfold replace_time, time_of_day.
  replace (now + DAY) with (now + 1 * DAY) at 2 by lia.
  rewrite Z.mod_add by (unfold DAY; lia). lia.
Qed.

Lemma schedule_next_run_first now job :
  last_run job = None →
  next_run (_schedule_next_run now job) = next_occurrence (at_time job) now.
Proof.
  intros Hl. unfold _schedule_next_run, next_occurrence. rewrite Hl. simpl.
  rewrite replace_time_next_day.
  destruct (bool_decide (time_of_day now < at_time job)); simpl; lia.
Qed.

Lemma schedule_next_run_after now job :
  next_run (_schedule_next_run now (set_last_run now job))
  = next_occurrence (at_time job) now.
Proof.
  unfold _schedule_next_run, next_occurrence. simpl.
  rewrite replace_time_next_day.
  destruct (bool_decide (time_of_day now < at_time job)) eqn:Hlt.
  - apply bool_decide_eq_true in Hlt.
    rewrite bool_decide_eq_true_2 by lia. simpl. lia.
  - rewrite andb_false_r. simpl. lia.
Qed.

Lemma next_occurrence_gt tm now : 0 ≤ tm < DAY → now < next_occurrence tm now.
Proof.
  intros Htm. unfold next_occurrence. pose proof (time_of_day_range now).
  case_bool_decide; lia.
Qed.

Lemma next_occurrence_within_a_day tm now :
  0 ≤ tm < DAY → next_occurrence tm now ≤ now + DAY.
Proof.
  intros Htm. unfold next_occurrence. pose proof (time_of_day_range now).
  case_bool_decide; lia.
Qed.

Lemma next_occurrence_time_of_day tm now :
  0 ≤ tm < DAY → time_of_day (next_occurrence tm now) = tm.
Proof.
  intros Htm. unfold next_occurrence. case_bool_decide.
  - by apply time_of_day_shift.
  - replace (now - time_of_day now + DAY + tm)
      with (now + DAY - time_of_day (now + DAY) + tm).
    + by apply time_of_day_shift.
    + unfold time_of_day. replace (now + DAY) with (now + 1 * DAY) at 2 by lia.
      rewrite Z.mod_add by (unfold DAY; lia). lia.
Qed.

(** It is the first such time: any later time with that time of day is at
    or after it. *)
Lemma next_occurrence_le tm b c :
  b < c → time_of_day c = tm → next_occurrence tm b ≤ c.
Proof.
  intros Hbc Hc. unfold next_occurrence, time_of_day in *.
  pose proof (Z.div_mod b DAY ltac:(unfold DAY; lia)) as Hb.
  pose proof (Z.div_mod c DAY ltac:(unfold DAY; lia)) as Hcc.
  pose proof (Z.mod_pos_bound b DAY ltac:(unfold DAY; lia)).
  pose proof (Z.mod_pos_bound c DAY ltac:(unfold DAY; lia)).
  unfold DAY in *.
  case_bool_decide; lia.
Qed.

Lemma two_digits_range a b n : two_digits a b = Some n → 0 ≤ n.
Proof.
  unfold two_digits, is_digit, digit_val.
  destruct (_ && _) eqn:Hd; [| done]. intros [= <-].
  apply andb_true_iff in Hd as [Ha Hb].
  apply andb_true_iff in Ha as [Ha _]. apply andb_true_iff in Hb as [Hb _].
  apply Z.leb_le in Ha, Hb. lia.
Qed.

Lemma at_time_fields_range s h m sec :
  at_time_fields s = Some (h, m, sec) →
  0 ≤ h ≤ 29 ∧ 0 ≤ m ≤ 59 ∧ 0 ≤ sec ≤ 59.
Proof.
  unfold at_time_fields.
  destruct s as [| h1 [| h2 [| c1 [| m1 [| m2 rest]]]]]; try done.
  destruct (bool_decide (c1 = ":"%char)); [| done].
  destruct (two_digits h1 h2) as [h' |] eqn:Hh; [| done].
  destruct (two_digits m1 m2) as [m' |] eqn:Hm; [| done]. cbn.
  intros H.
  assert (∃ sec', 0 ≤ sec' ∧
                  (if (h' <=? 29) && (m' <=? 59) && (sec' <=? 59)
                   then Some (h', m', sec') else None) = Some (h, m, sec))
    as (sec' & Hs0 & Hle).
  { destruct (at_end rest).
    - by exists 0.
    - destruct rest as [| c2 [| s1 [| s2 rest']]]; try done.
      destruct (bool_decide (c2 = ":"%char) && at_end rest'); [| done].
      destruct (two_digits s1 s2) as [sec' |] eqn:Hsec; [| done].
      exists sec'. split; [by eapply two_digits_range | done]. }
  destruct ((h' <=? 29) && (m' <=? 59) && (sec' <=? 59)) eqn:Hb; [| done].
  injection Hle as <- <- <-.
  apply two_digits_range in Hh, Hm.
  apply andb_true_iff in Hb as [Hb Hs]. apply andb_true_iff in Hb as [Hh' Hm'].
  apply Z.leb_le in Hh', Hm', Hs. lia.
Qed.

Lemma parse_at_time_range s tm : parse_at_time s = Some tm → 0 ≤ tm < DAY.
Proof.
  unfold parse_at_time, DAY.
  destruct (at_time_fields s) as [[[h m] sec] |] eqn:E; [| done]. cbn.
  apply at_time_fields_range in E.
  destruct (h <=? 23) eqn:Hh; [| done]. apply Z.leb_le in Hh.
  intros [= <-]. lia.
Qed.

(** *** Jobs in the scheduler's list *)

Lemma once_elem_of ref l : once ref l → ref ∈ l.
Proof.
  intros (l1 & l2 & -> & _). apply elem_of_app. right. apply elem_of_cons. by left.
Qed.

Lemma once_singleton ref : once ref [ref].
Proof. exists [], []. split; [done |]. split; apply not_elem_of_nil. Qed.

Lemma once_snoc ref l : ref ∉ l → once ref (l ++ [ref]).
Proof. intros H. exists l, []. split; [done |]. split; [done | apply not_elem_of_nil]. Qed.

Lemma once_Permutation ref l l' : l ≡ₚ l' → once ref l → once ref l'.
Proof.
  intros Hp (l1 & l2 & -> & H1 & H2).
  assert (ref ∈ l') as Hin.
  { rewrite <- Hp. apply elem_of_app. right. apply elem_of_cons. by left. }
  apply list_elem_of_split in Hin as (l1' & l2' & ->).
  exists l1', l2'. split; [done |].
  apply Permutation_app_inv in Hp.
  assert (ref ∉ l1' ++ l2') as Hn.
  { rewrite <- Hp. by intros [? | ?]%elem_of_app. }
  split; intros ?; apply Hn, elem_of_app; auto.
Qed.

Lemma once_filter (P : nat → Prop) `{∀ x, Decision (P x)} ref l :
  P ref → once ref l → once ref (filter P l).
Proof.
  intros HP (l1 & l2 & -> & H1 & H2).
  exists (filter P l1), (filter P l2).
  rewrite filter_app, filter_cons_True by done. split; [done |].
  split; rewrite list_elem_of_filter; tauto.
Qed.

Lemma remove_first_other ref r l : r ≠ ref → ref ∉ l → ref ∉ remove_first r l.
Proof.
  intros Hne. induction l as [| x l IH]; simpl; [done |].
  intros Hn. apply not_elem_of_cons in Hn as [Hx Hl].
  case_bool_decide; [done |]. apply not_elem_of_cons. auto.
Qed.

Lemma once_remove_first ref r l : r ≠ ref → once ref l → once ref (remove_first r l).
Proof.
  intros Hne (l1 & l2 & -> & H1 & H2).
  induction l1 as [| x l1 IH]; simpl.
  - rewrite bool_decide_eq_false_2 by done.
    exists [], (remove_first r l2). split; [done |].
    split; [apply not_elem_of_nil | by apply remove_first_other].
  - apply not_elem_of_cons in H1 as [Hx H1]. case_bool_decide.
    + by exists l1, l2.
    + destruct (IH H1) as (l1' & l2' & -> & ? & ?).
      exists (x :: l1'), l2'. split; [done |]. split; [| done].
      apply not_elem_of_cons. auto.
Qed.

Lemma insert_job_Permutation store ref l : insert_job store ref l ≡ₚ ref :: l.
Proof.
  induction l as [| r l IH]; simpl; [done |].
  case_bool_decide; [| done]. rewrite IH. apply Permutation_swap.
Qed.

Lemma sorted_jobs_Permutation store l : sorted_jobs store l ≡ₚ l.
Proof.
  induction l as [| r l IH]; simpl; [done |].
  by rewrite insert_job_Permutation, IH.
Qed.

(** Whether a pass of [run_pending] runs a job. *)
Lemma elem_of_runnable_jobs ref w :
  ref ∈ runnable_jobs w ↔
  ref ∈ jobs w ∧ ref_should_run (job_store w) (clock w) ref = true.
Proof.
  unfold runnable_jobs. rewrite sorted_jobs_Permutation, list_elem_of_filter.
  rewrite Is_true_true. tauto.
Qed.

Lemma once_runnable_jobs ref w :
  once ref (jobs w) → ref_should_run (job_store w) (clock w) ref = true →
  once ref (runnable_jobs w).
Proof.
  intros Ho Hr. unfold runnable_jobs.
  eapply once_Permutation; [symmetry; apply sorted_jobs_Permutation |].
  apply once_filter; [by apply Is_true_true | done].
Qed.

Lemma runnable_jobs_single ref w :
  jobs w = [ref] →
  runnable_jobs w
  = if ref_should_run (job_store w) (clock w) ref then [ref] else [].
Proof.
  intros Hj. unfold runnable_jobs. rewrite Hj.
  destruct (ref_should_run _ _ _) eqn:Hr.
  - by rewrite filter_cons_True by (by apply Is_true_true).
  - rewrite filter_cons_False; [done |]. rewrite Is_true_true. congruence.
Qed.

Lemma schedule_next_run_after_eq now job :
  _schedule_next_run now (set_last_run now job)
  = mkJob (at_time job) (next_occurrence (at_time job) now) (Some now)
      (cancel_after job) (job_func job).
Proof.
  pose proof (schedule_next_run_after now job) as H. revert H.
  unfold _schedule_next_run. destruct (_ && _); simpl; by intros ->.
Qed.

Lemma schedule_next_run_first_eq now tm f :
  _schedule_next_run now (mkJob tm 0 None None f)
  = mkJob tm (next_occurrence tm now) None None f.
Proof.
  pose proof (schedule_next_run_first now (mkJob tm 0 None None f) eq_refl) as H.
  revert H. unfold _schedule_next_run. destruct (_ && _); simpl; by intros ->.
Qed.

Section Scheduler.

Context (env : Env).

Lemma send_whatsapp_message_run message w :
  ∃ r logs,
    send_whatsapp_message env message w
    = (r, set_trace
            (trace w ++
             EvSend message ("whatsapp:" +:+ twilio_whatsapp_number env)
               ("whatsapp:" +:+ user_whatsapp_number env) :: logs) w) ∧
    sent logs = [] ∧
    r = match messages_create env (length (trace w)) message with
        | None => Ok tt
        | Some e => Raise e
        end.
Proof.
  unfold send_whatsapp_message. mrun. simpl.
  destruct (messages_create env _ _) as [e |]; simpl;
    [destruct (is_Exception e); simpl |].
  - eexists _, [_]. rewrite <- app_assoc. by split.
  - by eexists _, [].
  - eexists _, [_]. rewrite <- app_assoc. by split.
Qed.

(** Running the job of a reminder calls [send_whatsapp_message] once with
    the reminder text, and when the call returns the job is set to its
    next occurrence and stays registered. *)
Lemma run_job_reminder ref tm task job v :
  job_store v !! ref = Some job → reminder_job tm task job →
  ∃ r v' evs,
    _run_job env ref v = (r, v') ∧
    trace v' = trace v ++ evs ∧ sent evs = [reminder_message task] ∧
    clock v' = clock v ∧ jobs v' = jobs v ∧ fs v' = fs v ∧
    r = match messages_create env (length (trace v)) (reminder_message task) with
        | None => Ok tt
        | Some e => Raise e
        end ∧
    job_store v'
    = match r with
      | Ok _ =>
          <[ref := mkJob tm (next_occurrence tm (clock v)) (Some (clock v)) None
                     (send_reminder task)]> (job_store v)
      | Raise _ => job_store v
      end.
Proof.
  intros Hjob (Ht & Hf & Hc).
  destruct (send_whatsapp_message_run (reminder_message task) v)
    as (r & logs & Hsend & Hlog & Hr).
  unfold _run_job, job_run, get_job, put_job, cancel_job, call_job_func. mrun.
  rewrite Hjob. unfold _is_overdue at 1. rewrite Hc, Hf, Hsend.
  destruct r as [[] | e]; simpl.
  - rewrite Hjob, schedule_next_run_after_eq. unfold _is_overdue. simpl.
    rewrite Hc, Ht, Hf. simpl.
    eexists (Ok tt), _, (_ :: logs). split; [done |]. simpl.
    split; [done |]. unfold sent in *. simpl. rewrite Hlog. done.
  - eexists (Raise e), _, (_ :: logs). split; [done |]. simpl.
    split; [done |]. unfold sent in *. simpl. rewrite Hlog. done.
Qed.

(** What running any job can do to the world. *)
Lemma run_job_frame ref v :
  ∃ r v' evs,
    _run_job env ref v = (r, v') ∧
    trace v' = trace v ++ evs ∧ clock v' = clock v ∧ fs v' = fs v ∧
    (job_store v' = job_store v ∨ ∃ job, job_store v' = <[ref := job]> (job_store v)) ∧
    (jobs v' = jobs v ∨ jobs v' = remove_first ref (jobs v)).
Proof.
  unfold _run_job, job_run, get_job, put_job, cancel_job, call_job_func. mrun.
  destruct (job_store v !! ref) as [job |] eqn:Hjob.
  2:{ eexists _, _, []. split; [done |]. rewrite app_nil_r. auto 10. }
  destruct (_is_overdue job (clock v)).
  { eexists _, _, []. split; [done |]. simpl. rewrite app_nil_r. auto 10. }
  destruct (job_func job) as [task].
  destruct (send_whatsapp_message_run (reminder_message task) v)
    as (r & logs & -> & Hlog & Hr).
  destruct r as [[] | e]; simpl.
  - rewrite Hjob. destruct (_is_overdue _ _); simpl.
    all: eexists _, _, (_ :: logs); (split; [done |]); simpl; eauto 10.
  - eexists _, _, (_ :: logs). split; [done |]. simpl. auto 10.
Qed.

Lemma run_job_other ref ref' v r v' :
  ref' ≠ ref → _run_job env ref' v = (r, v') →
  job_store v' !! ref = job_store v !! ref ∧
  length (job_store v') = length (job_store v) ∧
  (once ref (jobs v) → once ref (jobs v')) ∧
  clock v' = clock v ∧ ∃ evs, trace v' = trace v ++ evs.
Proof.
  intros Hne Hrun.
  destruct (run_job_frame ref' v) as (r0 & v0 & evs & Heq & Ht & Hc & _ & Hs & Hj).
  rewrite Hrun in Heq. injection Heq as <- <-.
  split; [destruct Hs as [-> | [job ->]]; [done | by apply list_lookup_insert_ne] |].
  split; [destruct Hs as [-> | [job ->]]; [done | by apply length_insert] |].
  split; [destruct Hj as [-> | ->]; [done | by apply once_remove_first] |].
  eauto.
Qed.

Lemma run_jobs_other ref l v r v' :
  ref ∉ l → run_jobs env l v = (r, v') →
  job_store v' !! ref = job_store v !! ref ∧
  length (job_store v') = length (job_store v) ∧
  (once ref (jobs v) → once ref (jobs v')) ∧
  clock v' = clock v ∧ ∃ evs, trace v' = trace v ++ evs.
Proof.
  revert v. induction l as [| ref' l IH]; intros v Hn Hrun; simpl in Hrun.
  - injection Hrun as <- <-. split; [done |]. split; [done |]. split; [done |].
    split; [done |]. exists []. by rewrite app_nil_r.
  - apply not_elem_of_cons in Hn as [Hne Hn].
    destruct (_run_job env ref' v) as [[[] | e] v1] eqn:H1.
    + erewrite bind_ok in Hrun by exact H1.
      destruct (run_job_other ref ref' v _ _ ltac:(done) H1)
        as (Hs1 & Hl1 & Ho1 & Hc1 & evs1 & Ht1).
      destruct (IH v1 Hn Hrun) as (Hs & Hl & Ho & Hc & evs & Ht).
      rewrite Hs, Hl, Hc, Ht, Ht1, <- app_assoc. eauto 10.
    + erewrite bind_raise in Hrun by exact H1. injection Hrun as <- <-.
      by apply (run_job_other ref ref' v _ _ ltac:(done) H1).
Qed.

Lemma run_jobs_app l1 l2 v :
  run_jobs env (l1 ++ l2) v = (run run_jobs env l1; run_jobs env l2) v.
Proof.
  revert v. induction l1 as [| ref l1 IH]; intros v; simpl; [done |].
  unfold bind in *. destruct (_run_job env ref v) as [[[] | e] v1]; [| done].
  apply IH.
Qed.


Lemma run_jobs_single ref v :
  run_jobs env [ref] v = _run_job env ref v.
Proof.
  simpl. unfold bind, ret. by destruct (_run_job env ref v) as [[[] | e] v'].
Qed.

Lemma schedule_reminder_run task w tm :
  parse_at_time (deadline_time task) = Some tm →
  ∃ log,
    schedule_reminder task w
    = (Ok tt,
       set_trace (trace w ++ [log])
         (set_jobs (jobs w ++ [length (job_store w)])
            (set_job_store
               (job_store w ++
                [mkJob tm (next_occurrence tm (clock w)) None None
                   (send_reminder task)]) w))) ∧
    ev_sent log = None.
Proof.
  intros Hp. unfold schedule_reminder, every_day_at_do. rewrite Hp. mrun.
  rewrite schedule_next_run_first_eq. simpl. by eexists.
Qed.

(** [schedule_reminder] raises, and registers nothing, when the deadline
    time is not of the form the scheduler accepts. *)
Lemma schedule_reminder_invalid task w :
  parse_at_time (deadline_time task) = None →
  ∃ e, schedule_reminder task w = (Raise e, w).
Proof.
  intros Hp. unfold schedule_reminder, every_day_at_do. rewrite Hp. mrun.
  by eexists.
Qed.

Lemma run_job_preserves ref tm task ref' v r v' :
  _run_job env ref' v = (r, v') → registered ref tm task v →
  registered ref tm task v' ∧ (scheduled ref tm v → scheduled ref tm v') ∧
  clock v' = clock v ∧ ∃ evs, trace v' = trace v ++ evs.
Proof.
  intros Hrun (Ho & job & Hjob & Hrem).
  destruct (decide (ref' = ref)) as [-> | Hne].
  - destruct (run_job_reminder ref tm task job v Hjob Hrem)
      as (r0 & v0 & evs & Heq & Ht & _ & Hc & Hj & _ & _ & Hs).
    rewrite Hrun in Heq. injection Heq as <- <-.
    assert (ref < length (job_store v))%nat as Hlt by (by eapply lookup_lt_Some).
    destruct r as [[] | e].
    + split; [split; [by rewrite Hj |] |].
      * eexists. rewrite Hs, list_lookup_insert_eq by done. by split.
      * split; [| eauto]. intros _. eexists _, (clock v).
        rewrite Hs, list_lookup_insert_eq by done. rewrite Hc. by split.
    + split; [split; [by rewrite Hj | rewrite Hs; eauto] |].
      split; [| eauto]. intros (j & b & Hj' & ?). exists j, b. by rewrite Hs, Hc.
  - destruct (run_job_other ref ref' v r v' Hne Hrun) as (Hs & _ & Ho' & Hc & Ht).
    split; [split; [auto | rewrite Hs; eauto] |].
    split; [| eauto]. intros (j & b & Hj' & ?). exists j, b. by rewrite Hs, Hc.
Qed.

Lemma run_jobs_preserves ref tm task l v r v' :
  run_jobs env l v = (r, v') → registered ref tm task v →
  registered ref tm task v' ∧ (scheduled ref tm v → scheduled ref tm v') ∧
  clock v' = clock v ∧ ∃ evs, trace v' = trace v ++ evs.
Proof.
  revert v. induction l as [| ref' l IH]; intros v Hrun Hreg; simpl in Hrun.
  - injection Hrun as <- <-. split; [done |]. split; [done |]. split; [done |].
    exists []. by rewrite app_nil_r.
  - destruct (_run_job env ref' v) as [[[] | e] v1] eqn:H1.
    + erewrite bind_ok in Hrun by exact H1.
      destruct (run_job_preserves ref tm task ref' v _ _ H1 Hreg)
        as (Hreg1 & Hs1 & Hc1 & evs1 & Ht1).
      destruct (IH v1 Hrun Hreg1) as (Hreg' & Hs & Hc & evs & Ht).
      rewrite Hc, Ht, Ht1, <- app_assoc. eauto 10.
    + erewrite bind_raise in Hrun by exact H1. injection Hrun as <- <-.
      by eapply run_job_preserves.
Qed.

(** A pass that returns has called [send_whatsapp_message] with the
    reminder of every registered reminder job that it ran. *)
Lemma run_jobs_fires ref tm task l v v' :
  run_jobs env l v = (Ok tt, v') → registered ref tm task v → ref ∈ l →
  ∃ evs, trace v' = trace v ++ evs ∧ reminder_message task ∈ sent evs.
Proof.
  revert v. induction l as [| ref' l IH]; intros v Hrun Hreg Hin; simpl in Hrun.
  - by apply elem_of_nil in Hin.
  - destruct (_run_job env ref' v) as [[[] | e] v1] eqn:H1.
    2:{ erewrite bind_raise in Hrun by exact H1. discriminate Hrun. }
    erewrite bind_ok in Hrun by exact H1.
    destruct (run_job_preserves ref tm task ref' v _ _ H1 Hreg)
      as (Hreg1 & _ & _ & evs1 & Ht1).
    destruct (decide (ref' = ref)) as [-> | Hne].
    + destruct Hreg as (_ & job & Hjob & Hrem).
      destruct (run_job_reminder ref tm task job v Hjob Hrem)
        as (r0 & v0 & evs0 & Heq & Ht0 & Hsent & _).
      rewrite H1 in Heq. injection Heq as <- <-.
      destruct (run_jobs_preserves ref tm task l v1 _ _ Hrun Hreg1)
        as (_ & _ & _ & evs & Ht).
      exists (evs0 ++ evs). split; [by rewrite Ht, Ht0, app_assoc |].
      unfold sent in *. rewrite omap_app, Hsent. apply elem_of_app. left.
      apply elem_of_cons. by left.
    + apply elem_of_cons in Hin as [-> | Hin]; [done |].
      destruct (IH v1 Hrun Hreg1 Hin) as (evs & Ht & Hsent).
      exists (evs1 ++ evs). split; [by rewrite Ht, Ht1, app_assoc |].
      unfold sent in *. rewrite omap_app. apply elem_of_app. by right.
Qed.

Lemma poll_loop_preserves ref tm task sleeps w r w' :
  poll_loop env sleeps w = (r, w') → registered ref tm task w →
  registered ref tm task w'.
Proof.
  revert w. induction sleeps as [| d sleeps IH]; intros w Hrun Hreg; simpl in Hrun.
  - by injection Hrun as <- <-.
  - unfold run_pending in Hrun.
    destruct (run_jobs env (runnable_jobs w) w) as [[[] | e] w1] eqn:H1.
    + unfold bind at 1 in Hrun. rewrite H1 in Hrun.
      unfold bind at 1, time_sleep in Hrun.
      eapply IH; [exact Hrun |].
      destruct (run_jobs_preserves ref tm task _ w _ _ H1 Hreg) as (Hreg1 & _).
      exact Hreg1.
    + unfold bind at 1 in Hrun. rewrite H1 in Hrun. injection Hrun as <- <-.
      by destruct (run_jobs_preserves ref tm task _ w _ _ H1 Hreg).
Qed.

Lemma poll_loop_scheduled ref tm task sleeps w w' :
  Forall (λ d, 1 ≤ d) sleeps → sleeps ≠ [] →
  poll_loop env sleeps w = (Ok tt, w') →
  registered ref tm task w → scheduled ref tm w →
  ∃ job b, job_store w' !! ref = Some job ∧
           next_run job = next_occurrence tm b ∧ b < clock w'.
Proof.
  revert w. induction sleeps as [| d sleeps IH]; intros w Hd Hne Hrun Hreg Hs;
    [done |].
  apply Forall_cons in Hd as [Hd Hds]. simpl in Hrun. unfold run_pending in Hrun.
  destruct (run_jobs env (runnable_jobs w) w) as [[[] | e] w1] eqn:H1.
  2:{ unfold bind at 1 in Hrun. rewrite H1 in Hrun. discriminate Hrun. }
  unfold bind at 1 in Hrun. rewrite H1 in Hrun.
  unfold bind at 1, time_sleep in Hrun.
  destruct (run_jobs_preserves ref tm task _ w _ _ H1 Hreg)
    as (Hreg1 & Hs1 & Hc1 & _).
  destruct (Hs1 Hs) as (job & b & Hjob & Hnext & Hb).
  destruct sleeps as [| d' sleeps].
  - simpl in Hrun. injection Hrun as <-. exists job, b. simpl.
    split; [done |]. split; [done | lia].
  - eapply (IH _ Hds ltac:(done) Hrun); [done |].
    exists job, b. simpl. split; [done |]. split; [done | lia].
Qed.

End Scheduler.

(** *** The reminder job alone in the scheduler *)

Lemma next_occurrence_same_day tm due c :
  time_of_day due = tm → due ≤ c < due + DAY →
  next_occurrence tm c = due + DAY.
Proof.
  intros Hdue Hc. unfold next_occurrence, time_of_day in *.
  pose proof (Z.div_mod due DAY ltac:(unfold DAY; lia)) as Hd.
  pose proof (Z.div_mod c DAY ltac:(unfold DAY; lia)) as Hcc.
  pose proof (Z.mod_pos_bound due DAY ltac:(unfold DAY; lia)).
  pose proof (Z.mod_pos_bound c DAY ltac:(unfold DAY; lia)).
  unfold DAY in *. case_bool_decide; lia.
Qed.

Lemma run_pending_not_due env ref tm task nr v :
  only_job ref tm task nr v → clock v < nr → run_pending env v = (Ok tt, v).
Proof.
  intros (Hj & job & Hjob & _ & Hnr) Hlt. unfold run_pending.
  rewrite (runnable_jobs_single _ _ Hj). unfold ref_should_run, should_run.
  rewrite Hjob. simpl. by rewrite bool_decide_eq_false_2 by lia.
Qed.

Lemma run_pending_due env ref tm task nr v :
  only_job ref tm task nr v → nr ≤ clock v → 0 ≤ tm < DAY →
  ∃ r v' evs,
    run_pending env v = (r, v') ∧ trace v' = trace v ++ evs ∧
    sent evs = [reminder_message task] ∧ clock v' = clock v ∧
    (r = Ok tt → only_job ref tm task (next_occurrence tm (clock v)) v').
Proof.
  intros (Hj & job & Hjob & Hrem & Hnr) Hle Htm. unfold run_pending.
  rewrite (runnable_jobs_single _ _ Hj). unfold ref_should_run, should_run.
  rewrite Hjob. simpl. rewrite bool_decide_eq_true_2 by lia.
  rewrite run_jobs_single.
  destruct (run_job_reminder env ref tm task job v Hjob Hrem)
    as (r & v' & evs & Hrun & Htr & Hsent & Hcl & Hjobs & _ & _ & Hstore).
  exists r, v', evs. split; [done |]. split; [done |]. split; [done |].
  split; [done |]. intros ->. split; [by rewrite Hjobs |].
  assert (ref < length (job_store v))%nat by (by eapply lookup_lt_Some).
  eexists. rewrite Hstore, list_lookup_insert_eq by done. by split.
Qed.

Lemma poll_loop_quiet env ref tm task nr sleeps v :
  only_job ref tm task nr v →
  Forall (λ t, t < nr) (poll_times (clock v) sleeps) →
  ∃ v', poll_loop env sleeps v = (Ok tt, v') ∧ trace v' = trace v ∧
        only_job ref tm task nr v'.
Proof.
  revert v. induction sleeps as [| d sleeps IH]; intros v Hv Ht; simpl.
  - by exists v.
  - simpl in Ht. apply Forall_cons in Ht as [Ht Hts].
    erewrite bind_ok by (by eapply run_pending_not_due).
    unfold bind at 1, time_sleep.
    destruct (IH (set_clock (clock v + d) v)) as (v' & -> & Htr & Hv'); [done | done |].
    by exists v'.
Qed.

(** With the reminder job alone in the scheduler and every pass running
    before the second occurrence of the deadline time, the polling loop
    sends the reminder once if some pass runs at or after the first
    occurrence, and sends nothing otherwise. *)
Lemma poll_loop_sends_once env ref tm task due sleeps v r v' :
  0 ≤ tm < DAY → time_of_day due = tm →
  only_job ref tm task due v →
  Forall (λ t, t < due + DAY) (poll_times (clock v) sleeps) →
  poll_loop env sleeps v = (r, v') →
  ∃ evs, trace v' = trace v ++ evs ∧
         sent evs
         = if bool_decide (Exists (λ t, due ≤ t) (poll_times (clock v) sleeps))
           then [reminder_message task] else [].
Proof.
  intros Htm Hdue. revert v.
  induction sleeps as [| d sleeps IH]; intros v Hv Ht Hrun;
    cbn [poll_times poll_loop] in *.
  - injection Hrun as <- <-. exists []. rewrite app_nil_r.
    rewrite bool_decide_eq_false_2; [done |]. by intros ?%Exists_nil.
  - apply Forall_cons in Ht as [Ht Hts].
    destruct (decide (due ≤ clock v)) as [Hle | Hlt].
    + rewrite bool_decide_eq_true_2 by (by apply Exists_cons_hd).
      destruct (run_pending_due env ref tm task due v Hv Hle Htm)
        as (r1 & v1 & evs1 & Hpass & Htr1 & Hsent1 & Hc1 & Hnext).
      destruct r1 as [[] | e].
      * erewrite bind_ok in Hrun by exact Hpass.
        unfold bind at 1, time_sleep in Hrun.
        specialize (Hnext eq_refl).
        rewrite (next_occurrence_same_day tm due (clock v)) in Hnext by done.
        destruct (poll_loop_quiet env ref tm task (due + DAY) sleeps
                    (set_clock (clock v1 + d) v1)) as (v2 & Hq & Htr2 & _).
        { destruct Hnext as (? & job & ? & ? & ?). split; [done |]. by exists job. }
        { simpl. by rewrite Hc1. }
        rewrite Hq in Hrun. injection Hrun as <- <-.
        exists evs1. by rewrite Htr2.
      * erewrite bind_raise in Hrun by exact Hpass. injection Hrun as <- <-.
        by exists evs1.
    + erewrite bind_ok in Hrun by (eapply run_pending_not_due; [done | lia]).
      unfold bind at 1, time_sleep in Hrun.
      destruct (IH (set_clock (clock v + d) v)) as (evs & Htr & Hsent);
        [done | done | done |].
      exists evs. split; [done |]. rewrite Hsent. cbn [clock set_clock].
      apply (f_equal (λ b : bool, if b then _ else _)).
      apply bool_decide_ext. rewrite Exists_cons. intuition lia.
Qed.

(** *** The claims about reminders *)

Lemma schedule_reminder_registers task w tm :
  parse_at_time (deadline_time task) = Some tm → wf_jobs w →
  ∃ w1,
    schedule_reminder task w = (Ok tt, w1) ∧
    clock w1 = clock w ∧
    jobs w1 = jobs w ++ [length (job_store w)] ∧
    job_store w1 !! length (job_store w)
    = Some (mkJob tm (next_occurrence tm (clock w)) None None (send_reminder task)) ∧
    registered (length (job_store w)) tm task w1 ∧
    scheduled (length (job_store w)) tm w1.
Proof.
  intros Hp Hwf. destruct (schedule_reminder_run task w tm Hp) as (log & -> & _).
  eexists. split; [done |]. simpl.
  assert (∀ job : Job,
            (job_store w ++ [job]) !! length (job_store w) = Some job) as Hl.
  { intros job. rewrite lookup_app_r by lia. by rewrite Nat.sub_diag. }
  split; [done |]. split; [done |]. split; [apply Hl |]. split; [split |].
  - apply once_snoc. intros Hin. apply Hwf in Hin. lia.
  - eexists. split; [apply Hl | done].
  - eexists _, (clock w). split; [apply Hl |]. simpl. split; [done | lia].
Qed.

(** C1: [schedule_reminder] puts into the scheduler a daily job at the
    task's deadline time.  No sequence of polling passes, however it ends,
    takes the job out of the scheduler's list or changes what it calls;
    and on any day, a pass that runs when the time of day is the deadline
    time and returns has sent the reminder.  The due date plays no part:
    it is any text, the job made for another due date has the same times,
    and the day of the pass is not constrained. *)
Theorem schedule_reminder_fires_daily env task w tm :
  parse_at_time (deadline_time task) = Some tm →
  wf_jobs w →
  ∃ w1,
    schedule_reminder task w = (Ok tt, w1) ∧
    registered (length (job_store w)) tm task w1 ∧
    (∀ sleeps r w2,
       poll_loop env sleeps w1 = (r, w2) →
       registered (length (job_store w)) tm task w2) ∧
    (∀ sleeps w2 w3,
       Forall (λ d, 1 ≤ d) sleeps → sleeps ≠ [] →
       poll_loop env sleeps w1 = (Ok tt, w2) →
       time_of_day (clock w2) = tm →
       run_pending env w2 = (Ok tt, w3) →
       registered (length (job_store w)) tm task w3 ∧
       ∃ evs, trace w3 = trace w2 ++ evs ∧ reminder_message task ∈ sent evs) ∧
    (∀ other_date, ∃ w1' job job',
       schedule_reminder (mkTask (name task) other_date (deadline_time task)) w
       = (Ok tt, w1') ∧
       job_store w1 !! length (job_store w) = Some job ∧
       job_store w1' !! length (job_store w) = Some job' ∧
       at_time job' = at_time job ∧ next_run job' = next_run job ∧
       last_run job' = last_run job ∧ cancel_after job' = cancel_after job).
Proof.
  intros Hp Hwf.
  destruct (schedule_reminder_registers task w tm Hp Hwf)
    as (w1 & Heq & Hc & Hj & Hjob & Hreg & Hs).
  exists w1. split; [done |]. split; [done |]. split; [| split].
  - intros sleeps r w2 Hpoll. by eapply poll_loop_preserves.
  - intros sleeps w2 w3 Hd Hne Hpoll Htod Hpass.
    pose proof (poll_loop_preserves env _ _ _ _ _ _ _ Hpoll Hreg) as Hreg2.
    destruct (poll_loop_scheduled env _ _ _ _ _ _ Hd Hne Hpoll Hreg Hs)
      as (job & b & Hjob2 & Hnext & Hb).
    unfold run_pending in Hpass.
    split; [by destruct (run_jobs_preserves env _ _ _ _ _ _ _ Hpass Hreg2) |].
    eapply run_jobs_fires; [exact Hpass | exact Hreg2 |].
    apply elem_of_runnable_jobs. split; [apply once_elem_of, Hreg2 |].
    unfold ref_should_run, should_run. rewrite Hjob2. simpl.
    apply bool_decide_eq_true. rewrite Hnext. by apply next_occurrence_le.
  - intros other_date.
    destruct (schedule_reminder_registers
                (mkTask (name task) other_date (deadline_time task)) w tm Hp Hwf)
      as (w1' & Heq' & _ & _ & Hjob' & _).
    by eexists w1', _, _.
Qed.

Lemma schedule_reminder_fires_daily_witness :
  ∃ w1 w2 w3 evs,
    schedule_reminder sample_task (fresh_world 1741100000) = (Ok tt, w1) ∧
    registered 0 32400 sample_task w1 ∧
    poll_loop (env_nominal "pay rent") [65200] w1 = (Ok tt, w2) ∧
    run_pending (env_nominal "pay rent") w2 = (Ok tt, w3) ∧
    registered 0 32400 sample_task w3 ∧
    trace w3 = trace w2 ++ evs ∧ reminder_message sample_task ∈ sent evs.
Proof.
  destruct (schedule_reminder_fires_daily (env_nominal "pay rent") sample_task
              (fresh_world 1741100000) 32400)
    as (w1 & H1 & H2 & _ & Hfire & _).
  - reflexivity.
  - intros ref Hin. simpl in Hin. by apply elem_of_nil in Hin.
  - assert (w1 = snd (schedule_reminder sample_task (fresh_world 1741100000)))
      as Hw1 by (by rewrite H1).
    vm_compute in Hw1.
    set (w2 := snd (poll_loop (env_nominal "pay rent") [65200] w1)).
    set (w3 := snd (run_pending (env_nominal "pay rent") w2)).
    assert (poll_loop (env_nominal "pay rent") [65200] w1 = (Ok tt, w2)) as Hpoll.
    { subst w2 w1. vm_compute. reflexivity. }
    assert (run_pending (env_nominal "pay rent") w2 = (Ok tt, w3)) as Hpass.
    { subst w3 w2 w1. vm_compute. reflexivity. }
    destruct (Hfire [65200] w2 w3) as (Hreg & evs & Htr & Hin).
    + repeat constructor. lia.
    + discriminate.
    + exact Hpoll.
    + subst w2 w1. vm_compute. reflexivity.
    + exact Hpass.
    + exists w1, w2, w3, evs. repeat (split; [assumption |]). assumption.
Defined.

Lemma reminder_message_contains task :
  contains (reminder_message task) (name task) ∧
  contains (reminder_message task) (due_date task) ∧
  contains (reminder_message task) (deadline_time task).
Proof.
  unfold reminder_message, contains. split; [| split].
  - by eexists _, _.
  - exists ("Reminder: Task '" +:+ name task +:+ "' is due on "),
      (" at " +:+ deadline_time task).
    by rewrite !string_app_assoc.
  - exists ("Reminder: Task '" +:+ name task +:+ "' is due on " +:+ due_date task
            +:+ " at "), EmptyString.
    by rewrite string_app_nil_r, !string_app_assoc.
Qed.

(** C2: after [schedule_reminder task] the job is due at the first
    occurrence of the deadline time after the registration.  A pass of
    [run_pending] leaves the job out while the clock is before that time
    and holds it exactly once when the clock has reached it; running the
    job calls [send_whatsapp_message] exactly once, with a text that
    contains the task's name, due date and deadline time, and moves the
    job to the next day, so that later passes leave it out until then.
    With no other job in the scheduler, the pass itself sends exactly that
    one message, and passes before the time send nothing. *)
Theorem reminder_sent_once env task w tm :
  parse_at_time (deadline_time task) = Some tm →
  wf_jobs w →
  ∃ w1 job,
    schedule_reminder task w = (Ok tt, w1) ∧
    registered (length (job_store w)) tm task w1 ∧
    job_store w1 !! length (job_store w) = Some job ∧
    next_run job = next_occurrence tm (clock w) ∧
    clock w < next_run job ≤ clock w + DAY ∧
    time_of_day (next_run job) = tm ∧
    (jobs w = [] → jobs w1 = [length (job_store w)]) ∧
    contains (reminder_message task) (name task) ∧
    contains (reminder_message task) (due_date task) ∧
    contains (reminder_message task) (deadline_time task) ∧
    (∀ v job,
       registered (length (job_store w)) tm task v →
       job_store v !! length (job_store w) = Some job →
       (clock v < next_run job → length (job_store w) ∉ runnable_jobs v) ∧
       (next_run job ≤ clock v → once (length (job_store w)) (runnable_jobs v)) ∧
       (∃ r v' evs,
          _run_job env (length (job_store w)) v = (r, v') ∧
          trace v' = trace v ++ evs ∧ sent evs = [reminder_message task] ∧
          (r = Ok tt →
           registered (length (job_store w)) tm task v' ∧
           clock v' = clock v ∧
           ∃ job', job_store v' !! length (job_store w) = Some job' ∧
                   next_run job' = next_occurrence tm (clock v) ∧
                   clock v < next_run job')) ∧
       (jobs v = [length (job_store w)] →
        (clock v < next_run job → run_pending env v = (Ok tt, v)) ∧
        (next_run job ≤ clock v →
         run_pending env v = _run_job env (length (job_store w)) v))) ∧
    (jobs w = [] →
     ∀ sleeps r w2,
       Forall (λ t, t < next_run job + DAY) (poll_times (clock w) sleeps) →
       poll_loop env sleeps w1 = (r, w2) →
       ∃ evs,
         trace w2 = trace w1 ++ evs ∧
         sent evs
         = if bool_decide (Exists (λ t, next_run job ≤ t)
                             (poll_times (clock w) sleeps))
           then [reminder_message task] else []).
Proof.
  intros Hp Hwf. pose proof (parse_at_time_range _ _ Hp) as Htm.
  destruct (schedule_reminder_registers task w tm Hp Hwf)
    as (w1 & Heq & Hc & Hj & Hjob & Hreg & Hs).
  eexists w1, _. split; [done |]. split; [done |]. split; [exact Hjob |].
  simpl. split; [done |].
  split; [split; [by apply next_occurrence_gt | by apply next_occurrence_within_a_day] |].
  split; [by apply next_occurrence_time_of_day |].
  split; [intros Hnil; by rewrite Hj, Hnil |].
  destruct (reminder_message_contains task) as (Hn & Hd & Ht).
  split; [done |]. split; [done |]. split; [done |].
  split.
  2:{ intros Hnil sleeps r w2 Hts Hpoll. revert Hts. rewrite <- Hc in Hjob |- *.
      intros Hts.
      apply (poll_loop_sends_once env (length (job_store w)) tm task
               (next_occurrence tm (clock w1)) sleeps w1 r w2); try done.
      - by apply next_occurrence_time_of_day.
      - split; [by rewrite Hj, Hnil |]. eexists. split; [exact Hjob |]. done. }
  intros v job (Ho & job0 & Hjob0 & Hrem) Hv.
  assert (job0 = job) as -> by congruence.
  assert (ref_should_run (job_store v) (clock v) (length (job_store w))
          = bool_decide (next_run job ≤ clock v)) as Hshould.
  { unfold ref_should_run, should_run. by rewrite Hv. }
  split; [| split; [| split]].
  - intros Hlt Hin. apply elem_of_runnable_jobs in Hin as [_ Hin].
    rewrite Hshould in Hin. apply bool_decide_eq_true in Hin. lia.
  - intros Hle. apply once_runnable_jobs; [done |].
    rewrite Hshould. by apply bool_decide_eq_true.
  - destruct (run_job_reminder env _ tm task job v Hv Hrem)
      as (r & v' & evs & Hrun & Htr & Hsent & Hcl & Hjobs & _ & _ & Hstore).
    exists r, v', evs. split; [done |]. split; [done |]. split; [done |].
    intros ->.
    assert (length (job_store w) < length (job_store v))%nat as Hlt
      by (by eapply lookup_lt_Some).
    split; [split; [by rewrite Hjobs |] |].
    + eexists. rewrite Hstore, list_lookup_insert_eq by done. by split.
    + split; [done |]. eexists. rewrite Hstore, list_lookup_insert_eq by done.
      split; [done |]. simpl. split; [done | by apply next_occurrence_gt].
  - intros Hsingle. unfold run_pending.
    rewrite (runnable_jobs_single _ _ Hsingle), Hshould. split.
    + intros Hlt. by rewrite bool_decide_eq_false_2 by lia.
    + intros Hle. rewrite bool_decide_eq_true_2 by done. apply run_jobs_single.
Qed.

Lemma reminder_sent_once_witness :
  ∃ w1 evs,
    schedule_reminder sample_task (fresh_world 1741100000) = (Ok tt, w1) ∧
    trace (snd (poll_loop (env_nominal "pay rent") [65199; 1; 1; 1] w1))
    = trace w1 ++ evs ∧
    sent evs = [reminder_message sample_task] ∧
    contains (reminder_message sample_task) "pay rent".
Proof.
  destruct (reminder_sent_once (env_nominal "pay rent") sample_task
              (fresh_world 1741100000) 32400)
    as (w1 & job & H1 & _ & _ & H3 & _ & _ & _ & H4 & _ & _ & _ & Hpoll).
  - reflexivity.
  - intros ref Hin. simpl in Hin. by apply elem_of_nil in Hin.
  - assert (next_occurrence 32400 1741100000 = 1741165200) as Hdue
      by (vm_compute; reflexivity).
    destruct (Hpoll eq_refl [65199; 1; 1; 1]
                (fst (poll_loop (env_nominal "pay rent") [65199; 1; 1; 1] w1))
                (snd (poll_loop (env_nominal "pay rent") [65199; 1; 1; 1] w1)))
      as (evs & Htr & Hsent).
    + rewrite H3. cbn [clock fresh_world poll_times]. rewrite Hdue.
      unfold DAY. repeat constructor; lia.
    + by destruct (poll_loop _ _ _).
    + exists w1, evs. split; [exact H1 |]. split; [exact Htr |].
      split; [| exact H4]. rewrite Hsent, H3.
      rewrite bool_decide_eq_true_2; [reflexivity |].
      cbn [clock fresh_world poll_times]. rewrite Hdue.
      apply Exists_cons_tl, Exists_cons_tl, Exists_cons_hd. lia.
Defined.

(** ** Relating the worlds before and after a computation *)

Lemma footprint_refl P T w : footprint P T w w.
Proof.
  repeat split; try done. exists []. by rewrite app_nil_r.
Qed.

Lemma footprint_trans P T w1 w2 w3 :
  footprint P T w1 w2 → footprint P T w2 w3 → footprint P T w1 w3.
Proof.
  intros (Hj & Hs & Hf & evs & Ht & Hp) (Hj' & Hs' & Hf' & evs' & Ht' & Hp').
  split; [congruence |]. split; [congruence |].
  split; [intros p Hp0; rewrite Hf', Hf; done |].
  exists (evs ++ evs'). split; [by rewrite Ht', Ht, app_assoc |].
  by apply Forall_app.
Qed.

#[global] Instance footprint_preorder P T : PreOrder (footprint P T).
Proof.
  split; [intros w; apply footprint_refl | intros w1 w2 w3; apply footprint_trans].
Qed.

Tactic Notation "wapply" uconstr(lem) :=
  eapply lem; try (lazymatch goal with |- PreOrder _ => typeclasses eauto end).

Section Within.
Context (R : relation World) `{!PreOrder R}.

Lemma within_ret {A} (Q : A → Prop) a : Q a → within R Q (ret a).
Proof.
  intros Ha w r w' [= <- <-]. split; [reflexivity |]. by intros ? [= <-].
Qed.

Lemma within_raise {A} (Q : A → Prop) e : within R Q (raise e).
Proof.
  intros w r w' [= <- <-]. split; [reflexivity | done].
Qed.

Lemma within_from_result {A} (Q : A → Prop) r :
  (∀ a, r = Ok a → Q a) → within R Q (from_result r).
Proof.
  intros Hr w r' w' [= <- <-]. split; [reflexivity | done].
Qed.

Lemma within_check o : within R anything (check o).
Proof. destruct o; [wapply within_raise | by wapply within_ret]. Qed.

Lemma within_get_clock : within R anything get_clock.
Proof.
  intros w r w' [= <- <-]. split; [reflexivity | done].
Qed.

Lemma within_bind {A B} (Q : A → Prop) (Q' : B → Prop) m k :
  within R Q m → (∀ a, Q a → within R Q' (k a)) →
  within R Q' (bind m k).
Proof.
  intros Hm Hk w r w' Hr. unfold bind in Hr.
  destruct (m w) as [[a | e] w1] eqn:E; destruct (Hm _ _ _ E) as [Hf Ha].
  - destruct (Hk a (Ha a eq_refl) _ _ _ Hr) as [Hf' Hb].
    split; [by etrans | done].
  - injection Hr as <- <-. split; [done | done].
Qed.

Lemma within_try_except {A} (Q : A → Prop) m h :
  within R Q m → (∀ e, within R Q (h e)) → within R Q (try_except m h).
Proof.
  intros Hm Hh w r w' Hr. unfold try_except in Hr.
  destruct (m w) as [[a | e] w1] eqn:E; destruct (Hm _ _ _ E) as [Hf Ha].
  - injection Hr as <- <-. split; [done | done].
  - destruct (is_Exception e).
    + destruct (Hh e _ _ _ Hr) as [Hf' Hb]. split; [by etrans | done].
    + injection Hr as <- <-. split; [done | done].
Qed.

Lemma within_try_except_interrupt {A} (Q : A → Prop) m i h :
  within R Q m → within R Q i → (∀ e, within R Q (h e)) →
  within R Q (try_except_interrupt m i h).
Proof.
  intros Hm Hi Hh w r w' Hr. unfold try_except_interrupt in Hr.
  destruct (m w) as [[a | e] w1] eqn:E; destruct (Hm _ _ _ E) as [Hf Ha].
  - injection Hr as <- <-. split; [done | done].
  - destruct (is_Exception e).
    + destruct (Hh e _ _ _ Hr) as [Hf' Hb]. split; [by etrans | done].
    + destruct (Hi _ _ _ Hr) as [Hf' Hb]. split; [by etrans | done].
Qed.

Lemma within_try_finally {A} (Q : A → Prop) m f :
  within R Q m → within R anything f → within R Q (try_finally m f).
Proof.
  intros Hm Hf0 w r w' Hr. unfold try_finally in Hr.
  destruct (m w) as [r1 w1] eqn:E. destruct (Hm _ _ _ E) as [Hf Ha].
  destruct (f w1) as [[[] | e] w2] eqn:E2; destruct (Hf0 _ _ _ E2) as [Hf' _];
    injection Hr as <- <-.
  - split; [by etrans | done].
  - split; [by etrans | done].
Qed.

Lemma within_attempt {A} (Q : A → Prop) m :
  within R Q m →
  within R (λ r, ∀ a, r = Ok a → Q a) (attempt m).
Proof.
  intros Hm w r w' Hr. unfold attempt in Hr.
  destruct (m w) as [r1 w1] eqn:E. destruct (Hm _ _ _ E) as [Hf Ha].
  injection Hr as <- <-. split; [done |]. by intros ? [= <-].
Qed.

End Within.

Section Footprint.
Variable P : Event → Prop.
Variable T : string → Prop.

Lemma within_emit ev : P ev → within (footprint P T) anything (emit ev).
Proof.
  intros Hev w r w' [= <- <-]. split; [| done].
  repeat split; try done. exists [ev]. split; [done | by constructor].
Qed.

Lemma within_logger level msg :
  P (EvLog level msg) → within (footprint P T) anything (logger level msg).
Proof.
  intros Hev. unfold logger. wapply within_bind; [by apply within_emit |].
  intros _ _. by wapply within_ret.
Qed.

Lemma within_os_path_exists path :
  within (footprint P T) anything (os_path_exists path).
Proof.
  intros w r w' [= <- <-]. split; [reflexivity | done].
Qed.

Lemma within_read_file path : within (footprint P T) anything (read_file path).
Proof.
  intros w r w' Hr. unfold read_file in Hr.
  destruct (fs w !! path); injection Hr as <- <-; (split; [reflexivity | done]).
Qed.

Lemma within_set_fs_at path (f : World → gmap string string) :
  T path → (∀ w p, p ≠ path → f w !! p = fs w !! p) →
  within (footprint P T) anything (λ w, (Ok tt, set_fs (f w) w)).
Proof.
  intros HT Hf w r w' [= <- <-]. split; [| done].
  repeat split; try done.
  - intros p Hp. cbn. apply Hf. by intros ->.
  - exists []. by rewrite app_nil_r.
Qed.

Lemma within_write_file env path data :
  P (EvWrite path) → T path →
  within (footprint P T) anything (write_file env path data).
Proof.
  intros Hev HT. unfold write_file.
  wapply within_bind; [by apply within_emit |]. intros k _.
  wapply within_bind; [wapply within_check |]. intros _ _.
  apply (within_set_fs_at path (λ w, <[path := data]> (fs w))); [done |].
  intros w p Hp. by rewrite lookup_insert_ne.
Qed.

Lemma within_os_remove env path :
  P (EvRemove path) → T path →
  within (footprint P T) anything (os_remove env path).
Proof.
  intros Hev HT. unfold os_remove.
  wapply within_bind; [by apply within_emit |]. intros k _.
  wapply within_bind; [wapply within_check |]. intros _ _.
  intros w r w' Hr. destruct (fs w !! path) eqn:E; injection Hr as <- <-.
  - split; [| done]. repeat split; try done.
    + intros p Hp. cbn. rewrite lookup_delete_ne; [done |]. by intros ->.
    + exists []. by rewrite app_nil_r.
  - split; [reflexivity | done].
Qed.

End Footprint.

(** ** The voice front end, whatever the outside world does *)

Section VoiceFootprint.
Variable env : Env.
Variable config : TaskConfig.

Lemma get_temp_path_run suffix w :
  _get_temp_path env config suffix w
  = (Ok (temp_path env config (clock w) suffix), w).
Proof. reflexivity. Qed.

Lemma within_get_temp_path suffix : confined env config (is_temp_path env config) (_get_temp_path env config suffix).
Proof.
  intros w r w'. rewrite get_temp_path_run. intros [= <- <-].
  split; [reflexivity |]. intros a [= <-]. by eexists _, _.
Qed.

Lemma within_remove_temp_files files :
  Forall (is_temp_path env config) files → confined env config anything (remove_temp_files env files).
Proof.
  induction 1 as [| f files Hf _ IH]; cbn [remove_temp_files].
  - by wapply within_ret.
  - wapply within_bind; [| intros _ _; apply IH].
    wapply within_try_except.
    + wapply within_bind; [apply within_os_path_exists |].
      intros [] _; [by apply within_os_remove | by wapply within_ret].
    + intros e. by apply within_logger.
Qed.

Lemma within_text_to_speech_try text mp3 wav :
  is_temp_path env config mp3 → is_temp_path env config wav →
  confined env config anything (text_to_speech_try env text mp3 wav).
Proof.
  intros Hm Hw. unfold text_to_speech_try. wapply within_try_except.
  - wapply within_bind; [by apply within_emit |]. intros k _.
    wapply within_bind; [by wapply (within_from_result _ anything) |]. intros response _.
    wapply within_bind; [by apply within_write_file |]. intros _ _.
    wapply within_bind; [by apply within_emit |]. intros k' _.
    wapply within_bind; [apply within_read_file |]. intros mp3d _.
    wapply within_bind; [by wapply (within_from_result _ anything) |]. intros audio _.
    wapply within_bind; [by apply within_write_file |]. intros _ _.
    wapply within_bind; [apply within_read_file |]. intros wavd _.
    wapply within_bind; [by apply within_emit |]. intros k'' _.
    wapply within_check.
  - intros e. wapply within_bind; [by apply within_logger |]. intros _ _.
    wapply within_raise.
Qed.

Lemma within_text_to_speech text : confined env config anything (text_to_speech env config text).
Proof.
  unfold text_to_speech.
  wapply within_bind; [apply within_get_temp_path |]. intros mp3 Hm.
  wapply within_bind; [apply within_get_temp_path |]. intros wav Hw.
  wapply within_try_finally; [by apply within_text_to_speech_try |].
  apply within_remove_temp_files. by repeat constructor.
Qed.

Lemma within_record_audio : confined env config anything (record_audio env config).
Proof.
  unfold record_audio. wapply within_try_except.
  - wapply within_bind; [by apply within_logger |]. intros _ _.
    wapply within_bind; [by apply within_emit |]. intros k _.
    wapply within_bind; [by wapply (within_from_result _ anything) |]. intros audio _.
    wapply within_bind; [| intros _ _; by wapply within_ret].
    instantiate (1 := anything).
    intros w r w' [= <- <-]. split; [| done].
    repeat split; try done. exists []. by rewrite app_nil_r.
  - intros e. wapply within_bind; [by apply within_logger |]. intros _ _.
    wapply within_raise.
Qed.

Lemma within_save_audio audio : confined env config (is_temp_path env config) (save_audio env config audio).
Proof.
  unfold save_audio.
  wapply within_bind; [apply within_get_temp_path |]. intros path Hp.
  wapply within_try_except.
  - wapply within_bind; [by apply within_write_file |]. intros _ _.
    by wapply within_ret.
  - intros e. wapply within_bind; [by apply within_logger |]. intros _ _.
    wapply within_raise.
Qed.

Lemma within_speech_to_text path : confined env config anything (speech_to_text env path).
Proof.
  unfold speech_to_text. wapply within_try_except.
  - wapply within_bind; [apply within_read_file |]. intros audio _.
    wapply within_bind; [by apply within_emit |]. intros k _.
    wapply within_bind; [by wapply (within_from_result _ anything) |]. intros t _.
    by wapply within_ret.
  - intros e. wapply within_bind; [by apply within_logger |]. intros _ _.
    wapply within_raise.
Qed.

Lemma within_cleanup_audio audio_path :
  (∀ p, audio_path = Some p → is_temp_path env config p) → confined env config anything (cleanup_audio env audio_path).
Proof.
  intros Hp. destruct audio_path as [path |]; cbn [cleanup_audio];
    [| by wapply within_ret].
  destruct (truthy path); [| by wapply within_ret].
  wapply within_bind; [apply within_os_path_exists |].
  intros [] _; [| by wapply within_ret].
  wapply within_try_except; [apply within_os_remove; by apply Hp |].
  intros e. by apply within_logger.
Qed.

Lemma within_voice_input_except n e : confined env config anything (voice_input_except n e).
Proof.
  unfold voice_input_except.
  wapply within_bind; [by apply within_logger |]. intros _ _. by wapply within_ret.
Qed.

Lemma within_voice_input_try n path : confined env config anything (voice_input_try env config n path).
Proof.
  unfold voice_input_try. wapply within_try_except; [| apply within_voice_input_except].
  wapply within_bind; [apply within_speech_to_text |]. intros text _.
  destruct (truthy text); [by wapply within_ret |].
  wapply within_bind; [apply within_text_to_speech |]. intros _ _. by wapply within_ret.
Qed.

Lemma within_voice_input_attempt n : confined env config anything (voice_input_attempt env config n).
Proof.
  unfold voice_input_attempt.
  wapply within_bind.
  - wapply within_attempt.
    wapply within_bind; [apply within_record_audio |]. intros audio _.
    apply within_save_audio.
  - intros [path | e] Hp; cbn beta iota.
    + wapply within_try_finally; [apply within_voice_input_try |].
      apply within_cleanup_audio. intros p [= <-]. by apply Hp.
    + wapply within_try_finally; [| by apply within_cleanup_audio].
      wapply within_try_except; [by wapply within_raise |].
      apply within_voice_input_except.
Qed.

Lemma within_voice_input_loop attempts : confined env config anything (voice_input_loop env config attempts).
Proof.
  induction attempts as [| n rest IH]; cbn [voice_input_loop];
    [wapply within_raise |].
  wapply within_bind; [apply within_voice_input_attempt |].
  intros [text |] _; [by wapply within_ret | apply IH].
Qed.

Lemma within_get_voice_input prompt : confined env config anything (get_voice_input env config prompt).
Proof.
  unfold get_voice_input.
  wapply within_bind; [| intros _ _; apply within_voice_input_loop].
  instantiate (1 := anything).
  destruct prompt as [p |]; cbn [speak_prompt]; [| by wapply within_ret].
  destruct (truthy p); [apply within_text_to_speech | by wapply within_ret].
Qed.

Lemma within_parse_datetime text : confined env config anything (parse_datetime env text).
Proof.
  unfold parse_datetime.
  wapply within_bind; [wapply within_get_clock |]. intros now _.
  destruct (dateparser_parse env now text); [by wapply within_ret | wapply within_raise].
Qed.

Lemma within_create_task : confined env config anything (create_task env config).
Proof.
  unfold create_task. wapply within_try_except.
  - unfold create_task_try.
    wapply within_bind; [apply within_get_voice_input |]. intros task_name _.
    wapply within_bind; [apply within_get_voice_input |]. intros date_str _.
    wapply within_bind; [apply within_parse_datetime |]. intros [d t] _.
    by wapply within_ret.
  - intros e. unfold create_task_except.
    wapply within_bind; [by apply within_logger |]. intros _ _.
    wapply within_bind; [apply within_text_to_speech |]. intros _ _.
    by wapply within_ret.
Qed.

End VoiceFootprint.

Lemma raises_interrupt_remove_temp_files env files :
  raises interrupt (remove_temp_files env files).
Proof.
  induction files as [| f files IH]; cbn [remove_temp_files].
  - apply raises_ret.
  - apply raises_bind; [| by intros _].
    apply raises_interrupt_try_except. intros e. apply raises_logger.
Qed.

Lemma raises_interrupt_cleanup_audio env audio_path :
  raises interrupt (cleanup_audio env audio_path).
Proof.
  destruct audio_path as [path |]; cbn [cleanup_audio]; [| apply raises_ret].
  destruct (truthy path); [| apply raises_ret].
  apply raises_bind; [apply raises_os_path_exists |].
  intros []; [| apply raises_ret].
  apply raises_interrupt_try_except. intros e. apply raises_logger.
Qed.

Lemma raises_voice_input_except P n e : raises P (voice_input_except n e).
Proof.
  apply raises_bind; [apply raises_logger |].
  intros _. apply raises_ret.
Qed.

Lemma raises_interrupt_voice_input_attempt env config n :
  raises interrupt (voice_input_attempt env config n).
Proof.
  unfold voice_input_attempt. apply raises_bind; [apply raises_attempt |].
  intros [path | e].
  - apply raises_try_finally; [| apply raises_interrupt_cleanup_audio].
    apply raises_interrupt_try_except. intros e. apply raises_voice_input_except.
  - apply raises_try_finally; [| apply raises_interrupt_cleanup_audio].
    apply raises_interrupt_try_except. intros e'. apply raises_voice_input_except.
Qed.

Lemma voice_input_loop_raise_inv env config attempts :
  raises (λ e, e = ValueError "Maximum retries reached" ∨ interrupt e)
    (voice_input_loop env config attempts).
Proof.
  induction attempts as [| n rest IH]; cbn [voice_input_loop].
  - apply raises_raise. by left.
  - apply raises_bind.
    + intros w e w' H. right.
      by eapply raises_interrupt_voice_input_attempt.
    + intros [text |]; [apply raises_ret | apply IH].
Qed.

Lemma interrupt_class e : interrupt e ↔ exn_class e = "KeyboardInterrupt".
Proof.
  unfold interrupt, is_Exception. rewrite negb_false_iff. apply String.eqb_eq.
Qed.

(** X1: whatever the outside world does, the [finally] block of
    [text_to_speech] raises nothing but a keyboard interrupt (a failure to
    remove a temporary file that is an [Exception] is logged and not
    raised); when the block completes, [text_to_speech] returns or raises
    exactly as the [try] part of its body did, and when a keyboard
    interrupt arrives during the removal, [text_to_speech] raises that
    interrupt, whatever the [try] part did. *)
Theorem text_to_speech_outcome env config text w :
  let temp_mp3 := temp_path env config (clock w) ".mp3" in
  let temp_wav := temp_path env config (clock w) ".wav" in
  ∃ r w1,
    text_to_speech_try env text temp_mp3 temp_wav w = (r, w1) ∧
    ((∃ w', remove_temp_files env [temp_mp3; temp_wav] w1 = (Ok tt, w') ∧
            text_to_speech env config text w = (r, w'))
     ∨ (∃ e w', remove_temp_files env [temp_mp3; temp_wav] w1 = (Raise e, w') ∧
                exn_class e = "KeyboardInterrupt" ∧
                text_to_speech env config text w = (Raise e, w'))).
Proof.
  intros mp3 wav.
  destruct (text_to_speech_try env text mp3 wav w) as [r w1] eqn:E.
  exists r, w1. split; [done |].
  assert (∀ r2 w', remove_temp_files env [mp3; wav] w1 = (r2, w') →
            text_to_speech env config text w
            = (match r2 with Ok _ => r | Raise e => Raise e end, w')) as Hrun.
  { intros r2 w' E2. unfold text_to_speech.
    rewrite (bind_ok _ _ _ _ _ (get_temp_path_run env config ".mp3" w)).
    rewrite (bind_ok _ _ _ _ _ (get_temp_path_run env config ".wav" w)).
    unfold try_finally. fold mp3 wav. rewrite E, E2. by destruct r2 as [[] | e]. }
  destruct (remove_temp_files env [mp3; wav] w1) as [[[] | e] w'] eqn:E2.
  - left. exists w'. split; [done |]. by apply (Hrun (Ok tt)).
  - right. exists e, w'. split; [done |]. split; [| by apply (Hrun (Raise e))].
    apply interrupt_class. by eapply raises_interrupt_remove_temp_files.
Qed.

(** X2: whatever the outside world does, an iteration of the loop of
    [get_voice_input] raises nothing but a keyboard interrupt (a failed
    recording, a failed transcription, a failed apology and a failed
    removal that are an [Exception] are all caught and logged), and
    [get_voice_input] raises in three cases only: the exception of
    [text_to_speech] for a non-empty prompt,
    [ValueError("Maximum retries reached")], and a keyboard interrupt. *)
Theorem get_voice_input_raises_only env config :
  (∀ n w e w', voice_input_attempt env config n w = (Raise e, w') →
               exn_class e = "KeyboardInterrupt") ∧
  (∀ prompt w e w',
     get_voice_input env config prompt w = (Raise e, w') →
     (∃ p, prompt = Some p ∧ truthy p = true ∧
           text_to_speech env config p w = (Raise e, w'))
     ∨ e = ValueError "Maximum retries reached"
     ∨ exn_class e = "KeyboardInterrupt").
Proof.
  split.
  { intros n w e w' H. apply interrupt_class.
    by eapply raises_interrupt_voice_input_attempt. }
  intros prompt w e w'. unfold get_voice_input. intros H.
  apply bind_raise_inv in H as [H | ([] & w1 & _ & H)].
  - left. destruct prompt as [p |]; [| discriminate].
    cbn [speak_prompt] in H. destruct (truthy p) eqn:Ep; [| discriminate].
    by exists p.
  - right. apply voice_input_loop_raise_inv in H as [H | H]; [by left | right].
    by apply interrupt_class.
Qed.

Lemma get_voice_input_raises_only_witness :
  (∃ p, Some command_prompt = Some p ∧ truthy p = true ∧
        text_to_speech env_speech_down sample_config p (fresh_world 1741100000)
        = (Raise (sample_error "speech service unavailable"),
           snd (get_voice_input env_speech_down sample_config (Some command_prompt)
                  (fresh_world 1741100000))))
  ∨ sample_error "speech service unavailable" = ValueError "Maximum retries reached"
  ∨ exn_class (sample_error "speech service unavailable") = "KeyboardInterrupt".
Proof.
  apply (proj2 (get_voice_input_raises_only env_speech_down sample_config)
           (Some command_prompt) (fresh_world 1741100000)).
  vm_compute. reflexivity.
Defined.

(** A keyboard interrupt during the first recording goes through every
    [except Exception] on its way: [get_voice_input] raises it after one
    recording, with no error logged, [create_task] raises it without
    speaking, and the command loop of [main] says that it was interrupted
    and ends. *)
Example get_voice_input_interrupted :
  let w := fresh_world 1741100000 in
  (∃ w', get_voice_input env_interrupted sample_config (Some command_prompt) w
         = (Raise KeyboardInterrupt, w') ∧
         recordings (trace w') = 1%nat ∧
         trace w' = trace (snd (speak_prompt env_interrupted sample_config
                                  (Some command_prompt) w))
                    ++ [EvLog "INFO" "Recording for 3 seconds..."; EvRecord]) ∧
  (∃ w', create_task env_interrupted sample_config w = (Raise KeyboardInterrupt, w') ∧
         speech_requests (trace w') = [name_prompt]) ∧
  (∃ w', main_iteration env_interrupted sample_config w = (Ok true, w') ∧
         speech_requests (trace w')
         = [command_prompt; "Interrupted by user. Exiting the task scheduler."]).
Proof.
  intros w. split; [| split]; eexists; (split; [vm_compute; reflexivity |]).
  - split; reflexivity.
  - reflexivity.
  - reflexivity.
Qed.

Lemma create_task_footprint env config w r w' :
  create_task env config w = (r, w') →
  footprint (voice_event env config) (is_temp_path env config) w w'.
Proof. intros H. by destruct (within_create_task env config _ _ _ H). Qed.

Lemma voice_events_sent env config evs :
  Forall (voice_event env config) evs →
  sent evs = [] ∧ ∀ p, p ∈ written evs → is_temp_path env config p.
Proof.
  induction 1 as [| ev evs Hev _ [IH1 IH2]]; [split; [done | intros p Hp; inversion Hp] |].
  destruct ev; try done; cbn in *; split; try done.
  intros p [-> | Hp]%elem_of_cons; [done | by apply IH2].
Qed.

Lemma os_path_join_length a b :
  (String.length a + String.length b ≤ String.length (os_path_join a b))%nat.
Proof.
  unfold os_path_join. destruct (truthy a) eqn:E.
  - destruct (ends_with_slash a); rewrite !string_length_app; cbn; lia.
  - apply truthy_false in E as ->. cbn. lia.
Qed.

Lemma default_log_not_temp env home :
  ¬ is_temp_path env (default_config home) (csv_file (default_config home)).
Proof.
  intros (now & suffix & H). apply (f_equal String.length) in H.
  unfold temp_path in H.
  pose proof (os_path_join_length (temp_dir (default_config home))
                ("temp_" +:+ pretty now +:+ "_" +:+ pretty (os_getpid env) +:+ suffix)) as H1.
  pose proof (os_path_join_length home "voice_scheduler_temp") as H2.
  cbn in H, H1, H2. cbn in *. lia.
Qed.

(** X3: whatever the outside world does, [text_to_speech],
    [get_voice_input] and [create_task] leave the scheduler alone, send no
    message, and write and remove temporary files only: every other file
    is as it was, in particular the log [tasks.csv] of the default
    configuration. *)
Theorem voice_front_end_confined env config :
  (∀ text w r w',
     text_to_speech env config text w = (r, w') →
     footprint (voice_event env config) (is_temp_path env config) w w') ∧
  (∀ prompt w r w',
     get_voice_input env config prompt w = (r, w') →
     footprint (voice_event env config) (is_temp_path env config) w w') ∧
  (∀ w r w',
     create_task env config w = (r, w') →
     footprint (voice_event env config) (is_temp_path env config) w w') ∧
  (∀ w w',
     footprint (voice_event env config) (is_temp_path env config) w w' →
     jobs w' = jobs w ∧ job_store w' = job_store w ∧
     (∀ home, config = default_config home → fs w' !! "tasks.csv" = fs w !! "tasks.csv") ∧
     ∃ evs, trace w' = trace w ++ evs ∧ sent evs = [] ∧
            ∀ p, p ∈ written evs → is_temp_path env config p).
Proof.
  split; [| split; [| split]].
  - intros text w r w' H. by destruct (within_text_to_speech env config text _ _ _ H).
  - intros prompt w r w' H. by destruct (within_get_voice_input env config prompt _ _ _ H).
  - intros w r w' H. by destruct (within_create_task env config _ _ _ H).
  - intros w w' (Hj & Hs & Hf & evs & Ht & Hp).
    split; [done |]. split; [done |]. split.
    + intros home ->. apply Hf, (default_log_not_temp env home).
    + exists evs. split; [done |]. by apply voice_events_sent.
Qed.

Lemma voice_front_end_confined_witness :
  let env := env_dialogue "pay rent" "tomorrow at 3pm" in
  let w := fresh_world 1741100000 in
  footprint (voice_event env sample_config) (is_temp_path env sample_config) w
    (snd (create_task env sample_config w)).
Proof.
  intros env w.
  apply (proj1 (proj2 (proj2 (voice_front_end_confined env sample_config))) w
           (fst (create_task env sample_config w))).
  vm_compute. reflexivity.
Defined.

(** ** The voice front end when file operations work *)

Lemma rstrip_idempotent s : rstrip (rstrip s) = rstrip s.
Proof.
  induction s as [| c s IH]; [done |]. cbn [rstrip].
  destruct (rstrip s) as [| d r] eqn:E.
  - destruct (py_isspace c) eqn:Ec; [done |]. cbn [rstrip]. by rewrite Ec.
  - change (rstrip (String c (String d r))) with
      (match rstrip (String d r) with
       | EmptyString => if py_isspace c then EmptyString else String c EmptyString
       | r' => String c r'
       end).
    by rewrite IH.
Qed.

Lemma strip_idempotent s : strip (strip s) = strip s.
Proof.
  unfold strip. destruct (lstrip_head s) as [-> | (c & r & -> & Hc)]; [done |].
  destruct (rstrip_head c r Hc) as (r' & E). rewrite E.
  cbn [lstrip]. rewrite Hc. rewrite <- E. apply rstrip_idempotent.
Qed.




Lemma save_audio_ok_inv env config audio w p w1 :
  save_audio env config audio w = (Ok p, w1) →
  p = temp_path env config (clock w) ".wav" ∧ fs w1 !! p = Some audio ∧
  clock w1 = clock w.
Proof.
  unfold save_audio. intros H.
  apply bind_ok_inv in H as (a & w0 & Ha & H).
  rewrite get_temp_path_run in Ha. injection Ha as <- <-.
  apply try_except_ok_inv in H as [H | (e & w2 & _ & H)].
  - apply bind_ok_inv in H as ([] & w2 & Hw & H). injection H as <- <-.
    split; [done |]. unfold write_file in Hw.
    apply bind_ok_inv in Hw as (k & w3 & Hk & Hw). injection Hk as <- <-.
    apply bind_ok_inv in Hw as ([] & w4 & Hc & Hw).
    destruct (io_fault env _ _); [discriminate |]. injection Hc as <-.
    injection Hw as <-. cbn. by rewrite lookup_insert_eq.
  - apply bind_ok_inv in H as ([] & w3 & _ & H). discriminate.
Qed.

(** The two halves of [text_to_speech] when no file operation fails: what
    the [try] part leaves, and what the [finally] block makes of it. *)
Lemma text_to_speech_halves env config text w :
  no_io_fault env →
  let temp_mp3 := temp_path env config (clock w) ".mp3" in
  let temp_wav := temp_path env config (clock w) ".wav" in
  ∃ r w1 w' evs1 evs2,
    text_to_speech env config text w = (r, w') ∧
    trace w1 = trace w ++ evs1 ∧ trace w' = trace w1 ++ evs2 ∧
    (∀ k, k ≠ temp_mp3 → k ≠ temp_wav → fs w1 !! k = fs w !! k) ∧
    (∀ p, p ∈ written evs1 → p = temp_mp3 ∨ p = temp_wav) ∧
    speech_requests evs1 = [text] ∧
    fs w' = delete temp_wav (delete temp_mp3 (fs w1)) ∧
    written evs2 = [] ∧ speech_requests evs2 = [].
Proof.
  intros Hio mp3 wav.
  destruct (text_to_speech_try_run env Hio text mp3 wav w)
    as (r & w1 & evs1 & E1 & Ht1 & Hf1 & Hw1 & Hs1 & _).
  destruct (remove_temp_files_run env Hio [mp3; wav] w1)
    as (w' & evs2 & E2 & Ht2 & Hf2 & Hw2 & Hs2 & _).
  exists r, w1, w', evs1, evs2. split; [| done].
  unfold text_to_speech.
  rewrite (bind_ok _ _ _ _ _ (get_temp_path_run env config ".mp3" w)).
  rewrite (bind_ok _ _ _ _ _ (get_temp_path_run env config ".wav" w)).
  by apply try_finally_run with w1.
Qed.

(** X4: when no file operation fails, [text_to_speech] requests the
    synthesis of its text once and ends, whether it returns or raises,
    with both of its temporary files absent and every other file as
    before. *)
Theorem text_to_speech_leaves_no_file env config text w :
  no_io_fault env →
  let temp_mp3 := temp_path env config (clock w) ".mp3" in
  let temp_wav := temp_path env config (clock w) ".wav" in
  ∃ r w' evs,
    text_to_speech env config text w = (r, w') ∧
    trace w' = trace w ++ evs ∧
    speech_requests evs = [text] ∧
    (∀ path, path ∈ written evs → path = temp_mp3 ∨ path = temp_wav) ∧
    fs w' = delete temp_wav (delete temp_mp3 (fs w)).
Proof.
  intros Hio mp3 wav.
  destruct (text_to_speech_halves env config text w Hio)
    as (r & w1 & w' & evs1 & evs2 & E & Ht1 & Ht2 & Hf1 & Hw1 & Hs1 & Hf2 & Hw2 & Hs2).
  fold mp3 wav in Hf1, Hw1, Hf2.
  exists r, w', (evs1 ++ evs2). split; [done |].
  split; [by rewrite Ht2, Ht1, app_assoc |].
  split; [revert Hs1 Hs2; unfold speech_requests; rewrite omap_app;
          by intros -> -> |].
  split.
  - intros p. unfold written. rewrite omap_app, elem_of_app.
    fold (written evs1). fold (written evs2). rewrite Hw2.
    intros [Hp | Hp]; [by apply Hw1 | inversion Hp].
  - rewrite Hf2. apply map_eq. intros k.
    destruct (decide (k = wav)) as [-> | Hkw];
      [by rewrite !lookup_delete_eq |].
    rewrite !(lookup_delete_ne _ wav) by done.
    destruct (decide (k = mp3)) as [-> | Hkm];
      [by rewrite !lookup_delete_eq |].
    rewrite !(lookup_delete_ne _ mp3) by done. by apply Hf1.
Qed.

Lemma text_to_speech_leaves_no_file_witness :
  ∃ r w' evs,
    text_to_speech (env_nominal "pay rent") sample_config "Hello"
      (fresh_world 1741100000) = (r, w') ∧
    trace w' = trace (fresh_world 1741100000) ++ evs ∧
    speech_requests evs = ["Hello"] ∧
    (∀ path, path ∈ written evs →
       path = temp_path (env_nominal "pay rent") sample_config 1741100000 ".mp3"
       ∨ path = temp_path (env_nominal "pay rent") sample_config 1741100000 ".wav") ∧
    fs w' = delete (temp_path (env_nominal "pay rent") sample_config 1741100000 ".wav")
              (delete (temp_path (env_nominal "pay rent") sample_config 1741100000 ".mp3")
                 (fs (fresh_world 1741100000))).
Proof.
  apply (text_to_speech_leaves_no_file (env_nominal "pay rent") sample_config
           "Hello" (fresh_world 1741100000)).
  intros k path. reflexivity.
Defined.

(** X5: [_get_temp_path] names a file by the second of the clock, the
    process and the suffix only, so the recording that [save_audio] saved
    and the WAV file of a [text_to_speech] made in the same second share
    a path: after such a call the recording is gone, whether the call
    returned or raised. *)
Theorem text_to_speech_removes_recording env config audio w p w1 text v r v' :
  no_io_fault env →
  save_audio env config audio w = (Ok p, w1) →
  clock v = clock w →
  text_to_speech env config text v = (r, v') →
  fs w1 !! p = Some audio ∧ fs v' !! p = None.
Proof.
  intros Hio Hs Hc Ht.
  apply save_audio_ok_inv in Hs as (-> & Hp & _). split; [done |].
  destruct (text_to_speech_halves env config text v Hio)
    as (r0 & v1 & v0 & evs1 & evs2 & E & _ & _ & _ & _ & _ & Hf & _).
  rewrite Ht in E. injection E as <- <-.
  rewrite Hf, Hc. apply lookup_delete_eq.
Qed.

Lemma text_to_speech_removes_recording_witness :
  let env := env_nominal "pay rent" in
  let w := fresh_world 1741100000 in
  let p := temp_path env sample_config 1741100000 ".wav" in
  let w1 := snd (save_audio env sample_config "pcm" w) in
  fs w1 !! p = Some "pcm" ∧
  fs (snd (text_to_speech env sample_config "Hello" w1)) !! p = None.
Proof.
  intros env w p w1.
  apply (text_to_speech_removes_recording env sample_config "pcm" w p w1 "Hello" w1
           (fst (text_to_speech env sample_config "Hello" w1))).
  - intros k path. reflexivity.
  - vm_compute. reflexivity.
  - reflexivity.
  - vm_compute. reflexivity.
Defined.

(** X6: a text that [speech_to_text] returns is stripped, so stripping it
    again changes nothing, and the audio file was there; when the audio
    file is missing the function logs the error and raises
    [FileNotFoundError] without a transcription request. *)
Theorem speech_to_text_stripped env audio_path w :
  (∀ text w', speech_to_text env audio_path w = (Ok text, w') →
     strip text = text ∧ is_Some (fs w !! audio_path)) ∧
  (fs w !! audio_path = None →
   let e := FileNotFoundError audio_path in
   speech_to_text env audio_path w
   = (Raise e,
      set_trace (trace w ++ [EvLog "ERROR" ("Error in speech_to_text: " +:+ exn_msg e)])
        w)).
Proof.
  split.
  - intros text w' H. split.
    + apply speech_to_text_ok_inv in H as (raw & ->). apply strip_idempotent.
    + unfold speech_to_text in H.
      apply try_except_ok_inv in H as [H | (e & w1 & _ & H)].
      * apply bind_ok_inv in H as (a & w1 & Ha & _). unfold read_file in Ha.
        destruct (fs w !! audio_path); [by eexists | discriminate].
      * apply bind_ok_inv in H as ([] & w2 & _ & H). discriminate.
  - intros Hn e. unfold speech_to_text, try_except, bind, read_file. by rewrite Hn.
Qed.

Lemma speech_to_text_stripped_witness :
  strip "pay rent" = "pay rent" ∧
  is_Some (fs (set_fs {[ "a.wav" := "pcm" ]} (fresh_world 1741100000)) !! "a.wav").
Proof.
  apply (proj1 (speech_to_text_stripped (env_nominal "  pay rent ") "a.wav"
                  (set_fs {[ "a.wav" := "pcm" ]} (fresh_world 1741100000)))
           "pay rent"
           (snd (speech_to_text (env_nominal "  pay rent ") "a.wav"
                   (set_fs {[ "a.wav" := "pcm" ]} (fresh_world 1741100000))))).
  vm_compute. reflexivity.
Defined.

(** X7: when no file operation fails and no collaborator raises a
    keyboard interrupt, whatever else the speech services and the
    microphone do, [get_voice_input] makes at most [max_retries]
    recordings and at most one transcription request per recording, leaves
    no file behind, and raises either because the prompt could not be
    spoken, before any recording, or with
    [ValueError("Maximum retries reached")] after exactly [max_retries]
    recordings. *)
Theorem get_voice_input_bounded env config prompt w :
  no_io_fault env → no_interrupt env →
  ∃ r w' evs,
    get_voice_input env config prompt w = (r, w') ∧ tidy w w' evs ∧
    (recordings evs ≤ max_retries config)%nat ∧
    (transcriptions evs ≤ recordings evs)%nat ∧
    (∀ e, r = Raise e →
       (speak_prompt env config prompt w = (Raise e, w') ∧ recordings evs = 0%nat)
       ∨ (r = exhausted ∧ recordings evs = max_retries config)).
Proof.
  intros Hio Hni.
  destruct (speak_prompt_run env config Hio prompt w)
    as (r0 & w0 & evs0 & Heq0 & Htidy0 & Hr0 & Hx0 & _).
  destruct r0 as [[] | e0].
  - destruct (get_voice_input_run env config Hio Hni prompt w (ex_intro _ w0 Heq0))
      as (r & w' & evs & Heq & Htidy & Hr & Hx & Hexh & _).
    exists r, w', evs. repeat (split; [done |]). intros e He. right. by apply Hexh in He.
  - exists (Raise e0), w0, evs0. split.
    { unfold get_voice_input. by rewrite (bind_raise _ _ _ _ _ Heq0). }
    split; [done |]. rewrite Hr0, Hx0. split; [lia |]. split; [lia |].
    intros e [= <-]. by left.
Qed.

Lemma get_voice_input_bounded_witness :
  ∃ r w' evs,
    get_voice_input env_stt_down sample_config (Some command_prompt)
      (fresh_world 1741100000) = (r, w') ∧
    tidy (fresh_world 1741100000) w' evs ∧
    (recordings evs ≤ 3)%nat ∧
    (transcriptions evs ≤ recordings evs)%nat ∧
    (∀ e, r = Raise e →
       (speak_prompt env_stt_down sample_config (Some command_prompt)
          (fresh_world 1741100000) = (Raise e, w') ∧ recordings evs = 0%nat)
       ∨ (r = exhausted ∧ recordings evs = 3%nat)).
Proof.
  apply (get_voice_input_bounded env_stt_down sample_config (Some command_prompt)
           (fresh_world 1741100000)).
  - intros k path. reflexivity.
  - no_interrupt_by_cases.
Defined.



(** ** Tasks, messages and jobs *)

Lemma schedule_reminder_ok task w tm :
  parse_at_time (deadline_time task) = Some tm →
  schedule_reminder task w
  = (Ok tt,
     set_trace
       (trace w ++
        [EvLog "INFO" ("Reminder scheduled for task '" +:+ name task +:+ "' at "
                       +:+ deadline_time task)])
       (set_jobs (jobs w ++ [length (job_store w)])
          (set_job_store
             (job_store w ++
              [mkJob tm (next_occurrence tm (clock w)) None None
                 (send_reminder task)]) w))).
Proof.
  intros Hp. unfold schedule_reminder, every_day_at_do. rewrite Hp. mrun.
  by rewrite schedule_next_run_first_eq.
Qed.

Lemma schedule_reminder_raises task w :
  parse_at_time (deadline_time task) = None →
  schedule_reminder task w
  = (Raise (ScheduleValueError (at_time_error (deadline_time task))), w).
Proof.
  intros Hp. unfold schedule_reminder, every_day_at_do. by rewrite Hp.
Qed.

Lemma send_whatsapp_message_eq env message w :
  send_whatsapp_message env message w
  = let w1 := set_trace
                (trace w ++
                 [EvSend message ("whatsapp:" +:+ twilio_whatsapp_number env)
                    ("whatsapp:" +:+ user_whatsapp_number env)]) w in
    match messages_create env (length (trace w)) message with
    | None =>
        (Ok tt,
         set_trace (trace w1 ++ [EvLog "INFO" "WhatsApp message sent successfully"]) w1)
    | Some e =>
        (Raise e,
         if is_Exception e then
           set_trace
             (trace w1 ++
              [EvLog "ERROR" ("Error sending WhatsApp message: " +:+ exn_msg e)]) w1
         else w1)
    end.
Proof.
  unfold send_whatsapp_message. mrun. cbn.
  destruct (messages_create env _ _) as [e |]; [| done]. cbn.
  by destruct (is_Exception e).
Qed.

Lemma send_confirmation_eq env task :
  send_confirmation env task = send_whatsapp_message env (confirmation_message task).
Proof. reflexivity. Qed.

Lemma save_task_eq env config task w :
  save_task env config task w
  = let w1 := set_trace (trace w ++ [EvAppend (csv_file config)]) w in
    match io_fault env (length (trace w)) (csv_file config) with
    | None =>
        (Ok tt,
         set_fs (<[csv_file config :=
                     default EmptyString (fs w !! csv_file config)
                     +:+ csv_writerow [name task; due_date task; deadline_time task]]>
                   (fs w)) w1)
    | Some e =>
        (Raise e,
         if is_Exception e then
           set_trace (trace w1 ++ [EvLog "ERROR" ("Error saving task: " +:+ exn_msg e)])
             w1
         else w1)
    end.
Proof.
  unfold save_task, try_except. rewrite append_file_run.
  destruct (io_fault env _ _) as [e |]; [| done]. by destruct (is_Exception e).
Qed.

Lemma confirmation_message_contains task :
  contains (confirmation_message task) (name task) ∧
  contains (confirmation_message task) (due_date task) ∧
  contains (confirmation_message task) (deadline_time task).
Proof.
  unfold confirmation_message, contains. split; [| split].
  - by eexists _, _.
  - exists ("Task Created: '" +:+ name task +:+ "' has been scheduled. It is due on "),
      (" at " +:+ deadline_time task).
    by rewrite !string_app_assoc.
  - exists ("Task Created: '" +:+ name task +:+ "' has been scheduled. It is due on "
            +:+ due_date task +:+ " at "), EmptyString.
    by rewrite string_app_nil_r, !string_app_assoc.
Qed.

(** X9: [send_confirmation] makes exactly one Twilio request, from and
    to the configured numbers with the prefix [whatsapp:], whose body names
    the task, its due date and its deadline time; it returns when the
    request does, after the INFO entry, and raises what the request raised
    otherwise, after an ERROR entry when that is an [Exception] and
    without a log entry when it is a keyboard interrupt; files, scheduler
    and clock are untouched. *)
Theorem send_confirmation_sends_once env task w :
  ∃ r w' logs,
    send_confirmation env task w = (r, w') ∧
    trace w'
    = trace w ++
      EvSend (confirmation_message task)
        ("whatsapp:" +:+ twilio_whatsapp_number env)
        ("whatsapp:" +:+ user_whatsapp_number env)
      :: logs ∧
    r = match messages_create env (length (trace w)) (confirmation_message task) with
        | None => Ok tt
        | Some e => Raise e
        end ∧
    logs = match r with
           | Ok _ => [EvLog "INFO" "WhatsApp message sent successfully"]
           | Raise e =>
               if is_Exception e
               then [EvLog "ERROR" ("Error sending WhatsApp message: " +:+ exn_msg e)]
               else []
           end ∧
    fs w' = fs w ∧ jobs w' = jobs w ∧ job_store w' = job_store w ∧
    clock w' = clock w ∧
    contains (confirmation_message task) (name task) ∧
    contains (confirmation_message task) (due_date task) ∧
    contains (confirmation_message task) (deadline_time task).
Proof.
  rewrite send_confirmation_eq, send_whatsapp_message_eq. cbn zeta.
  destruct (messages_create env _ _) as [e |];
    [destruct (is_Exception e) eqn:He |];
    eexists _, _, _; (split; [reflexivity |]); cbn; rewrite <- ?app_assoc;
    rewrite ?He; repeat (split; [reflexivity |]);
    apply confirmation_message_contains.
Qed.

(** X10: a task that [create_task] returns has a non-empty name without
    leading or trailing white space, the due date that [strftime] prints
    for a datetime (of the form YYYY-MM-DD when its year has four digits)
    and a deadline time HH:MM that the scheduler accepts, on a full
    minute: [schedule_reminder] never raises on it and registers one more
    job. *)
Theorem create_task_result_schedulable env config w task w' :
  resolver_valid env →
  create_task env config w = (Ok (Some task), w') →
  name task ≠ EmptyString ∧ strip (name task) = name task ∧
  (∃ dt, valid_datetime dt ∧ due_date task = strftime_Ymd dt ∧
         (1000 ≤ year dt → is_YYYY_MM_DD (due_date task) = true)) ∧
  is_HH_MM (deadline_time task) = true ∧
  ∃ tm, parse_at_time (deadline_time task) = Some tm ∧ tm mod 60 = 0 ∧
        ∀ v, ∃ v', schedule_reminder task v = (Ok tt, v') ∧
                   jobs v' = jobs v ++ [length (job_store v)].
Proof.
  intros Hvalid Hct.
  destruct (create_task_well_formed _ _ _ _ _ Hvalid Hct) as (Hn & Hd & Ht & _).
  destruct (create_task_some_inv _ _ _ _ _ Hct)
    as (w1 & date_str & w2 & dt & Hname & _ & Hdt & Hparse).
  destruct (get_voice_input_ok_inv _ _ _ _ _ _ Hname) as [_ [raw Hraw]].
  split; [by destruct (name task) |].
  split; [rewrite Hraw; apply strip_idempotent |].
  split.
  { destruct Hd as (dt0 & Hv0 & Hd0). exists dt0. split; [done |]. split; [done |].
    intros Hy. rewrite Hd0. by apply strftime_Ymd_shape. }
  split; [done |].
  rewrite (parse_datetime_resolved _ _ _ _ Hdt) in Hparse.
  injection Hparse as _ Htime _.
  destruct (Hvalid _ _ _ Hdt) as (_ & _ & _ & Hh & Hm & _).
  assert (∃ tm, parse_at_time (deadline_time task) = Some tm ∧ tm mod 60 = 0)
    as (tm & Htm & Hmod).
  { rewrite <- Htime. destruct (time_is_min dt).
    - by exists 43200.
    - eexists. split; [by apply parse_at_time_strftime_HM |].
      replace (hour dt * 3600 + minute dt * 60)
        with ((hour dt * 60 + minute dt) * 60) by lia.
      apply Z.mod_mul. lia. }
  exists tm. split; [done |]. split; [done |].
  intros v. eexists. split; [by apply schedule_reminder_ok |]. done.
Qed.

Lemma create_task_result_schedulable_witness :
  let task := mkTask "pay rent" "2025-03-05" "15:00" in
  name task ≠ EmptyString ∧ strip (name task) = name task ∧
  (∃ dt, valid_datetime dt ∧ due_date task = strftime_Ymd dt ∧
         (1000 ≤ year dt → is_YYYY_MM_DD (due_date task) = true)) ∧
  is_HH_MM (deadline_time task) = true ∧
  ∃ tm, parse_at_time (deadline_time task) = Some tm ∧ tm mod 60 = 0 ∧
        ∀ v, ∃ v', schedule_reminder task v = (Ok tt, v') ∧
                   jobs v' = jobs v ++ [length (job_store v)].
Proof.
  intros task.
  apply (create_task_result_schedulable (env_dialogue "pay rent" "tomorrow at 3pm")
           sample_config (fresh_world 1741100000) task
           (snd (create_task (env_dialogue "pay rent" "tomorrow at 3pm") sample_config
                   (fresh_world 1741100000)))).
  - intros now text dt. cbn. unfold sample_resolver.
    repeat case_bool_decide; intros [= <-]; vm_compute; repeat split; discriminate.
  - vm_compute. reflexivity.
Defined.

(** X11: when the message of a due reminder cannot be sent,
    [run_pending] raises the exception of [send_whatsapp_message], the job
    keeps its due time, and the polling loop of [main], which has no
    handler for it, stops there. *)
Theorem reminder_failure_stops_polling env ref tm task nr v e :
  only_job ref tm task nr v → nr ≤ clock v →
  messages_create env (length (trace v)) (reminder_message task) = Some e →
  ∃ v',
    run_pending env v = (Raise e, v') ∧
    only_job ref tm task nr v' ∧ clock v' = clock v ∧
    (∃ evs, trace v' = trace v ++ evs ∧ sent evs = [reminder_message task]) ∧
    ∀ elapsed rest, poll_loop env (elapsed :: rest) v = (Raise e, v').
Proof.
  intros (Hjobs & job & Hjob & Hrem & Hnr) Hdue Hfail.
  assert (run_pending env v = _run_job env ref v) as Hrp.
  { unfold run_pending. rewrite (runnable_jobs_single _ _ Hjobs).
    unfold ref_should_run, should_run. rewrite Hjob. cbn.
    rewrite bool_decide_eq_true_2 by lia. apply run_jobs_single. }
  destruct (run_job_reminder env ref tm task job v Hjob Hrem)
    as (r & v' & evs & Heq & Ht & Hs & Hc & Hj & _ & Hr & Hst).
  rewrite Hfail in Hr. subst r.
  exists v'. rewrite Hrp. split; [done |].
  split; [split; [congruence | exists job; by rewrite Hst] |].
  split; [done |]. split; [by exists evs |].
  intros elapsed rest. cbn [poll_loop].
  apply bind_raise. by rewrite Hrp.
Qed.

Lemma reminder_failure_stops_polling_witness :
  let v := set_clock 1741165200
             (snd (schedule_reminder sample_task (fresh_world 1741100000))) in
  ∃ v',
    run_pending (env_twilio_down "a" "b") v
    = (Raise (sample_error "twilio unavailable"), v') ∧
    only_job 0 32400 sample_task 1741165200 v' ∧ clock v' = clock v ∧
    (∃ evs, trace v' = trace v ++ evs ∧ sent evs = [reminder_message sample_task]) ∧
    ∀ elapsed rest,
      poll_loop (env_twilio_down "a" "b") (elapsed :: rest) v
      = (Raise (sample_error "twilio unavailable"), v').
Proof.
  intros v.
  apply (reminder_failure_stops_polling (env_twilio_down "a" "b") 0 32400 sample_task
           1741165200 v).
  - split; [reflexivity |]. eexists. split; [vm_compute; reflexivity |].
    repeat split.
  - vm_compute. discriminate.
  - reflexivity.
Defined.

(** X12: [schedule_reminder] does not look for an existing job of the
    task: registering the same task twice leaves two jobs, and a pass of
    [run_pending] that returns once they are due has sent the reminder
    twice. *)
Theorem schedule_reminder_twice_sends_twice env task w tm :
  parse_at_time (deadline_time task) = Some tm →
  jobs w = [] →
  ∃ w1 w2,
    schedule_reminder task w = (Ok tt, w1) ∧
    schedule_reminder task w1 = (Ok tt, w2) ∧
    jobs w2 = [length (job_store w); S (length (job_store w))] ∧
    ∀ v v',
      jobs v = jobs w2 → job_store v = job_store w2 →
      next_occurrence tm (clock w) ≤ clock v →
      run_pending env v = (Ok tt, v') →
      ∃ evs, trace v' = trace v ++ evs ∧
             sent evs = [reminder_message task; reminder_message task].
Proof.
  intros Hp Hj.
  set (n := length (job_store w)).
  set (job := mkJob tm (next_occurrence tm (clock w)) None None (send_reminder task)).
  eexists _, _. split; [by apply schedule_reminder_ok |].
  split; [by apply schedule_reminder_ok |].
  cbn. rewrite Hj, length_app. cbn. rewrite Nat.add_1_r. fold n job.
  split; [done |].
  intros v v' Hjv Hsv Hdue Hrun.
  rewrite <- app_assoc in Hsv. cbn in Hsv.
  assert (job_store v !! n = Some job) as H0.
  { rewrite Hsv. by rewrite lookup_app_r, Nat.sub_diag by done. }
  assert (job_store v !! S n = Some job) as H1.
  { rewrite Hsv. rewrite lookup_app_r by (unfold n; lia).
    by replace (S n - length (job_store w))%nat with 1%nat by (unfold n; lia). }
  assert (runnable_jobs v = [n; S n]) as Hrj.
  { unfold runnable_jobs. rewrite Hjv.
    assert (∀ ref, job_store v !! ref = Some job →
                   ref_should_run (job_store v) (clock v) ref = true) as Hsr.
    { intros ref Hr. unfold ref_should_run, should_run. rewrite Hr. cbn.
      by rewrite bool_decide_eq_true_2. }
    rewrite !filter_cons, filter_nil.
    rewrite !decide_True by (apply Is_true_true; by apply Hsr).
    cbn. unfold ref_next_run. rewrite H0, H1. cbn.
    by rewrite bool_decide_eq_false_2 by lia. }
  unfold run_pending in Hrun. rewrite Hrj in Hrun. cbn [run_jobs] in Hrun.
  apply bind_ok_inv in Hrun as ([] & v1 & Hr1 & Hrun).
  apply bind_ok_inv in Hrun as ([] & v2 & Hr2 & Hrun). injection Hrun as <-.
  assert (reminder_job tm task job) as Hrem by done.
  destruct (run_job_reminder env n tm task job v H0 Hrem)
    as (r & v1' & evs1 & Heq1 & Ht1 & Hs1 & _ & _ & _ & _ & Hst1).
  rewrite Hr1 in Heq1. injection Heq1 as <- <-.
  assert (job_store v1 !! S n = Some job) as H1'.
  { rewrite Hst1. rewrite list_lookup_insert_ne by lia. done. }
  destruct (run_job_reminder env (S n) tm task job v1 H1' Hrem)
    as (r & v2' & evs2 & Heq2 & Ht2 & Hs2 & _).
  rewrite Hr2 in Heq2. injection Heq2 as <- <-.
  exists (evs1 ++ evs2). split; [by rewrite Ht2, Ht1, app_assoc |].
  unfold sent in *. by rewrite omap_app, Hs1, Hs2.
Qed.

Lemma schedule_reminder_twice_sends_twice_witness :
  ∃ w1 w2,
    schedule_reminder sample_task (fresh_world 1741100000) = (Ok tt, w1) ∧
    schedule_reminder sample_task w1 = (Ok tt, w2) ∧
    jobs w2 = [0; 1]%nat ∧
    ∀ v v',
      jobs v = jobs w2 → job_store v = job_store w2 →
      next_occurrence 32400 1741100000 ≤ clock v →
      run_pending (env_nominal "pay rent") v = (Ok tt, v') →
      ∃ evs, trace v' = trace v ++ evs ∧
             sent evs = [reminder_message sample_task; reminder_message sample_task].
Proof.
  apply (schedule_reminder_twice_sends_twice (env_nominal "pay rent") sample_task
           (fresh_world 1741100000) 32400).
  - reflexivity.
  - reflexivity.
Defined.

Lemma csv_needs_quote_app f g :
  csv_needs_quote (f +:+ g) = csv_needs_quote f || csv_needs_quote g.
Proof.
  induction f as [| c f IH]; [done |].
  rewrite string_app_cons. cbn [csv_needs_quote]. by rewrite IH, orb_assoc.
Qed.

Lemma csv_field_plain f : csv_needs_quote f = false → csv_field f = f.
Proof. intros H. unfold csv_field. by rewrite H. Qed.

Lemma csv_join_cons f g rest :
  csv_join (f :: g :: rest) = csv_field f +:+ "," +:+ csv_join (g :: rest).
Proof. reflexivity. Qed.

Lemma csv_join_glue l f g h rest :
  csv_needs_quote f = false → csv_needs_quote g = false →
  csv_join (l ++ [f]) +:+ csv_join (g :: h :: rest)
  = csv_join (l ++ (f +:+ g) :: h :: rest).
Proof.
  intros Hf Hg. induction l as [| a l IH].
  - cbn [app]. rewrite !csv_join_cons. cbn [csv_join].
    rewrite (csv_field_plain f), (csv_field_plain g), (csv_field_plain (f +:+ g));
      [| by rewrite csv_needs_quote_app, Hf, Hg | done | done].
    by rewrite !string_app_assoc.
  - cbn [app]. destruct l as [| b l].
    + cbn [app] in *. rewrite (csv_join_cons a f []), (csv_join_cons a (f +:+ g)).
      by rewrite !string_app_assoc, IH.
    + cbn [app] in *. rewrite (csv_join_cons a b), (csv_join_cons a b).
      by rewrite !string_app_assoc, IH.
Qed.

Lemma csv_writerow_long a b c rest :
  csv_writerow (a :: b :: c :: rest) = csv_join (a :: b :: c :: rest) +:+ CRLF.
Proof. by destruct a. Qed.

Lemma csv_writerow_glue l f row3 :
  ∀ g h i, row3 = [g; h; i] →
  csv_needs_quote f = false → csv_needs_quote g = false →
  csv_join (l ++ [f]) +:+ csv_writerow row3
  = csv_writerow (l ++ [f +:+ g; h; i]).
Proof.
  intros g h i -> Hf Hg.
  rewrite csv_writerow_long, <- string_app_assoc, (csv_join_glue l f g h [i] Hf Hg).
  destruct l as [| a [| b [| c l]]]; cbn [app]; by rewrite ?csv_writerow_long.
Qed.

(** X13: [save_task] appends without looking at the end of the log.
    When the last line of the log has no line terminator, the new task
    gets no row of its own: its name is glued to the last field of that
    line, and reading the log back gives one row with both. *)
Theorem save_task_unterminated_log env config task w rows line f w' :
  fs w !! csv_file config = Some (csv_text rows +:+ csv_join (line ++ [f])) →
  csv_needs_quote f = false →
  csv_needs_quote (name task) = false →
  save_task env config task w = (Ok tt, w') →
  let merged := line ++ [f +:+ name task; due_date task; deadline_time task] in
  fs w' !! csv_file config = Some (csv_text (rows ++ [merged])) ∧
  (Forall (Forall short) rows → Forall short merged →
   (fs w' !! csv_file config ≫= csv_reader) = Some (rows ++ [merged])).
Proof.
  intros Hold Hf Hn Hs merged.
  rewrite save_task_eq in Hs.
  remember [name task; due_date task; deadline_time task] as row eqn:Hrow.
  cbn zeta in Hs.
  destruct (io_fault env _ _); [discriminate |]. injection Hs as Hw'.
  assert (fs w' !! csv_file config = Some (csv_text (rows ++ [merged]))) as E.
  { rewrite <- Hw'. cbn [fs set_fs set_trace]. rewrite lookup_insert_eq, Hold.
    cbn [from_option id]. rewrite csv_text_snoc, string_app_assoc.
    by rewrite (csv_writerow_glue line f row (name task) (due_date task)
                  (deadline_time task) Hrow Hf Hn). }
  split; [done |].
  intros Hrows Hm. rewrite E. cbn. apply csv_reader_csv_text.
  apply Forall_app. split; [done | by constructor].
Qed.

Lemma save_task_unterminated_log_witness :
  let env := env_nominal "pay rent" in
  let w := set_fs {[ "tasks.csv" := "Task Name,Due Date,Deadline Time" ]}
             (fresh_world 1741100000) in
  let w' := snd (save_task env sample_config sample_task w) in
  let merged := ["Task Name"; "Due Date"; "Deadline Time" +:+ "pay rent";
                 "2025-03-05"; "09:00"] in
  fs w' !! "tasks.csv" = Some (csv_text ([] ++ [merged])) ∧
  (Forall (Forall short) [] → Forall short merged →
   (fs w' !! "tasks.csv" ≫= csv_reader) = Some ([] ++ [merged])).
Proof.
  intros env w w' merged.
  apply (save_task_unterminated_log env sample_config sample_task w []
           ["Task Name"; "Due Date"] "Deadline Time" w').
  - vm_compute. reflexivity.
  - reflexivity.
  - reflexivity.
  - vm_compute. reflexivity.
Defined.

(** ** The command loop of [main] *)

Lemma lower_app a b : lower (a +:+ b) = lower a +:+ lower b.
Proof.
  induction a as [| c a IH]; [done |].
  rewrite string_app_cons. cbn [lower]. by rewrite IH, string_app_cons.
Qed.

Lemma starts_with_app x post : starts_with x (x +:+ post) = true.
Proof.
  induction x as [| c x IH]; [done |].
  rewrite string_app_cons. cbn [starts_with]. rewrite IH.
  by rewrite bool_decide_eq_true_2.
Qed.

Lemma starts_with_inv x s : starts_with x s = true → ∃ post, s = x +:+ post.
Proof.
  revert s. induction x as [| c x IH]; intros s; [by exists s |].
  destruct s as [| d s]; [done |]. cbn [starts_with].
  intros [Hc Hx]%andb_prop. apply bool_decide_eq_true_1 in Hc as ->.
  destruct (IH _ Hx) as [post ->]. by exists post.
Qed.

Lemma str_in_unfold x s :
  str_in x s
  = starts_with x s
    || match s with EmptyString => false | String _ s' => str_in x s' end.
Proof. by destruct s. Qed.

Lemma str_in_contains x s : str_in x s = true ↔ contains s x.
Proof.
  split.
  - induction s as [| c s IH]; rewrite str_in_unfold; intros H%orb_prop.
    + destruct H as [H | H]; [| done].
      destruct (starts_with_inv _ _ H) as [post ->]. by exists EmptyString, post.
    + destruct H as [H | H].
      * destruct (starts_with_inv _ _ H) as [post ->]. by exists EmptyString, post.
      * destruct (IH H) as (pre & post & ->). by exists (String c pre), post.
  - intros (pre & post & ->). induction pre as [| c pre IH].
    + rewrite str_in_unfold. change (EmptyString +:+ x +:+ post) with (x +:+ post).
      by rewrite starts_with_app.
    + rewrite string_app_cons, str_in_unfold, IH. apply orb_true_r.
Qed.

Lemma str_in_false x s : ¬ contains s x → str_in x s = false.
Proof.
  intros H. destruct (str_in x s) eqn:E; [| done].
  by apply str_in_contains in E.
Qed.

Lemma str_in_lower_word x pre word post :
  lower word = x → str_in x (lower (pre +:+ word +:+ post)) = true.
Proof.
  intros <-. apply str_in_contains. rewrite !lower_app. by eexists _, _.
Qed.

(** X14: the command is matched by substring on its lower-case form, and
    the test for "schedule" or "task" comes first: a command with a word
    that is "schedule" or "task" in any letter case is handled as the
    command "task", even when it also says "exit"; otherwise a word that
    is "exit" in any letter case makes it the command "exit"; every other
    command is handled as the empty one.  Only the command "exit" ends
    the loop. *)
Theorem handle_command_dispatch env config :
  (∀ pre word post,
     lower word = "schedule" ∨ lower word = "task" →
     handle_command env config (pre +:+ word +:+ post)
     = handle_command env config "task") ∧
  (∀ pre word post,
     lower word = "exit" →
     ¬ contains (lower (pre +:+ word +:+ post)) "schedule" →
     ¬ contains (lower (pre +:+ word +:+ post)) "task" →
     handle_command env config (pre +:+ word +:+ post)
     = handle_command env config "exit") ∧
  (∀ command,
     ¬ contains (lower command) "schedule" →
     ¬ contains (lower command) "task" →
     ¬ contains (lower command) "exit" →
     handle_command env config command = handle_command env config EmptyString) ∧
  (∀ w b w', handle_command env config "task" w = (Ok b, w') → b = false) ∧
  (∀ w b w', handle_command env config "exit" w = (Ok b, w') → b = true) ∧
  (∀ w b w', handle_command env config EmptyString w = (Ok b, w') → b = false).
Proof.
  split; [| split; [| split; [| split; [| split]]]].
  - intros pre word post H. unfold handle_command.
    assert (str_in "schedule" (lower (pre +:+ word +:+ post))
            || str_in "task" (lower (pre +:+ word +:+ post)) = true) as ->; [| done].
    destruct H as [H | H]; rewrite (str_in_lower_word _ _ _ _ H);
      [done | apply orb_true_r].
  - intros pre word post H Hs Ht. unfold handle_command.
    by rewrite (str_in_false _ _ Hs), (str_in_false _ _ Ht),
      (str_in_lower_word _ _ _ _ H).
  - intros command Hs Ht He. unfold handle_command.
    by rewrite (str_in_false _ _ Hs), (str_in_false _ _ Ht), (str_in_false _ _ He).
  - intros w b w' H. unfold handle_command in H. cbn [lower] in H.
    change (str_in "schedule" _ || str_in "task" _) with true in H. cbv iota in H.
    apply bind_ok_inv in H as ([task |] & w1 & _ & H); [| by injection H as <- _].
    apply bind_ok_inv in H as ([] & w2 & _ & H).
    apply bind_ok_inv in H as ([] & w3 & _ & H).
    apply bind_ok_inv in H as ([] & w4 & _ & H).
    apply bind_ok_inv in H as ([] & w5 & _ & H). by injection H as <- _.
  - intros w b w' H. unfold handle_command in H.
    change (str_in "schedule" _ || str_in "task" _) with false in H.
    change (str_in "exit" _) with true in H. cbv iota in H.
    apply bind_ok_inv in H as ([] & w1 & _ & H). by injection H as <- _.
  - intros w b w' H. unfold handle_command in H.
    change (str_in "schedule" _ || str_in "task" _) with false in H.
    change (str_in "exit" _) with false in H. cbv iota in H.
    apply bind_ok_inv in H as ([] & w1 & _ & H). by injection H as <- _.
Qed.

Lemma handle_command_dispatch_witness :
  handle_command (env_nominal "pay rent") sample_config
    ("Please EXIT after my " +:+ "Task" +:+ " is saved")
  = handle_command (env_nominal "pay rent") sample_config "task"
  ∧ handle_command (env_nominal "pay rent") sample_config
      ("I want to " +:+ "Exit" +:+ " now")
    = handle_command (env_nominal "pay rent") sample_config "exit"
  ∧ handle_command (env_nominal "pay rent") sample_config "what time is it"
    = handle_command (env_nominal "pay rent") sample_config EmptyString.
Proof.
  destruct (handle_command_dispatch (env_nominal "pay rent") sample_config)
    as (H1 & H2 & H3 & _).
  split; [apply H1; right; reflexivity |].
  split.
  - apply H2; [reflexivity | |]; intros H%str_in_contains; vm_compute in H;
      discriminate.
  - apply H3; intros H%str_in_contains; vm_compute in H; discriminate.
Defined.

(** X15: an exception in the body of the command loop is logged and
    spoken as "An error occurred: ... Please try again."; the loop goes on
    when that speech returns, and the exception of that speech leaves the
    loop when it raises, the handler not being guarded. *)
Theorem main_iteration_error_reported env config w e w1 :
  main_try env config w = (Raise e, w1) →
  exn_class e ≠ "KeyboardInterrupt" →
  let msg := "An error occurred: " +:+ exn_msg e +:+ ". Please try again." in
  let w2 := set_trace (trace w1 ++ [EvLog "ERROR" ("Error in main loop: " +:+ exn_msg e)])
              w1 in
  (∀ w3, text_to_speech env config msg w2 = (Ok tt, w3) →
         main_iteration env config w = (Ok false, w3) ∧
         ∀ fuel, command_loop env config (S fuel) w = command_loop env config fuel w3) ∧
  (∀ e' w3, text_to_speech env config msg w2 = (Raise e', w3) →
            main_iteration env config w = (Raise e', w3) ∧
            ∀ fuel, command_loop env config (S fuel) w = (Raise e', w3)).
Proof.
  intros Htry Hclass msg w2.
  assert (main_iteration env config w
          = (run text_to_speech env config msg; ret false) w2) as Hit.
  { unfold main_iteration, try_except_interrupt. rewrite Htry.
    rewrite (proj2 (is_Exception_class e) Hclass). unfold main_except.
    by rewrite (bind_ok _ _ _ _ _ (logger_run _ _ _)). }
  split.
  - intros w3 Hs. rewrite (bind_ok _ _ _ _ _ Hs) in Hit. split; [done |].
    intros fuel. cbn [command_loop]. by rewrite (bind_ok _ _ _ _ _ Hit).
  - intros e' w3 Hs. rewrite (bind_raise _ _ _ _ _ Hs) in Hit. split; [done |].
    intros fuel. cbn [command_loop]. by rewrite (bind_raise _ _ _ _ _ Hit).
Qed.

Lemma main_iteration_error_reported_witness :
  ∃ w3,
    main_iteration (env_goodbye_fails "exit") sample_config (fresh_world 1741100000)
    = (Ok false, w3) ∧
    ∀ fuel,
      command_loop (env_goodbye_fails "exit") sample_config (S fuel)
        (fresh_world 1741100000)
      = command_loop (env_goodbye_fails "exit") sample_config fuel w3.
Proof.
  eexists.
  eapply (main_iteration_error_reported (env_goodbye_fails "exit") sample_config
            (fresh_world 1741100000) (sample_error "speech service unavailable")).
  - vm_compute. reflexivity.
  - vm_compute. discriminate.
  - vm_compute. reflexivity.
Defined.



(** X17: nothing is undone when a later step fails: when the
    confirmation cannot be sent, the command raises, but the row of the
    task is in the log and its reminder is registered; the success
    message is not spoken. *)
Theorem confirmation_failure_keeps_task env config w task w1 w2 w3 e w4 :
  create_task env config w = (Ok (Some task), w1) →
  save_task env config task w1 = (Ok tt, w2) →
  schedule_reminder task w2 = (Ok tt, w3) →
  send_confirmation env task w3 = (Raise e, w4) →
  handle_command env config "task" w = (Raise e, w4) ∧
  fs w4 !! csv_file config
  = Some (default EmptyString (fs w1 !! csv_file config)
          +:+ csv_writerow [name task; due_date task; deadline_time task]) ∧
  (∃ tm, parse_at_time (deadline_time task) = Some tm ∧
         jobs w4 = jobs w ++ [length (job_store w)] ∧
         job_store w4
         = job_store w ++
           [mkJob tm (next_occurrence tm (clock w1)) None None (send_reminder task)]) ∧
  ∃ evs, trace w4 = trace w3 ++ evs ∧ speech_requests evs = [] ∧
         sent evs = [confirmation_message task].
Proof.
  intros Hc Hs Hr Hx.
  split.
  { unfold handle_command.
    change (str_in "schedule" _ || str_in "task" _) with true. cbv iota.
    rewrite (bind_ok _ _ _ _ _ Hc), (bind_ok _ _ _ _ _ Hs), (bind_ok _ _ _ _ _ Hr).
    by rewrite (bind_raise _ _ _ _ _ Hx). }
  destruct (create_task_footprint _ _ _ _ _ Hc) as (Hj & Hst & _).
  rewrite save_task_eq in Hs. cbn zeta in Hs.
  destruct (io_fault env _ _) as [e0 |]; [discriminate |]. injection Hs as <-.
  destruct (parse_at_time (deadline_time task)) as [tm |] eqn:Ep;
    [| by rewrite (schedule_reminder_raises _ _ Ep) in Hr].
  rewrite (schedule_reminder_ok _ _ _ Ep) in Hr. injection Hr as <-.
  rewrite send_confirmation_eq, send_whatsapp_message_eq in Hx. cbn zeta in Hx.
  destruct (messages_create env _ _) as [e1 |]; [| discriminate].
  injection Hx as <- <-. destruct (is_Exception e1); cbn.
  all: split; [by rewrite lookup_insert_eq |].
  all: split; [exists tm; by rewrite Hj, Hst |].
  all: eexists; split; [rewrite <- ?app_assoc; reflexivity | done].
Qed.

Lemma confirmation_failure_keeps_task_witness :
  let env := env_twilio_down "pay rent" "tomorrow at 3pm" in
  let task := mkTask "pay rent" "2025-03-05" "15:00" in
  let w := fresh_world 1741100000 in
  let w1 := snd (create_task env sample_config w) in
  let w2 := snd (save_task env sample_config task w1) in
  let w3 := snd (schedule_reminder task w2) in
  let w4 := snd (send_confirmation env task w3) in
  handle_command env sample_config "task" w
  = (Raise (sample_error "twilio unavailable"), w4) ∧
  fs w4 !! "tasks.csv"
  = Some (default EmptyString (fs w1 !! "tasks.csv")
          +:+ csv_writerow ["pay rent"; "2025-03-05"; "15:00"]) ∧
  (∃ tm, parse_at_time "15:00" = Some tm ∧
         jobs w4 = jobs w ++ [length (job_store w)] ∧
         job_store w4
         = job_store w ++
           [mkJob tm (next_occurrence tm (clock w1)) None None (send_reminder task)]) ∧
  ∃ evs, trace w4 = trace w3 ++ evs ∧ speech_requests evs = [] ∧
         sent evs = [confirmation_message task].
Proof.
  intros env task w w1 w2 w3 w4.
  apply (confirmation_failure_keeps_task env sample_config w task w1 w2 w3).
  - vm_compute. reflexivity.
  - vm_compute. reflexivity.
  - vm_compute. reflexivity.
  - vm_compute. reflexivity.
Defined.

Lemma session_refl env config w : session env config w w.
Proof.
  split; [exists []; by rewrite !app_nil_r |].
  split; [done |].
  split; [intros _; exists EmptyString; by rewrite string_app_nil_r |].
  exists []. by rewrite app_nil_r.
Qed.

Lemma session_trans env config w1 w2 w3 :
  session env config w1 w2 → session env config w2 w3 → session env config w1 w3.
Proof.
  intros ((new & Hs & Hj & Hn) & Hf & Hl & evs & Ht & Hp)
         ((new' & Hs' & Hj' & Hn') & Hf' & Hl' & evs' & Ht' & Hp').
  split; [| split; [| split]].
  - exists (new ++ new'). split; [by rewrite Hs', Hs, app_assoc |].
    split; [| by apply Forall_app].
    rewrite Hj', Hj, Hs, !length_app, seq_app, app_assoc. done.
  - intros p Hp1 Hp2. by rewrite Hf', Hf.
  - intros Hc. destruct (Hl Hc) as [a Ha]. destruct (Hl' Hc) as [a' Ha'].
    exists (a +:+ a'). by rewrite Ha', Ha, string_app_assoc.
  - exists (evs ++ evs'). split; [by rewrite Ht', Ht, app_assoc |].
    by apply Forall_app.
Qed.

#[global] Instance session_preorder env config : PreOrder (session env config).
Proof.
  split; [intros w; apply session_refl | intros w1 w2 w3; apply session_trans].
Qed.

Lemma voice_event_session_event env config ev :
  voice_event env config ev → session_event env config ev.
Proof. by destruct ev. Qed.

Lemma footprint_session env config w w' :
  footprint (voice_event env config) (is_temp_path env config) w w' →
  session env config w w'.
Proof.
  intros (Hj & Hs & Hf & evs & Ht & Hp).
  split; [exists []; by rewrite Hs, Hj, !app_nil_r |].
  split; [intros p Hp1 _; by apply Hf |].
  split; [intros Hc; exists EmptyString; by rewrite (Hf _ Hc), string_app_nil_r |].
  exists evs. split; [done |].
  eapply Forall_impl; [exact Hp | apply voice_event_session_event].
Qed.

Lemma within_session env config {A} (Q : A → Prop) m :
  within (footprint (voice_event env config) (is_temp_path env config)) Q m →
  within (session env config) Q m.
Proof.
  intros Hm w r w' Hr. destruct (Hm _ _ _ Hr) as [Hf Ha].
  split; [by apply footprint_session | done].
Qed.

Lemma session_events env config w w' evs :
  trace w' = trace w ++ evs → Forall (session_event env config) evs →
  jobs w' = jobs w → job_store w' = job_store w → fs w' = fs w →
  session env config w w'.
Proof.
  intros Ht Hp Hj Hs Hf.
  split; [exists []; by rewrite Hs, Hj, !app_nil_r |].
  split; [intros p _ _; by rewrite Hf |].
  split; [intros _; exists EmptyString; by rewrite Hf, string_app_nil_r |].
  by exists evs.
Qed.

Lemma within_session_logger env config level msg :
  within (session env config) anything (logger level msg).
Proof.
  intros w r w'. rewrite logger_run. intros [= <- <-]. split; [| done].
  apply session_events with [EvLog level msg]; try done. by repeat constructor.
Qed.

Lemma within_session_save_task env config task :
  within (session env config) anything (save_task env config task).
Proof.
  unfold save_task. wapply within_try_except.
  - intros w r w'. rewrite append_file_run.
    destruct (io_fault env _ _); intros [= <- <-]; (split; [| done]).
    + apply session_events with [EvAppend (csv_file config)]; try done.
      by repeat constructor.
    + split; [exists []; by rewrite !app_nil_r |].
      split; [intros p _ Hp; cbn; by rewrite lookup_insert_ne |].
      split; [intros _; eexists; cbn; by rewrite lookup_insert_eq |].
      exists [EvAppend (csv_file config)]. split; [done | by repeat constructor].
  - intros e. wapply within_bind; [apply within_session_logger |].
    intros _ _. wapply within_raise.
Qed.

Lemma within_session_schedule_reminder env config task :
  within (session env config) anything (schedule_reminder task).
Proof.
  intros w r w' Hr. split; [| done].
  destruct (parse_at_time (deadline_time task)) as [tm |] eqn:E.
  - rewrite (schedule_reminder_ok task w tm E) in Hr. injection Hr as <- <-.
    split; [eexists [_]; cbn; split; [done |]; split; [done | by repeat constructor] |].
    split; [done |].
    split; [intros _; exists EmptyString; by rewrite string_app_nil_r |].
    eexists [_]. split; [done |]. by repeat constructor.
  - rewrite (schedule_reminder_raises task w E) in Hr. injection Hr as <- <-.
    apply session_refl.
Qed.

Lemma within_session_send_confirmation env config task :
  within (session env config) anything (send_confirmation env task).
Proof.
  intros w r w'. rewrite send_confirmation_eq, send_whatsapp_message_eq. cbn zeta.
  destruct (messages_create env _ _) as [e |]; [destruct (is_Exception e) |];
    intros [= <- <-]; (split; [| done]);
    (eapply session_events; [cbn; by rewrite <- ?app_assoc | | done ..]);
    repeat constructor; by exists task.
Qed.

Lemma within_session_text_to_speech env config text :
  within (session env config) anything (text_to_speech env config text).
Proof. apply within_session, within_text_to_speech. Qed.

Lemma within_session_handle_command env config command :
  within (session env config) anything (handle_command env config command).
Proof.
  unfold handle_command.
  destruct (_ || _).
  - wapply within_bind; [apply within_session, within_create_task |].
    intros [task |] _; [| by wapply within_ret].
    wapply within_bind; [apply within_session_save_task |]. intros _ _.
    wapply within_bind; [apply within_session_schedule_reminder |]. intros _ _.
    wapply within_bind; [apply within_session_send_confirmation |]. intros _ _.
    wapply within_bind; [apply within_session_text_to_speech |]. intros _ _.
    by wapply within_ret.
  - destruct (str_in _ _).
    + wapply within_bind; [apply within_session_text_to_speech |]. intros _ _.
      by wapply within_ret.
    + wapply within_bind; [apply within_session_text_to_speech |]. intros _ _.
      by wapply within_ret.
Qed.

Lemma within_session_main_iteration env config :
  within (session env config) anything (main_iteration env config).
Proof.
  unfold main_iteration. wapply within_try_except_interrupt.
  - unfold main_try.
    wapply within_bind; [apply within_session, within_get_voice_input |].
    intros command _. apply within_session_handle_command.
  - unfold main_interrupted.
    wapply within_bind; [apply within_session_text_to_speech |]. intros _ _.
    by wapply within_ret.
  - intros e. unfold main_except.
    wapply within_bind; [apply within_session_logger |]. intros _ _.
    wapply within_bind; [apply within_session_text_to_speech |]. intros _ _.
    by wapply within_ret.
Qed.

Lemma within_session_command_loop env config fuel :
  within (session env config) anything (command_loop env config fuel).
Proof.
  induction fuel as [| fuel IH]; cbn [command_loop]; [by wapply within_ret |].
  wapply within_bind; [apply within_session_main_iteration |].
  intros [] _; [by wapply within_ret | apply IH].
Qed.

Lemma session_events_sent env config evs :
  Forall (session_event env config) evs →
  ∀ body, body ∈ sent evs → ∃ task, body = confirmation_message task.
Proof.
  induction 1 as [| ev evs Hev _ IH]; intros body Hb; [inversion Hb |].
  destruct ev; try (by apply IH).
  cbn in Hb. apply elem_of_cons in Hb as [-> | Hb]; [done | by apply IH].
Qed.

(** X18: the command loop never runs the scheduler.  However many
    commands it handles and whatever the clock reads, the jobs that were
    registered before are unchanged, jobs it registers have never run,
    every message it sends is the confirmation of a task, and no reminder
    is sent. *)
Theorem command_loop_runs_no_job env config fuel w r w' :
  command_loop env config fuel w = (r, w') →
  session env config w w' ∧
  (∀ ref job, job_store w !! ref = Some job → job_store w' !! ref = Some job) ∧
  ∃ evs, trace w' = trace w ++ evs ∧
         (∀ body, body ∈ sent evs → ∃ task, body = confirmation_message task) ∧
         (∀ task, reminder_message task ∉ sent evs).
Proof.
  intros H. destruct (within_session_command_loop env config fuel _ _ _ H) as [Hs _].
  split; [done |].
  destruct Hs as ((new & Hst & _) & _ & _ & evs & Ht & Hp).
  split.
  - intros ref job Hj. rewrite Hst. by apply lookup_app_l_Some.
  - exists evs. split; [done |].
    pose proof (session_events_sent _ _ _ Hp) as Hsent. split; [done |].
    intros task Hin. destruct (Hsent _ Hin) as [task' Heq]. discriminate Heq.
Qed.

Lemma command_loop_runs_no_job_witness :
  let w := fresh_world 1741100000 in
  let w' := snd (command_loop env_session sample_config 5 w) in
  session env_session sample_config w w' ∧
  (∀ ref job, job_store w !! ref = Some job → job_store w' !! ref = Some job) ∧
  ∃ evs, trace w' = trace w ++ evs ∧
         (∀ body, body ∈ sent evs → ∃ task, body = confirmation_message task) ∧
         (∀ task, reminder_message task ∉ sent evs).
Proof.
  intros w w'.
  apply (command_loop_runs_no_job env_session sample_config 5 w
           (fst (command_loop env_session sample_config 5 w))).
  vm_compute. reflexivity.
Defined.

(** ** Sample runs *)

(** The first attempt succeeds: one recording, the stripped transcript is
    returned and no file is left. *)
Example get_voice_input_first_attempt :
  let '(r, w) :=
    get_voice_input (env_nominal "  pay rent ") sample_config
      (Some "What would you like to do?") (fresh_world 1741100000) in
  r = Ok "pay rent" ∧ fs w = ∅ ∧ recordings (trace w) = 1%nat
  ∧ speech_requests (trace w) = ["What would you like to do?"].
Proof. vm_compute. by repeat split. Qed.

(** The user says "pay rent", then "tomorrow at 3pm". *)
Example create_task_dialogue :
  fst (create_task (env_dialogue "pay rent" "tomorrow at 3pm") sample_config
         (fresh_world 1741100000))
  = Ok (Some (mkTask "pay rent" "2025-03-05" "15:00")).
Proof. vm_compute. reflexivity. Qed.

(** A date without a time gets noon. *)
Example create_task_dialogue_noon :
  fst (create_task (env_dialogue "pay rent" "March 5 2025") sample_config
         (fresh_world 1741100000))
  = Ok (Some (mkTask "pay rent" "2025-03-05" "12:00")).
Proof. vm_compute. reflexivity. Qed.

(** A date text that cannot be resolved: the error is spoken and no task
    comes back. *)
Example create_task_dialogue_unparseable :
  let '(r, w) :=
    create_task (env_dialogue "pay rent" "not a date") sample_config
      (fresh_world 1741100000) in
  r = Ok None
  ∧ last (speech_requests (trace w))
    = Some "Error creating task: Could not parse datetime".
Proof. vm_compute. by split. Qed.

(** A name with a comma is quoted in the log and read back whole. *)
Example save_task_quoted_name :
  let '(r, w) :=
    save_task (env_nominal "pay rent") sample_config
      (mkTask "rent, water" "2025-03-05" "09:00")
      (snd (_initialize_csv (env_nominal "pay rent") sample_config (fresh_world 0))) in
  r = Ok tt
  ∧ (fs w !! "tasks.csv" ≫= csv_reader)
    = Some [csv_header; ["rent, water"; "2025-03-05"; "09:00"]].
Proof. vm_compute. by split. Qed.

(** A whole session: the user asks for a task, names it, gives the due date,
    and says "exit". *)
Example command_loop_session :
  let '(r, w) :=
    command_loop env_session sample_config 5
      (snd (_initialize_csv env_session sample_config (fresh_world 1741100000))) in
  r = Ok true
  ∧ (fs w !! "tasks.csv" ≫= csv_reader)
    = Some [csv_header; ["pay rent"; "2025-03-05"; "15:00"]]
  ∧ jobs w = [0%nat]
  ∧ sent (trace w) = [confirmation_message (mkTask "pay rent" "2025-03-05" "15:00")]
  ∧ last (speech_requests (trace w)) = Some "Exiting the task scheduler. Goodbye!".
Proof. vm_compute. by repeat split. Qed.
